(** * A shallow embedding of the chess rule engine of [chess_pygame.py]

    The engine part of the program (board model, attack map, pseudo-legal
    and legal move generation, move execution, opponent move selection) is
    translated function by function, under the names of the source.

    - A board is a list of rows of optional pieces, as in the source; a
      square is read and written through Python's list indexing, with its
      wrap-around of negative indices and its [IndexError].  The theorems
      are about boards of [ROWS] rows of [COLS] squares and squares with
      [in_bounds].
    - The type and color letters of a piece are the constructors of two
      enumerations.
    - The [while] loops of the sliding pieces run on fuel; running out of
      it is an error of its own, and the loops are shown to end before.
    - [random.choice] takes the draw of the random source as a parameter.
    - Values are immutable here.  For what [make_move] does to the lists
      and dictionaries of its argument, [Store] has the board as objects
      in a store, and the two models of [make_move] are related.
    - Of the presentation layer, the drawing functions are the lists of
      the calls they make, and the loop of [main] is a step function on
      the variables it carries, [Game.frame]. *)

From stdpp Require Import base option list strings gmap sets.
From Stdlib Require Import ZArith Lia.

Local Open Scope Z_scope.

(** ** Results of possibly failing code *)

Inductive exn : Set :=
| IndexError
| TypeError
| OutOfFuel.

Inductive res (A : Type) : Type :=
| Ok (a : A)
| Raise (e : exn).
Arguments Ok {A} a.
Arguments Raise {A} e.

#[global] Instance exn_eq_dec : EqDecision exn.
Proof. solve_decision. Defined.
#[global] Instance res_eq_dec {A} `{EqDecision A} : EqDecision (res A).
Proof. solve_decision. Defined.

#[global] Instance res_ret : MRet res := fun A a => Ok a.
#[global] Instance res_bind : MBind res := fun A B f m =>
  match m with
  | Ok a => f a
  | Raise e => Raise e
  end.

(** [returns m P]: the computation [m] finishes normally with a value
    satisfying [P]. *)
Definition returns {A} (m : res A) (P : A -> Prop) : Prop :=
  match m with
  | Ok a => P a
  | Raise _ => False
  end.

(** [for x in xs: s = body x s] *)
Fixpoint for_each {A S} (xs : list A) (body : A -> S -> res S) (s : S) : res S :=
  match xs with
  | [] => Ok s
  | x :: xs' => s' ← body x s; for_each xs' body s'
  end.

(** A [for] loop whose body may [return] a value out of the enclosing
    function: the first [Some] ends the loop. *)
Fixpoint for_first {A B} (xs : list A) (body : A -> res (option B)) : res (option B) :=
  match xs with
  | [] => Ok None
  | x :: xs' =>
      o ← body x;
      match o with
      | Some b => Ok (Some b)
      | None => for_first xs' body
      end
  end.

(** ** Python lists indexed by integers *)

(** [l[i]] resolves a negative [i] from the end and raises out of range. *)
Definition py_index (n : nat) (i : Z) : res nat :=
  if (0 <=? i) && (i <? Z.of_nat n) then Ok (Z.to_nat i)
  else if (- Z.of_nat n <=? i) && (i <? 0) then Ok (Z.to_nat (Z.of_nat n + i))
  else Raise IndexError.

Definition py_get {A} (l : list A) (i : Z) : res A :=
  k ← py_index (length l) i;
  match l !! k with
  | Some x => Ok x
  | None => Raise IndexError
  end.

Definition py_set {A} (l : list A) (i : Z) (x : A) : res (list A) :=
  k ← py_index (length l) i;
  Ok (<[k:=x]> l).

(** [range(n)] *)
Definition range (n : Z) : list Z := seqZ 0 n.

(** ** Config and data model *)

Definition ROWS : Z := 8.
Definition COLS : Z := 8.

(** The type letters ['K'], ['Q'], ['R'], ['B'], ['N'], ['P'] and the color
    letters ['w'], ['b']. *)
Inductive PieceKind : Set := King | Queen | Rook | Bishop | Knight | Pawn.
Inductive Color : Set := White | Black.

#[global] Instance PieceKind_eq_dec : EqDecision PieceKind.
Proof. solve_decision. Defined.
#[global] Instance Color_eq_dec : EqDecision Color.
Proof. solve_decision. Defined.

(** [{ 'type': 'KQRBNP', 'color': 'w' or 'b' }] *)
Record Piece : Set := mkPiece { ptype : PieceKind; pcolor : Color }.

#[global] Instance Piece_eq_dec : EqDecision Piece.
Proof. solve_decision. Defined.

Abbreviation Square := (Z * Z)%type.
Abbreviation Move := ((Z * Z) * (Z * Z))%type.
Abbreviation Board := (list (list (option Piece))).

(** ** Utilities *)

Definition in_bounds (r c : Z) : bool :=
  (0 <=? r) && (r <? ROWS) && ((0 <=? c) && (c <? COLS)).

(** [board[r][c]] *)
Definition getp (board : Board) (r c : Z) : res (option Piece) :=
  row ← py_get board r; py_get row c.

(** [board[r][c] = v] *)
Definition setp (board : Board) (r c : Z) (v : option Piece) : res Board :=
  row ← py_get board r;
  row' ← py_set row c v;
  py_set board r row'.

(** [[[None for _ in range(COLS)] for _ in range(ROWS)]] *)
Definition empty_board : Board :=
  (fun _ => (fun _ => None) <$> range COLS) <$> range ROWS.

Definition copy_piece (p : Piece) : Piece :=
  {| ptype := ptype p; pcolor := pcolor p |}.

Definition deep_copy_board (board : Board) : res Board :=
  for_each (range ROWS) (fun r new_board =>
    for_each (range COLS) (fun c new_board =>
      p ← getp board r c;
      match p with
      | None => setp new_board r c None
      | Some p => setp new_board r c (Some (copy_piece p))
      end) new_board) empty_board.

(** ** Chess logic *)

Definition put (r c : Z) (t : PieceKind) (color : Color) (board : Board) : res Board :=
  setp board r c (Some {| ptype := t; pcolor := color |}).

Definition initial_board : res Board :=
  let board := empty_board in
  board ← for_each (range COLS) (fun c board =>
             board ← put 6 c Pawn White board;
             put 1 c Pawn Black board) board;
  board ← put 7 0 Rook White board;
  board ← put 7 7 Rook White board;
  board ← put 0 0 Rook Black board;
  board ← put 0 7 Rook Black board;
  board ← put 7 1 Knight White board;
  board ← put 7 6 Knight White board;
  board ← put 0 1 Knight Black board;
  board ← put 0 6 Knight Black board;
  board ← put 7 2 Bishop White board;
  board ← put 7 5 Bishop White board;
  board ← put 0 2 Bishop Black board;
  board ← put 0 5 Bishop Black board;
  board ← put 7 3 Queen White board;
  board ← put 0 3 Queen Black board;
  board ← put 7 4 King White board;
  board ← put 0 4 King Black board;
  Ok board.

Definition is_king_of (color : Color) (p : option Piece) : bool :=
  match p with
  | Some p => bool_decide (ptype p = King) && bool_decide (pcolor p = color)
  | None => false
  end.

Definition find_king (board : Board) (color : Color) : res (option Square) :=
  for_first (range ROWS) (fun r =>
    for_first (range COLS) (fun c =>
      p ← getp board r c;
      if is_king_of color p then Ok (Some (r, c)) else Ok None)).

Definition rook_dirs : list (Z * Z) := [(-1, 0); (1, 0); (0, -1); (0, 1)].
Definition bishop_dirs : list (Z * Z) := [(-1, -1); (-1, 1); (1, -1); (1, 1)].
Definition knight_jumps : list (Z * Z) :=
  [(-2, -1); (-2, 1); (-1, -2); (-1, 2); (1, -2); (1, 2); (2, -1); (2, 1)].

(** Fuel of the [while in_bounds(rr, cc)] loops: one test of the condition
    per unit. *)
Definition ray_fuel : nat := 8.

(** [dir_forward = -1 if color == "w" else 1] *)
Definition dir_forward (color : Color) : Z :=
  if bool_decide (color = White) then -1 else 1.

(** The loop of a sliding piece in [squares_attacked_by], entered with
    [(rr, cc)]; the set [attacked] is threaded through. *)
Fixpoint attack_ray (fuel : nat) (board : Board) (dr dc rr cc : Z)
    (attacked : gset Square) : res (gset Square) :=
  match fuel with
  | O => Raise OutOfFuel
  | S fuel' =>
      if in_bounds rr cc then
        let attacked := {[ (rr, cc) ]} ∪ attacked in
        p ← getp board rr cc;
        match p with
        | Some _ => Ok attacked
        | None => attack_ray fuel' board dr dc (rr + dr) (cc + dc) attacked
        end
      else Ok attacked
  end.

Definition attack_rays (board : Board) (dirs : list (Z * Z)) (r c : Z)
    (attacked : gset Square) : res (gset Square) :=
  for_each dirs (fun '(dr, dc) attacked =>
    attack_ray ray_fuel board dr dc (r + dr) (c + dc) attacked) attacked.

(** [if in_bounds(rr, cc): attacked.add((rr, cc))] *)
Definition add_if_in_bounds (rr cc : Z) (attacked : gset Square) : gset Square :=
  if in_bounds rr cc then {[ (rr, cc) ]} ∪ attacked else attacked.

Definition squares_attacked_by (board : Board) (color : Color) : res (list Square) :=
  attacked ← for_each (range ROWS) (fun r attacked =>
    for_each (range COLS) (fun c attacked =>
      p ← getp board r c;
      match p with
      | None => Ok attacked
      | Some p =>
          if bool_decide (pcolor p ≠ color) then Ok attacked
          else match ptype p with
          | Pawn =>
              for_each [-1; 1] (fun dc attacked =>
                Ok (add_if_in_bounds (r + dir_forward color) (c + dc) attacked)) attacked
          | Knight =>
              for_each knight_jumps (fun '(dr, dc) attacked =>
                Ok (add_if_in_bounds (r + dr) (c + dc) attacked)) attacked
          | King =>
              for_each [-1; 0; 1] (fun dr attacked =>
                for_each [-1; 0; 1] (fun dc attacked =>
                  if bool_decide (dr = 0) && bool_decide (dc = 0) then Ok attacked
                  else Ok (add_if_in_bounds (r + dr) (c + dc) attacked)) attacked) attacked
          | Rook => attack_rays board rook_dirs r c attacked
          | Bishop => attack_rays board bishop_dirs r c attacked
          | Queen => attack_rays board (rook_dirs ++ bishop_dirs) r c attacked
          end
      end) attacked) (∅ : gset Square);
  Ok (elements attacked).

(** [enemy = "b" if color == "w" else "w"] *)
Definition enemy (color : Color) : Color :=
  if bool_decide (color = White) then Black else White.

Definition is_in_check (board : Board) (color : Color) : res bool :=
  king_pos ← find_king board color;
  match king_pos with
  | None => Ok false
  | Some king_pos =>
      attacked ← squares_attacked_by board (enemy color);
      Ok (bool_decide (king_pos ∈ attacked))
  end.

Definition add_move (r1 c1 r2 c2 : Z) (moves : list Move) : list Move :=
  moves ++ [((r1, c1), (r2, c2))].

(** [board[rr][cc] is None or board[rr][cc]["color"] != color] *)
Definition free_or_enemy (color : Color) (q : option Piece) : bool :=
  match q with
  | None => true
  | Some q => bool_decide (pcolor q ≠ color)
  end.

(** The loop of a sliding piece in [generate_pseudo_legal_moves]. *)
Fixpoint move_ray (fuel : nat) (board : Board) (color : Color) (r c dr dc rr cc : Z)
    (moves : list Move) : res (list Move) :=
  match fuel with
  | O => Raise OutOfFuel
  | S fuel' =>
      if in_bounds rr cc then
        q ← getp board rr cc;
        match q with
        | None =>
            move_ray fuel' board color r c dr dc (rr + dr) (cc + dc)
              (add_move r c rr cc moves)
        | Some q =>
            if bool_decide (pcolor q ≠ color) then Ok (add_move r c rr cc moves)
            else Ok moves
        end
      else Ok moves
  end.

(** The jumps of a knight or a king: each target in bounds that is empty or
    holds an enemy piece. *)
Definition step_move (board : Board) (color : Color) (r c rr cc : Z)
    (moves : list Move) : res (list Move) :=
  if negb (in_bounds rr cc) then Ok moves
  else
    q ← getp board rr cc;
    if free_or_enemy color q then Ok (add_move r c rr cc moves) else Ok moves.

Definition pawn_moves (board : Board) (color : Color) (r c : Z)
    (moves : list Move) : res (list Move) :=
  let start_row := if bool_decide (color = White) then 6 else 1 in
  let r1 := r + dir_forward color in
  moves ←
    (if in_bounds r1 c then
       q ← getp board r1 c;
       match q with
       | None =>
           let moves := add_move r c r1 c moves in
           let r2 := r + 2 * dir_forward color in
           if bool_decide (r = start_row) && in_bounds r2 c then
             q2 ← getp board r2 c;
             match q2 with
             | None => Ok (add_move r c r2 c moves)
             | Some _ => Ok moves
             end
           else Ok moves
       | Some _ => Ok moves
       end
     else Ok moves);
  for_each [-1; 1] (fun dc moves =>
    let cc := c + dc in
    let rr := r + dir_forward color in
    if in_bounds rr cc then
      q ← getp board rr cc;
      match q with
      | Some q => if bool_decide (pcolor q ≠ color) then Ok (add_move r c rr cc moves)
                  else Ok moves
      | None => Ok moves
      end
    else Ok moves) moves.

(** [directions] of a [B], [R] or [Q]. *)
Definition directions (t : PieceKind) : list (Z * Z) :=
  (if bool_decide (t = Bishop) || bool_decide (t = Queen)
   then [(-1, -1); (-1, 1); (1, -1); (1, 1)] else [])
  ++ (if bool_decide (t = Rook) || bool_decide (t = Queen)
      then [(-1, 0); (1, 0); (0, -1); (0, 1)] else []).

Definition piece_moves (board : Board) (color : Color) (r c : Z) (t : PieceKind)
    (moves : list Move) : res (list Move) :=
  match t with
  | Pawn => pawn_moves board color r c moves
  | Knight =>
      for_each knight_jumps (fun '(dr, dc) moves =>
        step_move board color r c (r + dr) (c + dc) moves) moves
  | Bishop | Rook | Queen =>
      for_each (directions t) (fun '(dr, dc) moves =>
        move_ray ray_fuel board color r c dr dc (r + dr) (c + dc) moves) moves
  | King =>
      for_each [-1; 0; 1] (fun dr moves =>
        for_each [-1; 0; 1] (fun dc moves =>
          if bool_decide (dr = 0) && bool_decide (dc = 0) then Ok moves
          else step_move board color r c (r + dr) (c + dc) moves) moves) moves
  end.

Definition generate_pseudo_legal_moves (board : Board) (color : Color) : res (list Move) :=
  for_each (range ROWS) (fun r moves =>
    for_each (range COLS) (fun c moves =>
      p ← getp board r c;
      match p with
      | None => Ok moves
      | Some p =>
          if bool_decide (pcolor p ≠ color) then Ok moves
          else piece_moves board color r c (ptype p) moves
      end) moves) [].

Definition make_move (board : Board) (move : Move) : res Board :=
  let '((r1, c1), (r2, c2)) := move in
  new_board ← deep_copy_board board;
  piece ← getp new_board r1 c1;
  new_board ← setp new_board r1 c1 None;
  let plain := setp new_board r2 c2 piece in
  match piece with
  | Some p =>
      if bool_decide (ptype p = Pawn) then
        let final_row := if bool_decide (pcolor p = White) then 0 else 7 in
        if bool_decide (r2 = final_row)
        then setp new_board r2 c2 (Some {| ptype := Queen; pcolor := pcolor p |})
        else plain
      else plain
  | None => plain
  end.

Definition generate_legal_moves (board : Board) (color : Color) : res (list Move) :=
  moves ← generate_pseudo_legal_moves board color;
  for_each moves (fun m legal =>
    nb ← make_move board m;
    chk ← is_in_check nb color;
    if negb chk then Ok (legal ++ [m]) else Ok legal) [].

(** ** AI *)

Section RandomSource.
(** [random.choice(seq)] is [seq[randbelow(len(seq))]]; the draw of the
    random source is a parameter. *)
Variable randbelow : nat -> nat.

Definition random_choice {A} (pool : list A) : res A :=
  py_get pool (Z.of_nat (randbelow (length pool))).

Definition ai_choose_move (board : Board) : res (option Move) :=
  let color := Black in
  moves ← generate_legal_moves board color;
  if bool_decide (moves = []) then Ok None
  else
    capture_moves ← for_each moves (fun m capture_moves =>
      let '((r1, c1), (r2, c2)) := m in
      q ← getp board r2 c2;
      match q with
      | Some _ => Ok (capture_moves ++ [m])
      | None => Ok capture_moves
      end) [];
    let pool := if bool_decide (capture_moves = []) then moves else capture_moves in
    m ← random_choice pool;
    Ok (Some m).
End RandomSource.

(** ** The board as Python objects

    [make_move] works on a copy made by [deep_copy_board].  To see that the
    copy is one, the lists and dictionaries of a board are placed in a
    store of mutable objects: a board is a reference to a list of
    references to rows, a row a list of [None] and references to piece
    dictionaries.  Subscripting what is not a list, or reading a key of
    what is not a dictionary, is a [TypeError]. *)

Module Store.

Abbreviation loc := positive.

Inductive val : Set :=
| VNone
| VRef (l : loc).

Inductive obj : Set :=
| ODict (t : PieceKind) (color : Color)
| OList (items : list val).

Abbreviation heap := (gmap loc obj).

(** Computations on the store that may raise. *)
Definition M (A : Type) : Type := heap -> res (A * heap).

#[global] Instance M_ret : MRet M := fun A a h => Ok (a, h).
#[global] Instance M_bind : MBind M := fun A B f m h =>
  match m h with
  | Ok (a, h') => f a h'
  | Raise e => Raise e
  end.

Definition alloc (o : obj) : M val := fun h =>
  let l := fresh (dom h) in Ok (VRef l, <[l:=o]> h).

(** [v[i]] *)
Definition get_item (v : val) (i : Z) : M val := fun h =>
  match v with
  | VRef l =>
      match h !! l with
      | Some (OList items) => x ← py_get items i; Ok (x, h)
      | _ => Raise TypeError
      end
  | VNone => Raise TypeError
  end.

(** [v[i] = x] *)
Definition set_item (v : val) (i : Z) (x : val) : M unit := fun h =>
  match v with
  | VRef l =>
      match h !! l with
      | Some (OList items) =>
          items' ← py_set items i x; Ok (tt, <[l:=OList items']> h)
      | _ => Raise TypeError
      end
  | VNone => Raise TypeError
  end.

(** [p["type"]] and [p["color"]] *)
Definition get_type (v : val) : M PieceKind := fun h =>
  match v with
  | VRef l =>
      match h !! l with
      | Some (ODict t _) => Ok (t, h)
      | _ => Raise TypeError
      end
  | VNone => Raise TypeError
  end.

Definition get_color (v : val) : M Color := fun h =>
  match v with
  | VRef l =>
      match h !! l with
      | Some (ODict _ color) => Ok (color, h)
      | _ => Raise TypeError
      end
  | VNone => Raise TypeError
  end.

(** [[f(x) for x in xs]] *)
Fixpoint list_comp {A} (xs : list A) (f : A -> M val) : M (list val) :=
  match xs with
  | [] => mret []
  | x :: xs' => v ← f x; vs ← list_comp xs' f; mret (v :: vs)
  end.

(** [for x in xs: body(x)] *)
Fixpoint for_ {A} (xs : list A) (body : A -> M unit) : M unit :=
  match xs with
  | [] => mret tt
  | x :: xs' => _ ← body x; for_ xs' body
  end.

(** [board[r][c]] *)
Definition getp (board : val) (r c : Z) : M val :=
  row ← get_item board r; get_item row c.

(** [board[r][c] = v] *)
Definition setp (board : val) (r c : Z) (v : val) : M unit :=
  row ← get_item board r; set_item row c v.

Definition deep_copy_board (board : val) : M val :=
  rows ← list_comp (range ROWS) (fun _ =>
            items ← list_comp (range COLS) (fun _ => mret VNone);
            alloc (OList items));
  new_board ← alloc (OList rows);
  _ ← for_ (range ROWS) (fun r =>
        for_ (range COLS) (fun c =>
          p ← getp board r c;
          match p with
          | VNone => setp new_board r c VNone
          | VRef _ =>
              t ← get_type p;
              color ← get_color p;
              d ← alloc (ODict t color);
              setp new_board r c d
          end));
  mret new_board.

Definition make_move (board : val) (move : Move) : M val :=
  let '((r1, c1), (r2, c2)) := move in
  new_board ← deep_copy_board board;
  piece ← getp new_board r1 c1;
  _ ← setp new_board r1 c1 VNone;
  let plain : M val := (_ ← setp new_board r2 c2 piece; mret new_board) in
  match piece with
  | VRef _ =>
      t ← get_type piece;
      if bool_decide (t = Pawn) then
        color ← get_color piece;
        let final_row := if bool_decide (color = White) then 0 else 7 in
        if bool_decide (r2 = final_row) then
          color ← get_color piece;
          q ← alloc (ODict Queen color);
          _ ← setp new_board r2 c2 q;
          mret new_board
        else plain
      else plain
  | VNone => plain
  end.

(** What a value of the store stands for. *)
Definition repr_piece (h : heap) (v : val) (o : option Piece) : Prop :=
  match o with
  | None => v = VNone
  | Some p => exists l : loc, v = VRef l /\ h !! l = Some (ODict (ptype p) (pcolor p))
  end.

Definition repr_row (h : heap) (v : val) (row : list (option Piece)) : Prop :=
  exists (l : loc) (items : list val),
    v = VRef l /\ h !! l = Some (OList items) /\ Forall2 (repr_piece h) items row.

Definition repr_board (h : heap) (v : val) (board : Board) : Prop :=
  exists (l : loc) (rows : list val),
    v = VRef l /\ h !! l = Some (OList rows) /\ Forall2 (repr_row h) rows board.

(** The objects a value leads to. *)
Inductive reachable (h : heap) : val -> loc -> Prop :=
| reachable_here l : reachable h (VRef l) l
| reachable_item l items v l' :
    h !! l = Some (OList items) -> v ∈ items -> reachable h v l' ->
    reachable h (VRef l) l'.

(** A piece of the copy: [None], or a dictionary that is not an object of
    the store [h0] the copy started from. *)
Definition fresh_piece (h0 h : heap) (v : val) (o : option Piece) : Prop :=
  match o with
  | None => v = VNone
  | Some p => exists l : loc, v = VRef l /\ (l ∉ dom h0) /\
                              h !! l = Some (ODict (ptype p) (pcolor p))
  end.

Definition fresh_row (h0 h : heap) (rl : loc) (row : list (option Piece)) : Prop :=
  exists items : list val,
    h !! rl = Some (OList items) /\ Forall2 (fresh_piece h0 h) items row.

(** The copy under construction: its list [nl] of the rows [rls], all of
    them objects made after [h0], standing for the board [nb]; the objects
    of [h0] are as they were. *)
Definition fresh_board (h0 h : heap) (nl : loc) (rls : list loc) (nb : Board) : Prop :=
  h0 ⊆ h /\ NoDup (nl :: rls) /\ (forall l, l ∈ nl :: rls -> l ∉ dom h0) /\
  h !! nl = Some (OList (VRef <$> rls)) /\
  Forall2 (fresh_row h0 h) rls nb.

(** [m] run on [h] finishes normally, with a value and a store in [P]. *)
Definition runs {A} (m : M A) (h : heap) (P : A -> heap -> Prop) : Prop :=
  returns (m h) (fun ah => P ah.1 ah.2).

End Store.

(** ** Specification vocabulary *)

(** A board of the program: [ROWS] rows of [COLS] squares. *)
Definition wf_board (board : Board) : Prop :=
  length board = 8%nat /\ Forall (fun row => length row = 8%nat) board.

(** The content of an on-board square, read without Python's indexing. *)
Definition cell (board : Board) (r c : Z) : option Piece :=
  default None (row ← board !! Z.to_nat r; row !! Z.to_nat c).

(** The board with one square replaced. *)
Definition upd (board : Board) (r c : Z) (v : option Piece) : Board :=
  alter (fun row => <[Z.to_nat c := v]> row) (Z.to_nat r) board.

Definition sq_in_bounds (s : Square) : Prop := in_bounds s.1 s.2 = true.

(** Both squares on the board, a piece of [color] on the first, none of
    [color] on the second. *)
Definition wf_move (board : Board) (color : Color) (m : Move) : Prop :=
  sq_in_bounds m.1 /\ sq_in_bounds m.2 /\
  (exists p, getp board m.1.1 m.1.2 = Ok (Some p) /\ pcolor p = color) /\
  (forall q, getp board m.2.1 m.2.2 = Ok (Some q) -> pcolor q <> color).

(** The number of pieces in a row and on a board. *)
Definition count_row (row : list (option Piece)) : nat :=
  length (filter is_Some row).

Definition count_pieces (board : Board) : nat :=
  sum_list (count_row <$> board).

(** Whether a square counts as a piece. *)
Definition occupied (o : option Piece) : nat :=
  match o with Some _ => 1%nat | None => 0%nat end.

(** The destination of [m] is occupied on [board]. *)
Definition is_capture (board : Board) (m : Move) : Prop :=
  exists q, getp board m.2.1 m.2.2 = Ok (Some q).

(** [m] played on [board] leaves the king of [color] unattacked. *)
Definition keeps_king_safe (board : Board) (color : Color) (m : Move) : Prop :=
  (nb ← make_move board m; is_in_check nb color) = Ok false.

(** Row-major order of the scan of [find_king]. *)
Definition scanned_before (s t : Square) : Prop :=
  s.1 < t.1 \/ (s.1 = t.1 /\ s.2 < t.2).

Definition king_at (board : Board) (color : Color) (s : Square) : Prop :=
  sq_in_bounds s /\ exists p, getp board s.1 s.2 = Ok (Some p) /\
                              ptype p = King /\ pcolor p = color.

Definition first_king_at (board : Board) (color : Color) (s : Square) : Prop :=
  king_at board color s /\
  forall t, king_at board color t -> ~ scanned_before t s.

(** The rank on which a pawn of [color] is promoted. *)
Definition back_rank (color : Color) : Z :=
  match color with White => 0 | Black => 7 end.

(** What [make_move] leaves on the destination, [piece] being what stood
    on the from-square. *)
Definition arrival (piece : option Piece) (r2 : Z) : option Piece :=
  match piece with
  | Some p =>
      if bool_decide (ptype p = Pawn) && bool_decide (r2 = back_rank (pcolor p))
      then Some {| ptype := Queen; pcolor := pcolor p |}
      else Some p
  | None => None
  end.

(** A direction of a sliding piece. *)
Definition unit_dir (d : Z * Z) : Prop :=
  -1 <= d.1 <= 1 /\ -1 <= d.2 <= 1 /\ (d.1 <> 0 \/ d.2 <> 0).

(** An upper bound of the squares a ray still has on the board. *)
Definition steps_left (dr dc rr cc : Z) : Z :=
  if dr =? 1 then 8 - rr
  else if dr =? -1 then rr + 1
  else if dc =? 1 then 8 - cc
  else cc + 1.

(** ** Positions

    The boards the examples are run on. *)

(** Pieces at the listed squares, the other squares empty. *)
Definition board_of (pieces : list (Square * Piece)) : Board :=
  foldr (fun '((r, c), p) board => upd board r c (Some p)) empty_board pieces.

(** A white rook alone on the board. *)
Definition lone_rook : Board := board_of [((4, 4), mkPiece Rook White)].

(** Two white kings, the second one on the row of a black rook. *)
Definition two_kings : Board :=
  board_of [((0, 0), mkPiece King White); ((7, 7), mkPiece King White);
            ((7, 3), mkPiece Rook Black); ((0, 7), mkPiece King Black)].

(** A white rook between its king and a black rook on the same file. *)
Definition pinned_rook : Board :=
  board_of [((7, 4), mkPiece King White); ((6, 4), mkPiece Rook White);
            ((0, 4), mkPiece Rook Black); ((0, 0), mkPiece King Black)].

(** The position [initial_board] builds. *)
Definition back_row (color : Color) : list (option Piece) :=
  (fun t => Some (mkPiece t color)) <$>
    [Rook; Knight; Bishop; Queen; King; Bishop; Knight; Rook].
Definition pawn_row (color : Color) : list (option Piece) :=
  replicate 8 (Some (mkPiece Pawn color)).
Definition empty_row : list (option Piece) := replicate 8 None.
Definition start_position : Board :=
  [back_row Black; pawn_row Black; empty_row; empty_row;
   empty_row; empty_row; pawn_row White; back_row White].

(** The opening moves of White. *)
Definition single_steps : list Move := (fun c => ((6, c), (5, c))) <$> range 8.
Definition double_steps : list Move := (fun c => ((6, c), (4, c))) <$> range 8.
Definition knight_moves : list Move :=
  [((7, 1), (5, 0)); ((7, 1), (5, 2)); ((7, 6), (5, 5)); ((7, 6), (5, 7))].

(** A store holding a board: the list 1 of the rows 2 to 9, a white rook,
    object 10, on the first square of the last row. *)
Definition rook_store : Store.heap :=
  list_to_map
    ((1%positive, Store.OList (Store.VRef <$> [2; 3; 4; 5; 6; 7; 8; 9]%positive)) ::
     (9%positive, Store.OList (Store.VRef 10%positive :: replicate 7 Store.VNone)) ::
     (10%positive, Store.ODict Rook White) ::
     ((fun l => (l, Store.OList (replicate 8 Store.VNone))) <$> [2; 3; 4; 5; 6; 7; 8]%positive)).

(** The board [rook_store] holds. *)
Definition corner_rook : Board := board_of [((7, 0), mkPiece Rook White)].

(** A white pawn one step from promotion, a black knight to take. *)
Definition promoting_pawn : Board :=
  board_of [((1, 2), mkPiece Pawn White); ((0, 3), mkPiece Knight Black)].

(** A black rook that can take a white pawn, with quiet moves besides. *)
Definition rook_takes_pawn : Board :=
  board_of [((0, 0), mkPiece Rook Black); ((3, 0), mkPiece Pawn White);
            ((0, 7), mkPiece King Black); ((7, 7), mkPiece King White)].

(** ** Rendering

    The drawing functions paint on the screen; what is kept of them is the
    list of the [pygame.draw] calls they make, in order. *)

Definition WIDTH : Z := 640.
Definition HEIGHT : Z := 640.

(** [SQUARE = WIDTH // COLS] *)
Definition SQUARE : Z := WIDTH `div` COLS.

Definition LIGHT : Z * Z * Z := (240, 217, 181).
Definition DARK : Z * Z * Z := (181, 136, 99).
Definition MOVE_DOT : Z * Z * Z := (50, 50, 50).
Definition SELECT_OUTLINE : Z * Z * Z := (255, 215, 0).
Definition TEXT_COLOR : Z * Z * Z := (10, 10, 10).
Definition BG : Z * Z * Z := (30, 30, 30).
Definition AI_DELAY_MS : Z := 350.

(** [screen.fill], [pygame.draw.rect] (a [width] of 0 fills the
    rectangle), [pygame.draw.circle], and [screen.blit] of a text rendered
    in a color, placed by its center or by its top left corner. *)
Inductive draw_call : Set :=
| fill (color : Z * Z * Z)
| draw_rect (color : Z * Z * Z) (rect : Z * Z * Z * Z) (width : Z)
| draw_circle (color : Z * Z * Z) (center : Z * Z) (radius : Z)
| blit_center (text : string) (color : Z * Z * Z) (center : Z * Z)
| blit_topleft (text : string) (color : Z * Z * Z) (dest : Z * Z).

(** A dictionary literal and its [get]. *)
Fixpoint dict_get {K V} `{EqDecision K} (d : list (K * V)) (k : K) : option V :=
  match d with
  | [] => None
  | (k', v) :: d' => if decide (k' = k) then Some v else dict_get d' k
  end.

Definition UNICODE_PIECES : list (PieceKind * Color * string) :=
  [((King, White), "♔"); ((Queen, White), "♕"); ((Rook, White), "♖");
   ((Bishop, White), "♗"); ((Knight, White), "♘"); ((Pawn, White), "♙");
   ((King, Black), "♚"); ((Queen, Black), "♛"); ((Rook, Black), "♜");
   ((Bishop, Black), "♝"); ((Knight, Black), "♞"); ((Pawn, Black), "♟")]%string.

Definition draw_board : list draw_call :=
  r ← range ROWS;
  c ← range COLS;
  let color := if bool_decide ((r + c) `mod` 2 = 0) then LIGHT else DARK in
  [draw_rect color (c * SQUARE, r * SQUARE, SQUARE, SQUARE) 0].

Definition draw_selection (selected : option Square) : list draw_call :=
  match selected with
  | None => []
  | Some (r, c) =>
      let '(x, y) := (c * SQUARE, r * SQUARE) in
      [draw_rect SELECT_OUTLINE (x, y, SQUARE, SQUARE) 4]
  end.

Definition draw_moves (moves : list Move) (from_pos : option Square) : list draw_call :=
  match from_pos with
  | None => []
  | Some (fr, fc) =>
      '((r1, c1), (r2, c2)) ← moves;
      if bool_decide ((r1, c1) ≠ (fr, fc)) then []
      else
        let cx := c2 * SQUARE + SQUARE `div` 2 in
        let cy := r2 * SQUARE + SQUARE `div` 2 in
        [draw_circle MOVE_DOT (cx, cy) (Z.max 6 (SQUARE `div` 10))]
  end.

Definition draw_pieces (board : Board) : res (list draw_call) :=
  for_each (range ROWS) (fun r calls =>
    for_each (range COLS) (fun c calls =>
      p ← getp board r c;
      match p with
      | None => Ok calls
      | Some p =>
          let center := (c * SQUARE + SQUARE `div` 2, r * SQUARE + SQUARE `div` 2) in
          let fallback :=
            let color := if bool_decide (pcolor p = White) then (240, 240, 240)
                         else (20, 20, 20) in
            calls ++ [draw_circle color center (SQUARE `div` 3)] in
          match dict_get UNICODE_PIECES (ptype p, pcolor p) with
          | Some glyph =>
              if bool_decide (glyph ≠ ""%string)
              then Ok (calls ++ [blit_center glyph TEXT_COLOR center])
              else Ok fallback
          | None => Ok fallback
          end
      end) calls) [].

Definition draw_status_bar (info : string) : list draw_call :=
  let bar_h := 28 in
  let rect := (0, HEIGHT - bar_h, WIDTH, bar_h) in
  [draw_rect BG rect 0; blit_topleft info (230, 230, 230) (10, HEIGHT - bar_h + 5)].

(** ** Interaction *)

Definition pos_from_mouse (pos : Z * Z) : option Square :=
  let '(x, y) := pos in
  if bool_decide (y >= HEIGHT) then None
  else
    let c := x `div` SQUARE in
    let r := y `div` SQUARE in
    if in_bounds r c then Some (r, c) else None.

(** ** Main game

    The variables of [main] that the loop carries from one turn to the
    next are the fields of a record; one turn of the [while running] loop
    is [frame].  The calls that draw and that pace the loop touch none of
    these variables and are left out.  What [pygame.time.get_ticks()]
    returns is a parameter of the step that reads it. *)

Module Game.

Record state : Type := mk_state {
  board : Board;
  turn : Color;
  selected : option Square;
  legal_moves_cache : list Move;
  info : string;
  ai_pending : bool;
  ai_timer_start : Z;
  running : bool
}.

Inductive event : Set :=
| QUIT
| MOUSEBUTTONDOWN (button : Z) (pos : Z * Z)
| OTHER.

(** The state [main] enters its loop with. *)
Definition start : res state :=
  board ← initial_board;
  Ok {| board := board; turn := White; selected := None; legal_moves_cache := [];
        info := "White to move. Click a piece, then a destination.";
        ai_pending := false; ai_timer_start := 0; running := true |}.

Definition set_selection (st : state) (sel : option Square) (cache : list Move) : state :=
  {| board := board st; turn := turn st; selected := sel; legal_moves_cache := cache;
     info := info st; ai_pending := ai_pending st;
     ai_timer_start := ai_timer_start st; running := running st |}.

Definition set_info (st : state) (s : string) : state :=
  {| board := board st; turn := turn st; selected := selected st;
     legal_moves_cache := legal_moves_cache st;
     info := s; ai_pending := ai_pending st;
     ai_timer_start := ai_timer_start st; running := running st |}.

(** [p and p["color"] == "w"] *)
Definition is_white (p : option Piece) : bool :=
  match p with
  | Some p => bool_decide (pcolor p = White)
  | None => false
  end.

(** The selection of the piece on [(r, c)], if it is a white one. *)
Definition select_white (st : state) (r c : Z) (otherwise : state) : res state :=
  p ← getp (board st) r c;
  if is_white p then
    cache ← generate_legal_moves (board st) White;
    Ok (set_selection st (Some (r, c)) cache)
  else Ok otherwise.

(** A press of the left button at [pos]; [ticks] is the clock. *)
Definition mouse_down (st : state) (pos : Z * Z) (ticks : Z) : res state :=
  if bool_decide (turn st = White) && negb (ai_pending st) then
    match pos_from_mouse pos with
    | None => Ok st
    | Some (r, c) =>
        match selected st with
        | None => select_white st r c (set_selection st None [])
        | Some sel =>
            let cand := (sel, (r, c)) in
            let legal_moves := filter (fun m : Move => m.1 = sel) (legal_moves_cache st) in
            if bool_decide (cand ∈ legal_moves) then
              board ← make_move (board st) cand;
              Ok {| board := board; turn := Black; selected := None;
                    legal_moves_cache := []; info := "Black thinking...";
                    ai_pending := true; ai_timer_start := ticks;
                    running := running st |}
            else select_white st r c st
        end
    end
  else Ok st.

Definition handle_event (st : state) (ev : event) (ticks : Z) : res state :=
  match ev with
  | QUIT =>
      Ok {| board := board st; turn := turn st; selected := selected st;
            legal_moves_cache := legal_moves_cache st; info := info st;
            ai_pending := ai_pending st; ai_timer_start := ai_timer_start st;
            running := false |}
  | MOUSEBUTTONDOWN button pos =>
      if bool_decide (button = 1) then mouse_down st pos ticks else Ok st
  | OTHER => Ok st
  end.

Section RandomSource.
Variable randbelow : nat -> nat.

(** The move of the AI once its delay is over; [now] is the clock. *)
Definition ai_move (st : state) (now : Z) : res state :=
  if bool_decide (turn st = Black) && ai_pending st then
    if bool_decide (now - ai_timer_start st >= AI_DELAY_MS) then
      m ← ai_choose_move randbelow (board st);
      match m with
      | None =>
          Ok {| board := board st; turn := turn st; selected := selected st;
                legal_moves_cache := legal_moves_cache st;
                info := "Black has no legal moves.";
                ai_pending := false; ai_timer_start := ai_timer_start st;
                running := running st |}
      | Some m =>
          board ← make_move (board st) m;
          chk ← is_in_check board White;
          Ok {| board := board; turn := White; selected := selected st;
                legal_moves_cache := legal_moves_cache st;
                info := if (chk : bool) then "Check on White! Your move."
                        else "White to move.";
                ai_pending := false; ai_timer_start := ai_timer_start st;
                running := running st |}
      end
    else Ok st
  else Ok st.

(** The check status shown when it is the human's turn. *)
Definition status (st : state) : res state :=
  if bool_decide (turn st = White) && negb (ai_pending st) then
    chk ← is_in_check (board st) White;
    if (chk : bool) then Ok (set_info st "Check on White! Your move.") else Ok st
  else Ok st.

(** One turn of the loop: the events, each with the clock at its
    handling, then the AI, then the status. *)
Definition frame (events : list (event * Z)) (now : Z) (st : state) : res state :=
  st ← for_each events (fun '(ev, ticks) st => handle_event st ev ticks) st;
  st ← ai_move st now;
  status st.

End RandomSource.

(** What a turn of the loop draws, once the state is settled. *)
Definition render (st : state) : res (list draw_call) :=
  pieces ← draw_pieces (board st);
  Ok ([fill BG] ++ draw_board ++ draw_selection (selected st) ++
      match selected st with
      | Some _ => draw_moves (legal_moves_cache st) (selected st)
      | None => []
      end ++
      pieces ++ draw_status_bar (info st)).

End Game.

(** ** Vocabulary of the further properties *)

(** The pixel [(x, y)] lies in the square [s] of the window. *)
Definition pixel_in_square (x y : Z) (s : Square) : Prop :=
  s.2 * SQUARE <= x < (s.2 + 1) * SQUARE /\ s.1 * SQUARE <= y < (s.1 + 1) * SQUARE.

(** The pixel lies in the rectangle [(x0, y0, w, h)]. *)
Definition pixel_in_rect (x y : Z) (rect : Z * Z * Z * Z) : Prop :=
  let '(x0, y0, w, h) := rect in
  x0 <= x < x0 + w /\ y0 <= y < y0 + h.

(** The rectangle of a square of the board, its color and its center. *)
Definition square_rect (s : Square) : Z * Z * Z * Z :=
  (s.2 * SQUARE, s.1 * SQUARE, SQUARE, SQUARE).

Definition shade (s : Square) : Z * Z * Z :=
  if bool_decide ((s.1 + s.2) `mod` 2 = 0) then LIGHT else DARK.

Definition square_center (s : Square) : Z * Z :=
  (s.2 * SQUARE + SQUARE `div` 2, s.1 * SQUARE + SQUARE `div` 2).


(** At most one king of [color] stands on the board. *)
Definition one_king (board : Board) (color : Color) : Prop :=
  forall s t, king_at board color s -> king_at board color t -> s = t.

(** The indices Python accepts for a list of 8 items, and the item a
    negative one stands for. *)
Definition py_range (i : Z) : Prop := -8 <= i < 8.

Definition wrap (i : Z) : Z := if i <? 0 then i + 8 else i.

(** A grid with at least the 8 by 8 squares [deep_copy_board] reads, and
    those squares of it. *)
Definition covers (board : Board) : Prop :=
  (8 <= length board)%nat /\
  forall i row, (i < 8)%nat -> board !! i = Some row -> (8 <= length row)%nat.

Definition crop (board : Board) : Board := take 8 <$> take 8 board.

(** *** The rules of movement, as the generators apply them *)

(** The squares at 1 to [k - 1] steps from [(r, c)] in the direction
    [(dr, dc)] are on the board and empty. *)
Definition clear_path (board : Board) (r c dr dc k : Z) : Prop :=
  forall j, 1 <= j < k ->
    in_bounds (r + j * dr) (c + j * dc) = true /\
    cell board (r + j * dr) (c + j * dc) = None.

(** [(rr, cc)] is at [k >= 1] steps from [(r, c)] in one of the directions,
    with nothing in between. *)
Definition slides (board : Board) (dirs : list (Z * Z)) (r c rr cc : Z) : Prop :=
  exists d k, d ∈ dirs /\ 1 <= k /\ rr = r + k * d.1 /\ cc = c + k * d.2 /\
              clear_path board r c d.1 d.2 k.

(** The squares a piece of kind [t] and of [color] on [(r, c)] bears on:
    for a pawn the two squares it takes on. *)
Definition reaches (board : Board) (color : Color) (t : PieceKind) (r c rr cc : Z) : Prop :=
  match t with
  | Pawn => rr = r + dir_forward color /\ (cc = c - 1 \/ cc = c + 1)
  | Knight => (rr - r, cc - c) ∈ knight_jumps
  | King => -1 <= rr - r <= 1 /\ -1 <= cc - c <= 1 /\ (rr, cc) <> (r, c)
  | Rook => slides board rook_dirs r c rr cc
  | Bishop => slides board bishop_dirs r c rr cc
  | Queen => slides board (rook_dirs ++ bishop_dirs) r c rr cc
  end.

(** A piece of [color] bears on the square [s] of the board. *)
Definition attacks (board : Board) (color : Color) (s : Square) : Prop :=
  in_bounds s.1 s.2 = true /\
  exists r c p, in_bounds r c = true /\ cell board r c = Some p /\ pcolor p = color /\
                reaches board color (ptype p) r c s.1 s.2.

(** [start_row = 6 if color == "w" else 1] *)
Definition start_row (color : Color) : Z :=
  if bool_decide (color = White) then 6 else 1.

(** A pawn steps straight ahead onto an empty square, or two squares from
    its start row over an empty square onto an empty square. *)
Definition pawn_advance (board : Board) (color : Color) (r c rr cc : Z) : Prop :=
  cc = c /\ cell board (r + dir_forward color) c = None /\
  (rr = r + dir_forward color \/
   (r = start_row color /\ rr = r + 2 * dir_forward color /\ cell board rr cc = None)).

(** The move obeys the rule of the piece it moves: an advance or a capture
    for a pawn; for another piece a square it bears on, empty or held by
    the other color. *)
Definition pseudo_legal (board : Board) (color : Color) (m : Move) : Prop :=
  in_bounds m.1.1 m.1.2 = true /\ in_bounds m.2.1 m.2.2 = true /\
  exists p, cell board m.1.1 m.1.2 = Some p /\ pcolor p = color /\
    match ptype p with
    | Pawn =>
        pawn_advance board color m.1.1 m.1.2 m.2.1 m.2.2 \/
        (reaches board color Pawn m.1.1 m.1.2 m.2.1 m.2.2 /\
         exists q, cell board m.2.1 m.2.2 = Some q /\ pcolor q <> color)
    | t =>
        reaches board color t m.1.1 m.1.2 m.2.1 m.2.2 /\
        free_or_enemy color (cell board m.2.1 m.2.2) = true
    end.

(** The squares a ray entered at [(rr, cc)] comes to: those at [k >= 0]
    steps with only empty squares of the board before them. *)
Definition ray_sees (board : Board) (dr dc rr cc : Z) (t : Square) : Prop :=
  exists k, 0 <= k /\ t = (rr + k * dr, cc + k * dc) /\
    in_bounds t.1 t.2 = true /\
    forall j, 0 <= j < k ->
      in_bounds (rr + j * dr) (cc + j * dc) = true /\
      cell board (rr + j * dr) (cc + j * dc) = None.

(** *** The states of the game *)

(** What the loop of [main] keeps true: the board has 8 by 8 squares and at
    most one king of each color; the AI is pending only on Black's turn; a
    selection is made only on White's turn, of a square holding a white
    piece, and the cache then holds the legal moves of White on the board;
    without a selection the cache is empty. *)
Definition game_inv (st : Game.state) : Prop :=
  wf_board (Game.board st) /\
  one_king (Game.board st) White /\ one_king (Game.board st) Black /\
  (Game.ai_pending st = true -> Game.turn st = Black) /\
  match Game.selected st with
  | Some s =>
      Game.turn st = White /\ Game.ai_pending st = false /\
      in_bounds s.1 s.2 = true /\
      (exists p, getp (Game.board st) s.1 s.2 = Ok (Some p) /\ pcolor p = White) /\
      generate_legal_moves (Game.board st) White = Ok (Game.legal_moves_cache st)
  | None => Game.legal_moves_cache st = []
  end.

(** A random source in the range of [randbelow]. *)
Definition in_range (randbelow : nat -> nat) : Prop :=
  forall n, (0 < n)%nat -> (randbelow n < n)%nat.

(** What the status bar says of the game: on White's turn, of a check
    exactly when White is in check; on Black's turn, that Black thinks
    while the AI is pending and that Black has no legal moves afterwards,
    and Black has none then. *)
Definition info_inv (st : Game.state) : Prop :=
  match Game.turn st with
  | White =>
      Game.info st = "Check on White! Your move."%string <->
      is_in_check (Game.board st) White = Ok true
  | Black =>
      if Game.ai_pending st then Game.info st = "Black thinking..."%string
      else Game.info st = "Black has no legal moves."%string /\
           generate_legal_moves (Game.board st) Black = Ok []
  end.

(** The states the loop goes through: the one it is entered with, and the
    one after a turn of the loop taken while [running] holds. *)
Inductive game_reachable : Game.state -> Prop :=
| reachable_start st : Game.start = Ok st -> game_reachable st
| reachable_frame randbelow events now st st' :
    game_reachable st -> Game.running st = true -> in_range randbelow ->
    Game.frame randbelow events now st = Ok st' -> game_reachable st'.

(** The two states differ in [running] at most. *)
Definition same_game (st st' : Game.state) : Prop :=
  Game.board st' = Game.board st /\ Game.turn st' = Game.turn st /\
  Game.selected st' = Game.selected st /\
  Game.legal_moves_cache st' = Game.legal_moves_cache st /\
  Game.info st' = Game.info st /\ Game.ai_pending st' = Game.ai_pending st /\
  Game.ai_timer_start st' = Game.ai_timer_start st.

(** The state with [running] cleared. *)
Definition stopped (st : Game.state) : Game.state :=
  {| Game.board := Game.board st; Game.turn := Game.turn st;
     Game.selected := Game.selected st;
     Game.legal_moves_cache := Game.legal_moves_cache st; Game.info := Game.info st;
     Game.ai_pending := Game.ai_pending st;
     Game.ai_timer_start := Game.ai_timer_start st; Game.running := false |}.

(** The result with [running] cleared. *)
Definition then_stopped (m : res Game.state) : res Game.state :=
  st ← m; Ok (stopped st).

(** *** Games *)

(** A random source that takes the first item. *)
Definition first_item (n : nat) : nat := 0%nat.

(** A click on the pawn of the king. *)
Definition kings_pawn_click : list (Game.event * Z) :=
  [(Game.MOUSEBUTTONDOWN 1 (340, 500), 100)].

(** Two clicks, on the pawn of the king and on the square two ranks ahead
    of it. *)
Definition kings_pawn_clicks : list (Game.event * Z) :=
  [(Game.MOUSEBUTTONDOWN 1 (340, 500), 100); (Game.MOUSEBUTTONDOWN 1 (340, 340), 200)].

(** A game on the board of the lone rook, Black to move with no AI
    pending. *)
Definition stopped_game : Game.state :=
  {| Game.board := lone_rook; Game.turn := Black; Game.selected := None;
     Game.legal_moves_cache := []; Game.info := "Black has no legal moves.";
     Game.ai_pending := false; Game.ai_timer_start := 0; Game.running := true |}.

(** ** The calculus of [returns] *)

Lemma returns_Ok {A} (m : res A) (P : A -> Prop) :
  returns m P <-> exists a, m = Ok a /\ P a.
Proof.
  destruct m as [a|e]; simpl; split.
  - eauto.
  - intros (a' & [= ->] & H). exact H.
  - intros [].
  - intros (a' & [=] & _).
Qed.

Lemma bind_Ok {A B} (a : A) (f : A -> res B) : (Ok a ≫= f) = f a.
Proof. reflexivity. Qed.

Lemma returns_mono {A} (m : res A) (P Q : A -> Prop) :
  returns m P -> (forall a, P a -> Q a) -> returns m Q.
Proof. destruct m; simpl; auto. Qed.

Lemma returns_bind {A B} (m : res A) (f : A -> res B) (Q : A -> Prop) (P : B -> Prop) :
  returns m Q -> (forall a, Q a -> returns (f a) P) -> returns (m ≫= f) P.
Proof. destruct m; simpl; [auto | intros []]. Qed.

Lemma for_each_inv {A St} (I : St -> Prop) (xs : list A) body s :
  I s ->
  (forall x s, x ∈ xs -> I s -> returns (body x s) I) ->
  returns (for_each xs body s) I.
Proof.
  revert s. induction xs as [|x xs IH]; intros s Hs Hbody; simpl; [exact Hs|].
  apply returns_bind with (Q := I).
  - apply Hbody; [left | exact Hs].
  - intros s' Hs'. apply IH; [exact Hs'|].
    intros y t Hy. apply Hbody. by right.
Qed.

(** The invariant may follow the loop counter. *)
Lemma for_each_seqZ {St} (I : Z -> St -> Prop) body (m : Z) (n : nat) s :
  I m s ->
  (forall i s, m <= i < m + Z.of_nat n -> I i s -> returns (body i s) (I (i + 1))) ->
  returns (for_each (seqZ m (Z.of_nat n)) body s) (I (m + Z.of_nat n)).
Proof.
  revert m s. induction n as [|n IH]; intros m s Hs Hbody.
  - simpl. by rewrite Z.add_0_r.
  - rewrite seqZ_cons by lia. simpl.
    apply returns_bind with (Q := I (m + 1)).
    + apply Hbody; [lia | exact Hs].
    + intros s' Hs'.
      replace (Z.pred (Z.of_nat (S n))) with (Z.of_nat n) by lia.
      replace (Z.succ m) with (m + 1) by lia.
      replace (m + Z.of_nat (S n)) with (m + 1 + Z.of_nat n) by lia.
      apply IH; [exact Hs'|]. intros i t Hi. apply Hbody. lia.
Qed.

Lemma for_each_range {St} (I : Z -> St -> Prop) body s :
  I 0 s ->
  (forall i s, 0 <= i < 8 -> I i s -> returns (body i s) (I (i + 1))) ->
  returns (for_each (range 8) body s) (I 8).
Proof.
  intros H0 Hbody. apply (for_each_seqZ I body 0 8 s H0).
  intros i t Hi. apply Hbody. lia.
Qed.

(** The same invariant at every turn of a loop over the rows or columns. *)
Lemma for_each_range_inv {St} (I : St -> Prop) body s :
  I s ->
  (forall i s, 0 <= i < 8 -> I s -> returns (body i s) I) ->
  returns (for_each (range 8) body s) I.
Proof.
  intros Hs Hbody. apply for_each_inv; [exact Hs|].
  intros i t Hi. apply Hbody. apply elem_of_seqZ in Hi. lia.
Qed.

(** ** Boards of the program's shape *)

Lemma in_bounds_iff r c : in_bounds r c = true <-> 0 <= r < 8 /\ 0 <= c < 8.
Proof. unfold in_bounds, ROWS, COLS. rewrite !andb_true_iff. lia. Qed.

Lemma py_index_in (n : nat) i : 0 <= i < Z.of_nat n -> py_index n i = Ok (Z.to_nat i).
Proof.
  intros Hi. unfold py_index.
  destruct (Z.leb_spec 0 i), (Z.ltb_spec i (Z.of_nat n)); simpl; (reflexivity || lia).
Qed.

Lemma py_get_in {A} (l : list A) i :
  0 <= i < Z.of_nat (length l) ->
  exists x, l !! Z.to_nat i = Some x /\ py_get l i = Ok x.
Proof.
  intros Hi. unfold py_get. rewrite py_index_in by exact Hi. simpl.
  destruct (lookup_lt_is_Some_2 l (Z.to_nat i)) as [x Hx]; [lia|].
  exists x. by rewrite Hx.
Qed.

Lemma py_set_in {A} (l : list A) i x :
  0 <= i < Z.of_nat (length l) -> py_set l i x = Ok (<[Z.to_nat i := x]> l).
Proof. intros Hi. unfold py_set. by rewrite py_index_in. Qed.

Lemma wf_board_row board r row :
  wf_board board -> board !! r = Some row -> length row = 8%nat.
Proof. intros [_ Hrows] Hr. exact (proj1 (Forall_lookup _ _) Hrows r row Hr). Qed.

Lemma getp_cell board r c :
  wf_board board -> in_bounds r c = true -> getp board r c = Ok (cell board r c).
Proof.
  intros Hwf Hb. apply in_bounds_iff in Hb. destruct Hb as [Hr Hc].
  unfold getp, cell.
  destruct (py_get_in board r) as (row & Hrow & ->); [rewrite (proj1 Hwf); lia|].
  simpl. rewrite Hrow. simpl.
  destruct (py_get_in row c) as (x & Hx & ->);
    [rewrite (wf_board_row _ _ _ Hwf Hrow); lia|].
  by rewrite Hx.
Qed.

Lemma setp_upd board r c v :
  wf_board board -> in_bounds r c = true -> setp board r c v = Ok (upd board r c v).
Proof.
  intros Hwf Hb. apply in_bounds_iff in Hb. destruct Hb as [Hr Hc].
  unfold setp, upd.
  destruct (py_get_in board r) as (row & Hrow & ->); [rewrite (proj1 Hwf); lia|].
  simpl. rewrite py_set_in by (rewrite (wf_board_row _ _ _ Hwf Hrow); lia). simpl.
  rewrite py_set_in by (rewrite (proj1 Hwf); lia). f_equal.
  apply list_eq. intros k. destruct (decide (k = Z.to_nat r)) as [->|Hne].
  - rewrite list_lookup_insert_eq by (apply lookup_lt_Some in Hrow; exact Hrow).
    rewrite list_lookup_alter_eq, Hrow. reflexivity.
  - rewrite list_lookup_insert_ne by congruence.
    rewrite list_lookup_alter_ne by congruence. reflexivity.
Qed.

Lemma wf_upd board r c v : wf_board board -> wf_board (upd board r c v).
Proof.
  intros [Hlen Hrows]. unfold upd. split.
  - by rewrite length_alter.
  - apply Forall_alter; [exact Hrows|]. intros row Hrow. by rewrite length_insert.
Qed.

Lemma cell_upd board r c v r' c' :
  wf_board board -> in_bounds r c = true -> in_bounds r' c' = true ->
  cell (upd board r c v) r' c' = if decide ((r, c) = (r', c')) then v else cell board r' c'.
Proof.
  intros Hwf Hb Hb'. apply in_bounds_iff in Hb, Hb'.
  unfold cell, upd.
  destruct (lookup_lt_is_Some_2 board (Z.to_nat r)) as [row Hrow]; [rewrite (proj1 Hwf); lia|].
  pose proof (wf_board_row _ _ _ Hwf Hrow) as Hlen.
  destruct (decide (r = r')) as [<-|Hr].
  - rewrite list_lookup_alter_eq, Hrow. simpl.
    destruct (decide (c = c')) as [<-|Hc].
    + rewrite decide_True by reflexivity.
      rewrite list_lookup_insert_eq by lia. reflexivity.
    + rewrite decide_False by congruence.
      rewrite list_lookup_insert_ne by lia. reflexivity.
  - rewrite decide_False by congruence.
    rewrite list_lookup_alter_ne by lia. reflexivity.
Qed.

Lemma board_ext b1 b2 :
  wf_board b1 -> wf_board b2 ->
  (forall r c, in_bounds r c = true -> cell b1 r c = cell b2 r c) -> b1 = b2.
Proof.
  intros Hwf1 Hwf2 Heq. apply list_eq. intros i.
  destruct (decide (i < 8)%nat) as [Hi|Hi].
  2: { rewrite !lookup_ge_None_2; [done | rewrite (proj1 Hwf2); lia | rewrite (proj1 Hwf1); lia]. }
  destruct (lookup_lt_is_Some_2 b1 i) as [row1 Hrow1]; [rewrite (proj1 Hwf1); lia|].
  destruct (lookup_lt_is_Some_2 b2 i) as [row2 Hrow2]; [rewrite (proj1 Hwf2); lia|].
  rewrite Hrow1, Hrow2. f_equal. apply list_eq. intros j.
  pose proof (wf_board_row _ _ _ Hwf1 Hrow1) as Hl1.
  pose proof (wf_board_row _ _ _ Hwf2 Hrow2) as Hl2.
  destruct (decide (j < 8)%nat) as [Hj|Hj].
  2: { rewrite !lookup_ge_None_2; [done | lia | lia]. }
  specialize (Heq (Z.of_nat i) (Z.of_nat j)).
  unfold cell in Heq. rewrite !Nat2Z.id, Hrow1, Hrow2 in Heq. simpl in Heq.
  destruct (lookup_lt_is_Some_2 row1 j) as [x1 Hx1]; [lia|].
  destruct (lookup_lt_is_Some_2 row2 j) as [x2 Hx2]; [lia|].
  rewrite Hx1, Hx2 in *. simpl in Heq. f_equal. apply Heq.
  apply in_bounds_iff. lia.
Qed.

Lemma wf_empty_board : wf_board empty_board.
Proof. split; [reflexivity|]. repeat constructor. Qed.

Lemma copy_piece_id p : copy_piece p = p.
Proof. by destruct p. Qed.

Lemma wf_board_of pieces :
  Forall (fun sp => sq_in_bounds sp.1) pieces -> wf_board (board_of pieces).
Proof.
  induction 1 as [|[[r c] p] pieces Hb _ IH]; simpl; [apply wf_empty_board|].
  by apply wf_upd.
Qed.

Lemma wf_start_position : wf_board start_position.
Proof. split; [reflexivity | repeat constructor]. Qed.

(** ** The copy of a board *)

Lemma deep_copy_board_id board : wf_board board -> deep_copy_board board = Ok board.
Proof.
  intros Hwf.
  assert (returns (deep_copy_board board) (fun nb =>
            wf_board nb /\
            forall r c, in_bounds r c = true -> cell nb r c = cell board r c)) as H.
  { unfold deep_copy_board.
    apply (returns_mono _ (fun nb => wf_board nb /\
             forall r c, in_bounds r c = true -> r < 8 -> cell nb r c = cell board r c)).
    2: { intros nb [Hnb Hcells]. split; [exact Hnb|]. intros r c Hb.
         apply Hcells; [exact Hb|]. apply in_bounds_iff in Hb. lia. }
    apply (for_each_range (fun i nb => wf_board nb /\
             forall r c, in_bounds r c = true -> r < i -> cell nb r c = cell board r c)).
    { split; [apply wf_empty_board|]. intros r c Hb Hr. apply in_bounds_iff in Hb. lia. }
    intros r nb Hr [Hnb Hdone].
    apply (returns_mono _ (fun nb' => wf_board nb' /\
             forall r' c', in_bounds r' c' = true -> r' < r \/ (r' = r /\ c' < 8) ->
                           cell nb' r' c' = cell board r' c')).
    2: { intros nb' [Hnb' Hcells]. split; [exact Hnb'|]. intros r' c' Hb Hlt.
         apply Hcells; [exact Hb|]. apply in_bounds_iff in Hb. lia. }
    apply (for_each_range (fun j nb' => wf_board nb' /\
             forall r' c', in_bounds r' c' = true -> r' < r \/ (r' = r /\ c' < j) ->
                           cell nb' r' c' = cell board r' c')).
    { split; [exact Hnb|]. intros r' c' Hb [Hlt|[_ Hlt]]; [by apply Hdone|].
      apply in_bounds_iff in Hb. lia. }
    intros c nb' Hc [Hnb' Hdone'].
    assert (in_bounds r c = true) as Hrc by (apply in_bounds_iff; lia).
    rewrite (getp_cell _ _ _ Hwf Hrc). simpl.
    assert (forall v, v = cell board r c ->
              returns (setp nb' r c v) (fun nb'' => wf_board nb'' /\
                forall r' c', in_bounds r' c' = true -> r' < r \/ (r' = r /\ c' < c + 1) ->
                              cell nb'' r' c' = cell board r' c')) as Hset.
    { intros v ->. rewrite (setp_upd _ _ _ _ Hnb' Hrc). simpl.
      split; [by apply wf_upd|]. intros r' c' Hb' Hlt.
      rewrite (cell_upd _ _ _ _ _ _ Hnb' Hrc Hb').
      destruct (decide ((r, c) = (r', c'))) as [[= <- <-]|Hne]; [reflexivity|].
      apply Hdone'; [exact Hb'|].
      destruct Hlt as [Hlt|[-> Hlt]]; [by left | right].
      split; [reflexivity|]. assert (c' <> c) by congruence. lia. }
    destruct (cell board r c) as [p|]; apply Hset; [by rewrite copy_piece_id | reflexivity]. }
  apply returns_Ok in H. destruct H as (nb & -> & Hnb & Hcells).
  f_equal. by apply board_ext.
Qed.

(** ** The move executor *)

Lemma make_move_upd board r1 c1 r2 c2 :
  wf_board board -> in_bounds r1 c1 = true -> in_bounds r2 c2 = true ->
  make_move board ((r1, c1), (r2, c2)) =
  Ok (upd (upd board r1 c1 None) r2 c2 (arrival (cell board r1 c1) r2)).
Proof.
  intros Hwf H1 H2. unfold make_move.
  rewrite (deep_copy_board_id _ Hwf). simpl.
  rewrite (getp_cell _ _ _ Hwf H1). simpl.
  rewrite (setp_upd _ _ _ _ Hwf H1). simpl.
  pose proof (wf_upd board r1 c1 None Hwf) as Hwf1.
  unfold arrival. destruct (cell board r1 c1) as [p|].
  - destruct (bool_decide (ptype p = Pawn)); simpl.
    + replace (if bool_decide (pcolor p = White) then 0 else 7) with (back_rank (pcolor p))
        by (by destruct (pcolor p)).
      destruct (bool_decide (r2 = back_rank (pcolor p))); by apply setp_upd.
    + by apply setp_upd.
  - by apply setp_upd.
Qed.

Lemma make_move_wf board r1 c1 r2 c2 :
  wf_board board -> in_bounds r1 c1 = true -> in_bounds r2 c2 = true ->
  returns (make_move board ((r1, c1), (r2, c2))) wf_board.
Proof.
  intros Hwf H1 H2. rewrite make_move_upd by assumption. simpl.
  by do 2 apply wf_upd.
Qed.

(** ** The rays end on their own *)

Lemma steps_left_in_bounds dr dc rr cc :
  in_bounds rr cc = true -> 1 <= steps_left dr dc rr cc.
Proof.
  intros Hb. apply in_bounds_iff in Hb. unfold steps_left.
  repeat case_match; lia.
Qed.

Lemma steps_left_next dr dc rr cc :
  unit_dir (dr, dc) ->
  steps_left dr dc (rr + dr) (cc + dc) = steps_left dr dc rr cc - 1.
Proof.
  unfold unit_dir, steps_left. simpl. intros (Hr & Hc & Hne).
  destruct (Z.eqb_spec dr 1); [lia|].
  destruct (Z.eqb_spec dr (-1)); [lia|].
  destruct (Z.eqb_spec dc 1); lia.
Qed.

Lemma steps_left_start dr dc r c :
  unit_dir (dr, dc) -> in_bounds r c = true ->
  steps_left dr dc (r + dr) (c + dc) < Z.of_nat ray_fuel.
Proof.
  intros Hd Hb. rewrite steps_left_next by exact Hd.
  apply in_bounds_iff in Hb. unfold steps_left, ray_fuel.
  repeat case_match; lia.
Qed.

Lemma elem_of_directions d t : d ∈ directions t -> unit_dir d.
Proof.
  unfold directions. intros Hd. apply elem_of_app in Hd.
  assert (forall l : list (Z * Z), Forall unit_dir l -> d ∈ l -> unit_dir d) as Hall.
  { intros l Hl Hin. exact (proj1 (Forall_forall _ _) Hl d Hin). }
  destruct Hd as [Hd|Hd]; revert Hd; case_match; try (intros Hd; by apply elem_of_nil in Hd);
    apply Hall; repeat constructor; simpl; lia.
Qed.

Lemma elem_of_rook_bishop_dirs d : d ∈ rook_dirs ++ bishop_dirs -> unit_dir d.
Proof.
  intros Hd. refine (proj1 (Forall_forall _ _) _ d Hd).
  repeat constructor; simpl; lia.
Qed.

Lemma attack_ray_total fuel board dr dc rr cc attacked :
  wf_board board -> unit_dir (dr, dc) ->
  (1 <= fuel)%nat -> steps_left dr dc rr cc < Z.of_nat fuel ->
  returns (attack_ray fuel board dr dc rr cc attacked) (fun _ => True).
Proof.
  intros Hwf Hd. revert rr cc attacked.
  induction fuel as [|fuel IH]; intros rr cc attacked Hpos Hfuel; [lia|].
  simpl. destruct (in_bounds rr cc) eqn:Hb; [|exact I].
  rewrite (getp_cell _ _ _ Hwf Hb). simpl.
  destruct (cell board rr cc); [exact I|].
  pose proof (steps_left_in_bounds dr dc rr cc Hb).
  apply IH; [lia|]. rewrite steps_left_next by exact Hd. lia.
Qed.

Lemma attack_rays_total board dirs r c attacked :
  wf_board board -> in_bounds r c = true -> Forall unit_dir dirs ->
  returns (attack_rays board dirs r c attacked) (fun _ => True).
Proof.
  intros Hwf Hb Hdirs. unfold attack_rays.
  apply for_each_inv; [exact I|]. intros [dr dc] att Hin _.
  pose proof (proj1 (Forall_forall _ _) Hdirs _ Hin) as Hd.
  apply attack_ray_total; [exact Hwf | exact Hd | unfold ray_fuel; lia |].
  by apply steps_left_start.
Qed.

Lemma squares_attacked_by_total board color :
  wf_board board -> returns (squares_attacked_by board color) (fun _ => True).
Proof.
  intros Hwf. unfold squares_attacked_by.
  apply returns_bind with (Q := fun _ => True); [|intros; exact I].
  apply (for_each_range_inv (fun _ => True)); [exact I|]. intros r att Hr _.
  apply (for_each_range_inv (fun _ => True)); [exact I|]. intros c att' Hc _.
  assert (in_bounds r c = true) as Hb by (apply in_bounds_iff; lia).
  rewrite (getp_cell _ _ _ Hwf Hb), bind_Ok.
  destruct (cell board r c) as [p|]; [|exact I].
  destruct (bool_decide (pcolor p ≠ color)); [exact I|].
  destruct (ptype p).
  - apply for_each_inv; [exact I|]. intros dr a _ _.
    apply for_each_inv; [exact I|]. intros dc a' _ _.
    by destruct (bool_decide (dr = 0) && bool_decide (dc = 0)).
  - apply attack_rays_total; [exact Hwf | exact Hb |].
    apply Forall_forall. intros d. apply elem_of_rook_bishop_dirs.
  - apply attack_rays_total; [exact Hwf | exact Hb |].
    apply Forall_forall. intros d Hd. apply elem_of_rook_bishop_dirs.
    apply elem_of_app. by left.
  - apply attack_rays_total; [exact Hwf | exact Hb |].
    apply Forall_forall. intros d Hd. apply elem_of_rook_bishop_dirs.
    apply elem_of_app. by right.
  - apply for_each_inv; [exact I|]. by intros [dr dc] a _ _.
  - apply for_each_inv; [exact I|]. by intros dc a _ _.
Qed.

(** ** The pseudo-legal move generator *)

Section Generator.
Variables (board : Board) (color : Color).
Hypothesis Hwf : wf_board board.

(** The generator is at square [(r, c)], which holds [p] of [color]. *)
Variables (r c : Z) (p : Piece).
Hypothesis Hrc : in_bounds r c = true.
Hypothesis Hp : cell board r c = Some p.
Hypothesis Hcolor : pcolor p = color.

Lemma wf_move_intro rr cc :
  in_bounds rr cc = true ->
  (forall q, cell board rr cc = Some q -> pcolor q <> color) ->
  wf_move board color ((r, c), (rr, cc)).
Proof using Hwf Hrc Hp Hcolor.
  intros Hb Hq. unfold wf_move, sq_in_bounds. simpl.
  split; [exact Hrc|]. split; [exact Hb|]. split.
  - exists p. by rewrite (getp_cell _ _ _ Hwf Hrc), Hp.
  - intros q. rewrite (getp_cell _ _ _ Hwf Hb). intros [= Hc]. by apply Hq.
Qed.

Lemma add_move_wf rr cc moves :
  Forall (wf_move board color) moves ->
  in_bounds rr cc = true ->
  (forall q, cell board rr cc = Some q -> pcolor q <> color) ->
  Forall (wf_move board color) (add_move r c rr cc moves).
Proof using Hwf Hrc Hp Hcolor.
  intros Hmoves Hb Hq. unfold add_move. apply Forall_app. split; [exact Hmoves|].
  constructor; [by apply wf_move_intro | constructor].
Qed.

Lemma move_ray_wf fuel dr dc rr cc moves :
  unit_dir (dr, dc) ->
  (1 <= fuel)%nat -> steps_left dr dc rr cc < Z.of_nat fuel ->
  Forall (wf_move board color) moves ->
  returns (move_ray fuel board color r c dr dc rr cc moves)
          (Forall (wf_move board color)).
Proof using Hwf Hrc Hp Hcolor.
  intros Hd. revert rr cc moves.
  induction fuel as [|fuel IH]; intros rr cc moves Hpos Hfuel Hmoves; [lia|].
  simpl. destruct (in_bounds rr cc) eqn:Hb; [|exact Hmoves].
  rewrite (getp_cell _ _ _ Hwf Hb), bind_Ok.
  pose proof (steps_left_in_bounds dr dc rr cc Hb).
  destruct (cell board rr cc) as [q|] eqn:Hq.
  - case_bool_decide as Hne; [|exact Hmoves].
    apply add_move_wf; [exact Hmoves | exact Hb |].
    intros q'. rewrite Hq. by intros [= <-].
  - apply IH; [lia | rewrite steps_left_next by exact Hd; lia |].
    apply add_move_wf; [exact Hmoves | exact Hb |].
    intros q'. by rewrite Hq.
Qed.

Lemma step_move_wf rr cc moves :
  Forall (wf_move board color) moves ->
  returns (step_move board color r c rr cc moves) (Forall (wf_move board color)).
Proof using Hwf Hrc Hp Hcolor.
  intros Hmoves. unfold step_move.
  destruct (in_bounds rr cc) eqn:Hb; [|exact Hmoves]. simpl negb. cbv iota.
  rewrite (getp_cell _ _ _ Hwf Hb), bind_Ok.
  destruct (free_or_enemy color (cell board rr cc)) eqn:Hfree; [|exact Hmoves].
  apply add_move_wf; [exact Hmoves | exact Hb |].
  intros q Hq. rewrite Hq in Hfree. simpl in Hfree.
  by apply bool_decide_eq_true in Hfree.
Qed.

Lemma pawn_moves_wf moves :
  Forall (wf_move board color) moves ->
  returns (pawn_moves board color r c moves) (Forall (wf_move board color)).
Proof using Hwf Hrc Hp Hcolor.
  intros Hmoves. unfold pawn_moves.
  apply returns_bind with (Q := Forall (wf_move board color)).
  - destruct (in_bounds (r + dir_forward color) c) eqn:Hb1; [|exact Hmoves].
    rewrite (getp_cell _ _ _ Hwf Hb1), bind_Ok.
    destruct (cell board (r + dir_forward color) c) as [q|] eqn:Hq1; [exact Hmoves|].
    assert (Forall (wf_move board color)
              (add_move r c (r + dir_forward color) c moves)) as Hmoves1.
    { apply add_move_wf; [exact Hmoves | exact Hb1 |]. intros q. by rewrite Hq1. }
    destruct (bool_decide _ && in_bounds (r + 2 * dir_forward color) c) eqn:Hb2;
      [|exact Hmoves1].
    apply andb_true_iff in Hb2. destruct Hb2 as [_ Hb2].
    rewrite (getp_cell _ _ _ Hwf Hb2), bind_Ok.
    destruct (cell board (r + 2 * dir_forward color) c) as [q|] eqn:Hq2; [exact Hmoves1|].
    apply add_move_wf; [exact Hmoves1 | exact Hb2 |]. intros q. by rewrite Hq2.
  - clear moves Hmoves. intros moves Hmoves.
    apply for_each_inv; [exact Hmoves|]. clear moves Hmoves.
    intros dc moves _ Hmoves. cbv zeta.
    destruct (in_bounds (r + dir_forward color) (c + dc)) eqn:Hb; [|exact Hmoves].
    rewrite (getp_cell _ _ _ Hwf Hb), bind_Ok.
    destruct (cell board (r + dir_forward color) (c + dc)) as [q|] eqn:Hq; [|exact Hmoves].
    case_bool_decide as Hne; [|exact Hmoves].
    apply add_move_wf; [exact Hmoves | exact Hb |].
    intros q'. rewrite Hq. by intros [= <-].
Qed.

Lemma piece_moves_wf moves :
  Forall (wf_move board color) moves ->
  returns (piece_moves board color r c (ptype p) moves) (Forall (wf_move board color)).
Proof using Hwf Hrc Hp Hcolor.
  intros Hmoves.
  assert (forall t, returns
            (for_each (directions t) (fun '(dr, dc) moves =>
               move_ray ray_fuel board color r c dr dc (r + dr) (c + dc) moves) moves)
            (Forall (wf_move board color))) as Hslide.
  { intros t. apply for_each_inv; [exact Hmoves|].
    intros [dr dc] ms Hd Hms. apply elem_of_directions in Hd.
    apply move_ray_wf; [exact Hd | unfold ray_fuel; lia | | exact Hms].
    by apply steps_left_start. }
  unfold piece_moves. destruct (ptype p); try apply Hslide.
  - apply for_each_inv; [exact Hmoves|]. intros dr ms _ Hms.
    apply for_each_inv; [exact Hms|]. intros dc ms' _ Hms'.
    destruct (bool_decide (dr = 0) && bool_decide (dc = 0)); [exact Hms'|].
    by apply step_move_wf.
  - apply for_each_inv; [exact Hmoves|]. intros [dr dc] ms _ Hms.
    by apply step_move_wf.
  - by apply pawn_moves_wf.
Qed.
End Generator.

Lemma generate_pseudo_legal_moves_wf board color :
  wf_board board ->
  returns (generate_pseudo_legal_moves board color) (Forall (wf_move board color)).
Proof.
  intros Hwf. unfold generate_pseudo_legal_moves.
  apply (for_each_range_inv (Forall (wf_move board color))); [constructor|].
  intros r moves Hr Hmoves.
  apply (for_each_range_inv (Forall (wf_move board color))); [exact Hmoves|].
  clear moves Hmoves. intros c moves Hc Hmoves.
  assert (in_bounds r c = true) as Hb by (apply in_bounds_iff; lia).
  rewrite (getp_cell _ _ _ Hwf Hb), bind_Ok.
  destruct (cell board r c) as [p|] eqn:Hp; [|exact Hmoves].
  case_bool_decide as Hcol; [exact Hmoves|].
  apply (piece_moves_wf board color Hwf r c p Hb Hp); [|exact Hmoves].
  by destruct (decide (pcolor p = color)).
Qed.

(** A well-formed move joins two different squares. *)
Lemma wf_move_distinct board color m : wf_move board color m -> m.1 <> m.2.
Proof.
  intros (_ & _ & (p & Hp & Hcolor) & Hto) Heq. rewrite <- Heq in Hto.
  exact (Hto p Hp Hcolor).
Qed.

(** ** The scan for the king *)

Lemma for_first_seqZ {B} (body : Z -> res (option B))
    (Pnone : Z -> Prop) (Psome : Z -> B -> Prop) (m : Z) (n : nat) :
  (forall i, m <= i < m + Z.of_nat n ->
     returns (body i) (fun o => match o with
                                | Some x => Psome i x
                                | None => Pnone i
                                end)) ->
  returns (for_first (seqZ m (Z.of_nat n)) body) (fun o =>
    match o with
    | Some x => exists i, m <= i < m + Z.of_nat n /\ Psome i x /\
                          forall j, m <= j < i -> Pnone j
    | None => forall j, m <= j < m + Z.of_nat n -> Pnone j
    end).
Proof.
  revert m. induction n as [|n IH]; intros m Hbody.
  - simpl. intros j Hj. lia.
  - rewrite seqZ_cons by lia. simpl.
    pose proof (Hbody m ltac:(lia)) as Hm.
    destruct (body m) as [[x|]|e]; simpl in *; [| |exact Hm].
    + exists m. split; [lia|]. split; [exact Hm|]. intros j Hj. lia.
    + replace (Z.pred (Z.of_nat (S n))) with (Z.of_nat n) by lia.
      specialize (IH (Z.succ m)).
      eapply returns_mono; [apply IH|].
      * intros i Hi. apply Hbody. lia.
      * intros [x|]; simpl.
        -- intros (i & Hi & Hx & Hbefore). exists i. split; [lia|]. split; [exact Hx|].
           intros j Hj. destruct (decide (j = m)) as [->|]; [exact Hm|]. apply Hbefore. lia.
        -- intros Hnone j Hj.
           destruct (decide (j = m)) as [->|]; [exact Hm|]. apply Hnone. lia.
Qed.

Lemma king_at_cell board color r c :
  wf_board board -> in_bounds r c = true ->
  king_at board color (r, c) <-> is_king_of color (cell board r c) = true.
Proof.
  intros Hwf Hb. unfold king_at, sq_in_bounds, is_king_of. simpl.
  rewrite (getp_cell _ _ _ Hwf Hb). split.
  - intros (_ & p & [= ->] & Ht & Hc).
    by rewrite !bool_decide_eq_true_2.
  - destruct (cell board r c) as [p|]; [|done]. intros Hk.
    apply andb_true_iff in Hk. destruct Hk as [Ht Hc].
    apply bool_decide_eq_true in Ht, Hc. split; [exact Hb|]. by exists p.
Qed.

Lemma find_king_spec board color :
  wf_board board ->
  returns (find_king board color) (fun o =>
    match o with
    | Some s => first_king_at board color s
    | None => forall s, ~ king_at board color s
    end).
Proof.
  intros Hwf. unfold find_king.
  eapply returns_mono.
  - apply (for_first_seqZ _
             (fun r => forall c, 0 <= c < 8 -> is_king_of color (cell board r c) = false)
             (fun r s => exists c, s = (r, c) /\ 0 <= c < 8 /\
                                   is_king_of color (cell board r c) = true /\
                                   forall c', 0 <= c' < c ->
                                              is_king_of color (cell board r c') = false)
             0 8).
    intros r Hr. eapply returns_mono.
    + apply (for_first_seqZ _
               (fun c => is_king_of color (cell board r c) = false)
               (fun c s => s = (r, c) /\ is_king_of color (cell board r c) = true)
               0 8).
      intros c Hc.
      assert (in_bounds r c = true) as Hb by (apply in_bounds_iff; lia).
      rewrite (getp_cell _ _ _ Hwf Hb), bind_Ok.
      by destruct (is_king_of color (cell board r c)).
    + intros [s|]; simpl.
      * intros (c & Hc & [-> Hk] & Hbefore). exists c. repeat split; try lia; assumption.
      * intros Hnone c Hc. apply Hnone. lia.
  - intros [s|]; simpl.
    + intros (r & Hr & (c & -> & Hc & Hk & Hcols) & Hrows).
      assert (in_bounds r c = true) as Hb by (apply in_bounds_iff; lia).
      split; [by apply king_at_cell|].
      intros [r' c'] Hk' Hlt.
      pose proof Hk' as [Hb' _]. unfold sq_in_bounds in Hb'. simpl in Hb'.
      apply king_at_cell in Hk'; [|exact Hwf|exact Hb'].
      apply in_bounds_iff in Hb'. unfold scanned_before in Hlt. simpl in Hlt.
      destruct Hlt as [Hlt|[-> Hlt]].
      * rewrite Hrows in Hk' by lia. discriminate.
      * rewrite Hcols in Hk' by lia. discriminate.
    + intros Hnone [r c] Hk.
      pose proof Hk as [Hb _]. unfold sq_in_bounds in Hb. simpl in Hb.
      apply king_at_cell in Hk; [|exact Hwf|exact Hb].
      apply in_bounds_iff in Hb. rewrite Hnone in Hk by lia. discriminate.
Qed.

Lemma first_king_at_unique board color s t :
  first_king_at board color s -> first_king_at board color t -> s = t.
Proof.
  intros [Hs Hs'] [Ht Ht'].
  pose proof (Hs' t Ht) as H1. pose proof (Ht' s Hs) as H2.
  unfold scanned_before in *. destruct s as [r c], t as [r' c']. simpl in *.
  f_equal; lia.
Qed.

Lemma is_in_check_total board color :
  wf_board board -> returns (is_in_check board color) (fun _ => True).
Proof.
  intros Hwf. unfold is_in_check.
  eapply returns_bind; [apply (find_king_spec _ color Hwf)|].
  intros [s|] _; [|exact I].
  eapply returns_bind; [apply (squares_attacked_by_total _ (enemy color) Hwf)|].
  by intros.
Qed.

(** ** The legal move filter *)

Lemma filter_legal board color (moves legal : list Move) :
  (forall m, m ∈ moves ->
     exists chk, (nb ← make_move board m; is_in_check nb color) = Ok chk) ->
  exists kept,
    for_each moves (fun m legal =>
      nb ← make_move board m;
      chk ← is_in_check nb color;
      if negb chk then Ok (legal ++ [m]) else Ok legal) legal = Ok (legal ++ kept) /\
    forall m, m ∈ kept <-> m ∈ moves /\ keeps_king_safe board color m.
Proof.
  revert legal. induction moves as [|m moves IH]; intros legal Hall.
  - exists []. simpl. split; [by rewrite app_nil_r|].
    intros m. split; [by intros ?%elem_of_nil | by intros [?%elem_of_nil _]].
  - destruct (Hall m ltac:(left)) as [chk Hchk].
    simpl. destruct (make_move board m) as [nb|e] eqn:Hnb; [|discriminate].
    simpl in Hchk |- *. rewrite Hchk. simpl.
    destruct chk; simpl.
    + destruct (IH legal) as (kept & -> & Hkept).
      { intros m' Hm'. apply Hall. by right. }
      exists kept. split; [reflexivity|]. intros m'. rewrite Hkept, elem_of_cons.
      split; [tauto|]. intros [[->|Hin] Hsafe]; [|tauto].
      unfold keeps_king_safe in Hsafe. rewrite Hnb in Hsafe. simpl in Hsafe. congruence.
    + destruct (IH (legal ++ [m])) as (kept & -> & Hkept).
      { intros m' Hm'. apply Hall. by right. }
      exists (m :: kept). split; [by rewrite <- app_assoc|].
      intros m'. rewrite !elem_of_cons, Hkept. split; [|tauto].
      intros [->|[Hin Hsafe]]; [|tauto]. split; [by left|].
      unfold keeps_king_safe. by rewrite Hnb.
Qed.

Lemma check_after_move_total board color m :
  wf_board board -> wf_move board color m ->
  exists chk, (nb ← make_move board m; is_in_check nb color) = Ok chk.
Proof.
  intros Hwf (H1 & H2 & _). destruct m as [[r1 c1] [r2 c2]].
  unfold sq_in_bounds in H1, H2. simpl in H1, H2.
  pose proof (make_move_wf _ _ _ _ _ Hwf H1 H2) as Hnb.
  apply returns_Ok in Hnb. destruct Hnb as (nb & -> & Hnb). rewrite bind_Ok.
  pose proof (is_in_check_total nb color Hnb) as Hchk.
  apply returns_Ok in Hchk. destruct Hchk as (chk & -> & _). by exists chk.
Qed.

Lemma generate_legal_moves_spec board color :
  wf_board board ->
  exists pseudo legal,
    generate_pseudo_legal_moves board color = Ok pseudo /\
    generate_legal_moves board color = Ok legal /\
    (forall m, m ∈ legal <-> m ∈ pseudo /\ keeps_king_safe board color m) /\
    legal ⊆ pseudo /\
    (forall m, m ∈ legal ->
       exists nb, make_move board m = Ok nb /\ is_in_check nb color = Ok false).
Proof.
  intros Hwf.
  pose proof (generate_pseudo_legal_moves_wf board color Hwf) as Hps.
  unfold generate_legal_moves.
  apply returns_Ok in Hps. destruct Hps as (pseudo & -> & Hps). rewrite bind_Ok.
  destruct (filter_legal board color pseudo []) as (legal & Hlegal & Hiff).
  { intros m Hm. apply check_after_move_total; [exact Hwf|].
    exact (proj1 (Forall_forall _ _) Hps m Hm). }
  exists pseudo, legal. split; [reflexivity|]. split; [exact Hlegal|idtac].
  split; [exact Hiff|]. split.
  - intros m Hm. by apply Hiff in Hm as [? _].
  - intros m Hm. apply Hiff in Hm as [_ Hsafe]. unfold keeps_king_safe in Hsafe.
    destruct (make_move board m) as [nb|]; [|discriminate]. by exists nb.
Qed.

(** ** Legal moves *)

(** C1: the legal moves are the pseudo-legal moves after which the mover
    is not in check: [generate_legal_moves] returns exactly those moves of
    [generate_pseudo_legal_moves] that [make_move] turns into a board on
    which [is_in_check] answers false for the mover; so every legal move
    is pseudo-legal and leaves the mover out of check. *)
Theorem legal_moves_filter_pseudo_legal board color :
  wf_board board ->
  exists pseudo legal,
    generate_pseudo_legal_moves board color = Ok pseudo /\
    generate_legal_moves board color = Ok legal /\
    (forall m, m ∈ legal <-> m ∈ pseudo /\ keeps_king_safe board color m) /\
    legal ⊆ pseudo /\
    (forall m, m ∈ legal ->
       exists nb, make_move board m = Ok nb /\ is_in_check nb color = Ok false).
Proof. exact (generate_legal_moves_spec board color). Qed.

(** The filter on the position of the pinned rook. *)
Lemma legal_moves_filter_pseudo_legal_witness :
  wf_board pinned_rook /\
  exists pseudo legal,
    generate_pseudo_legal_moves pinned_rook White = Ok pseudo /\
    generate_legal_moves pinned_rook White = Ok legal /\
    (forall m, m ∈ legal <-> m ∈ pseudo /\ keeps_king_safe pinned_rook White m) /\
    legal ⊆ pseudo /\
    (forall m, m ∈ legal ->
       exists nb, make_move pinned_rook m = Ok nb /\ is_in_check nb White = Ok false).
Proof.
  assert (wf_board pinned_rook) as Hwf by (apply wf_board_of; by repeat constructor).
  split; [exact Hwf | exact (legal_moves_filter_pseudo_legal pinned_rook White Hwf)].
Defined.

(** ** Counting pieces *)

Lemma count_insert (row : list (option Piece)) j v x :
  row !! j = Some x ->
  (count_row (<[j:=v]> row) + occupied x = count_row row + occupied v)%nat.
Proof.
  intros Hj. unfold count_row.
  rewrite insert_take_drop by (by eapply lookup_lt_Some).
  rewrite <- (take_drop_middle row j x Hj) at 3.
  rewrite !filter_app, !filter_cons, !length_app.
  destruct v, x; repeat case_decide; simpl; try lia;
    repeat match goal with
      | H : is_Some None |- _ => by destruct H
      | H : ~ is_Some (Some _) |- _ => by destruct H
      end.
Qed.

Lemma count_alter (board : Board) i f row :
  board !! i = Some row ->
  (count_pieces (alter f i board) + count_row row =
   count_pieces board + count_row (f row))%nat.
Proof.
  unfold count_pieces.
  revert i. induction board as [|row0 board IH]; intros [|i] Hi; try discriminate.
  - injection Hi as ->. simpl. lia.
  - simpl in Hi. specialize (IH i Hi). simpl.
    rewrite <- !Nat.add_assoc. f_equal. exact IH.
Qed.

Lemma count_upd board r c v :
  wf_board board -> in_bounds r c = true ->
  (count_pieces (upd board r c v) + occupied (cell board r c) =
   count_pieces board + occupied v)%nat.
Proof.
  intros Hwf Hb. apply in_bounds_iff in Hb.
  destruct (lookup_lt_is_Some_2 board (Z.to_nat r)) as [row Hrow]; [rewrite (proj1 Hwf); lia|].
  pose proof (wf_board_row _ _ _ Hwf Hrow) as Hlen.
  destruct (lookup_lt_is_Some_2 row (Z.to_nat c)) as [x Hx]; [lia|].
  unfold upd, cell. rewrite Hrow. simpl. rewrite Hx. simpl.
  pose proof (count_alter board (Z.to_nat r) (fun row => <[Z.to_nat c:=v]> row) row Hrow).
  pose proof (count_insert row (Z.to_nat c) v x Hx). lia.
Qed.

(** ** Reading an executed move *)

Lemma getp_upd board r c v r' c' :
  wf_board board -> in_bounds r c = true -> in_bounds r' c' = true ->
  getp (upd board r c v) r' c' =
  Ok (if decide ((r, c) = (r', c')) then v else cell board r' c').
Proof.
  intros Hwf Hb Hb'. rewrite getp_cell by (by try apply wf_upd).
  by rewrite cell_upd.
Qed.

Lemma getp_Ok_cell board r c o :
  wf_board board -> in_bounds r c = true -> getp board r c = Ok o -> cell board r c = o.
Proof. intros Hwf Hb. rewrite (getp_cell _ _ _ Hwf Hb). by intros [= ->]. Qed.

(** C2 (as amended): when the from-square holds a piece and the
    destination is another square, [make_move] returns a board whose
    from-square is empty; a pawn arriving on rank 0 (White) or rank 7
    (Black) leaves a queen of its color on the destination, any other
    arrival leaves the moving piece there. *)
Theorem make_move_moves_piece board r1 c1 r2 c2 p :
  wf_board board -> in_bounds r1 c1 = true -> in_bounds r2 c2 = true ->
  getp board r1 c1 = Ok (Some p) ->
  (r1, c1) <> (r2, c2) ->
  exists nb,
    make_move board ((r1, c1), (r2, c2)) = Ok nb /\
    getp nb r1 c1 = Ok None /\
    (ptype p = Pawn /\ r2 = back_rank (pcolor p) ->
     getp nb r2 c2 = Ok (Some {| ptype := Queen; pcolor := pcolor p |})) /\
    (~ (ptype p = Pawn /\ r2 = back_rank (pcolor p)) ->
     getp nb r2 c2 = Ok (Some p)).
Proof.
  intros Hwf H1 H2 Hp Hne. apply getp_Ok_cell in Hp; [|exact Hwf|exact H1].
  eexists. split; [by apply make_move_upd|].
  pose proof (wf_upd board r1 c1 None Hwf) as Hwf1.
  rewrite !getp_upd by assumption.
  rewrite (decide_False (P := (r2, c2) = (r1, c1))) by congruence.
  rewrite (decide_True (P := (r2, c2) = (r2, c2))) by reflexivity.
  rewrite cell_upd by assumption.
  rewrite (decide_True (P := (r1, c1) = (r1, c1))) by reflexivity.
  split; [reflexivity|]. rewrite Hp. unfold arrival.
  split.
  - intros [Ht Hr]. by rewrite !bool_decide_eq_true_2.
  - intros Hno. destruct (bool_decide (ptype p = Pawn)) eqn:Ht;
      destruct (bool_decide (r2 = back_rank (pcolor p))) eqn:Hr; simpl; try reflexivity.
    apply bool_decide_eq_true in Ht, Hr. tauto.
Qed.

(** A white pawn takes on rank 0 and is promoted. *)
Lemma make_move_moves_piece_witness :
  wf_board promoting_pawn /\ in_bounds 1 2 = true /\ in_bounds 0 3 = true /\
  getp promoting_pawn 1 2 = Ok (Some (mkPiece Pawn White)) /\
  (1, 2) <> (0, 3) /\
  exists nb,
    make_move promoting_pawn ((1, 2), (0, 3)) = Ok nb /\
    getp nb 1 2 = Ok None /\
    getp nb 0 3 = Ok (Some (mkPiece Queen White)).
Proof.
  assert (wf_board promoting_pawn) as Hwf by (apply wf_board_of; by repeat constructor).
  assert ((1, 2) <> (0, 3)) as Hne by discriminate.
  do 2 (split; [done|]). do 3 (split; [done|]).
  destruct (make_move_moves_piece promoting_pawn 1 2 0 3 (mkPiece Pawn White)
              Hwf eq_refl eq_refl eq_refl Hne) as (nb & Hnb & Hfrom & Hqueen & _).
  exists nb. split; [exact Hnb|]. split; [exact Hfrom|].
  apply Hqueen. by split.
Defined.

(** C2, counterexample: a move of a rook onto its own square leaves the
    rook on the from-square. *)
Lemma make_move_same_square :
  getp lone_rook 4 4 = Ok (Some (mkPiece Rook White)) /\
  exists nb, make_move lone_rook ((4, 4), (4, 4)) = Ok nb /\
             getp nb 4 4 = Ok (Some (mkPiece Rook White)).
Proof. split; [reflexivity|]. eexists. split; reflexivity. Qed.

(** C3: a move from an occupied square keeps the number of pieces or lowers
    it by one, and lowers it only when the destination was occupied; a
    move between two different squares lowers it exactly when the
    destination was occupied. *)
Theorem make_move_piece_count board r1 c1 r2 c2 p :
  wf_board board -> in_bounds r1 c1 = true -> in_bounds r2 c2 = true ->
  getp board r1 c1 = Ok (Some p) ->
  exists nb dest,
    make_move board ((r1, c1), (r2, c2)) = Ok nb /\
    getp board r2 c2 = Ok dest /\
    (count_pieces nb = count_pieces board \/
     (S (count_pieces nb) = count_pieces board /\ is_Some dest)) /\
    ((r1, c1) <> (r2, c2) ->
     (count_pieces nb + occupied dest = count_pieces board)%nat).
Proof.
  intros Hwf H1 H2 Hp. apply getp_Ok_cell in Hp; [|exact Hwf|exact H1].
  eexists. exists (cell board r2 c2).
  split; [by apply make_move_upd|]. split; [by apply getp_cell|].
  pose proof (wf_upd board r1 c1 None Hwf) as Hwf1.
  pose proof (count_upd board r1 c1 None Hwf H1) as Hc1.
  pose proof (count_upd _ r2 c2 (arrival (cell board r1 c1) r2) Hwf1 H2) as Hc2.
  rewrite cell_upd in Hc2 by assumption.
  rewrite Hp in Hc1, Hc2 |- *. simpl in Hc1.
  assert (occupied (arrival (Some p) r2) = 1%nat) as Harr.
  { unfold arrival. by destruct (_ && _). }
  rewrite Harr in Hc2.
  destruct (decide ((r1, c1) = (r2, c2))) as [Heq|Hne].
  - unfold occupied in Hc2. split; [left; lia | congruence].
  - split; [|intros _; lia].
    destruct (cell board r2 c2) as [q|]; unfold occupied in Hc2 |- *; [right | left; lia].
    split; [lia | by eexists].
Qed.

(** A rook takes a pawn. *)
Lemma make_move_piece_count_witness :
  wf_board rook_takes_pawn /\ in_bounds 0 0 = true /\ in_bounds 3 0 = true /\
  getp rook_takes_pawn 0 0 = Ok (Some (mkPiece Rook Black)) /\
  exists nb dest,
    make_move rook_takes_pawn ((0, 0), (3, 0)) = Ok nb /\
    getp rook_takes_pawn 3 0 = Ok dest /\
    (count_pieces nb = count_pieces rook_takes_pawn \/
     (S (count_pieces nb) = count_pieces rook_takes_pawn /\ is_Some dest)) /\
    ((0, 0) <> (3, 0) ->
     (count_pieces nb + occupied dest = count_pieces rook_takes_pawn)%nat).
Proof.
  assert (wf_board rook_takes_pawn) as Hwf by (apply wf_board_of; by repeat constructor).
  do 4 (split; [done|]).
  exact (make_move_piece_count rook_takes_pawn 0 0 3 0 (mkPiece Rook Black)
           Hwf eq_refl eq_refl eq_refl).
Defined.

(** C10: a move from an empty square is executed all the same, and leaves
    both its from-square and its destination empty, whatever stood on the
    destination. *)
Theorem make_move_from_empty board r1 c1 r2 c2 :
  wf_board board -> in_bounds r1 c1 = true -> in_bounds r2 c2 = true ->
  getp board r1 c1 = Ok None ->
  exists nb,
    make_move board ((r1, c1), (r2, c2)) = Ok nb /\
    getp nb r1 c1 = Ok None /\ getp nb r2 c2 = Ok None.
Proof.
  intros Hwf H1 H2 Hp. apply getp_Ok_cell in Hp; [|exact Hwf|exact H1].
  eexists. split; [by apply make_move_upd|].
  pose proof (wf_upd board r1 c1 None Hwf) as Hwf1.
  rewrite !getp_upd by assumption. rewrite Hp. simpl.
  rewrite (decide_True (P := (r2, c2) = (r2, c2))) by reflexivity.
  split; [|reflexivity]. case_decide; [reflexivity|].
  rewrite cell_upd by assumption. by rewrite decide_True.
Qed.

(** A move from an empty square onto the rook. *)
Lemma make_move_from_empty_witness :
  wf_board lone_rook /\ in_bounds 2 2 = true /\ in_bounds 4 4 = true /\
  getp lone_rook 2 2 = Ok None /\
  getp lone_rook 4 4 = Ok (Some (mkPiece Rook White)) /\
  exists nb,
    make_move lone_rook ((2, 2), (4, 4)) = Ok nb /\
    getp nb 2 2 = Ok None /\ getp nb 4 4 = Ok None.
Proof.
  assert (wf_board lone_rook) as Hwf by (apply wf_board_of; by repeat constructor).
  do 5 (split; [done|]).
  exact (make_move_from_empty lone_rook 2 2 4 4 Hwf eq_refl eq_refl eq_refl).
Defined.

(** ** What the generator returns *)

(** C9: every pseudo-legal move goes from an on-board square holding a
    piece of the mover's color to an on-board square holding none of that
    color. *)
Theorem pseudo_legal_moves_well_formed board color :
  wf_board board ->
  exists moves,
    generate_pseudo_legal_moves board color = Ok moves /\
    forall r1 c1 r2 c2, ((r1, c1), (r2, c2)) ∈ moves ->
      (0 <= r1 < 8 /\ 0 <= c1 < 8) /\ (0 <= r2 < 8 /\ 0 <= c2 < 8) /\
      (exists p, getp board r1 c1 = Ok (Some p) /\ pcolor p = color) /\
      (forall q, getp board r2 c2 = Ok (Some q) -> pcolor q <> color).
Proof.
  intros Hwf. pose proof (generate_pseudo_legal_moves_wf board color Hwf) as H.
  apply returns_Ok in H. destruct H as (moves & -> & Hall).
  exists moves. split; [reflexivity|]. intros r1 c1 r2 c2 Hin.
  destruct (proj1 (Forall_forall _ _) Hall _ Hin) as (H1 & H2 & Hfrom & Hto).
  unfold sq_in_bounds in H1, H2. simpl in *.
  apply in_bounds_iff in H1, H2. auto.
Qed.

(** The moves of White in the initial position. *)
Lemma pseudo_legal_moves_well_formed_witness :
  wf_board start_position /\
  exists moves,
    generate_pseudo_legal_moves start_position White = Ok moves /\
    forall r1 c1 r2 c2, ((r1, c1), (r2, c2)) ∈ moves ->
      (0 <= r1 < 8 /\ 0 <= c1 < 8) /\ (0 <= r2 < 8 /\ 0 <= c2 < 8) /\
      (exists p, getp start_position r1 c1 = Ok (Some p) /\ pcolor p = White) /\
      (forall q, getp start_position r2 c2 = Ok (Some q) -> pcolor q <> White).
Proof.
  split; [exact wf_start_position|].
  exact (pseudo_legal_moves_well_formed start_position White wf_start_position).
Defined.

(** ** Check *)

(** C4 (as amended): [is_in_check] answers true exactly when the first
    king of the color in row-major order stands on a square of the
    opponent's attack map; with at most one king of the color that is
    "some king of the color stands on an attacked square"; with none the
    answer is false. *)
Theorem is_in_check_first_king board color :
  wf_board board ->
  exists attacked chk,
    squares_attacked_by board (enemy color) = Ok attacked /\
    is_in_check board color = Ok chk /\
    (chk = true <-> exists s, first_king_at board color s /\ s ∈ attacked) /\
    ((forall s t, king_at board color s -> king_at board color t -> s = t) ->
     (chk = true <-> exists s, king_at board color s /\ s ∈ attacked)) /\
    ((forall s, ~ king_at board color s) -> chk = false).
Proof.
  intros Hwf.
  pose proof (squares_attacked_by_total board (enemy color) Hwf) as Hatt.
  apply returns_Ok in Hatt. destruct Hatt as (attacked & Hatt & _).
  pose proof (find_king_spec board color Hwf) as Hking.
  apply returns_Ok in Hking. destruct Hking as (o & Hfind & Ho).
  exists attacked. unfold is_in_check. rewrite Hfind, bind_Ok.
  destruct o as [s|].
  - rewrite Hatt, bind_Ok. eexists. do 2 (split; [reflexivity|]).
    rewrite bool_decide_eq_true. split; [|split].
    + split; [by exists s|]. intros (t & Ht & Hin).
      by rewrite (first_king_at_unique _ _ _ _ Ho Ht).
    + intros Huniq. split; [intros Hin; exists s; split; [apply Ho | exact Hin]|].
      intros (t & Ht & Hin). by rewrite (Huniq s t (proj1 Ho) Ht).
    + intros Hnone. destruct (Hnone s (proj1 Ho)).
  - exists false. split; [exact Hatt|]. split; [reflexivity|]. split; [|split].
    + split; [discriminate|]. intros (s & [Hs _] & _). destruct (Ho s Hs).
    + intros _. split; [discriminate|]. intros (s & Hs & _). destruct (Ho s Hs).
    + reflexivity.
Qed.

(** The position with two white kings. *)
Lemma is_in_check_first_king_witness :
  wf_board two_kings /\
  exists attacked chk,
    squares_attacked_by two_kings (enemy White) = Ok attacked /\
    is_in_check two_kings White = Ok chk /\
    (chk = true <-> exists s, first_king_at two_kings White s /\ s ∈ attacked) /\
    ((forall s t, king_at two_kings White s -> king_at two_kings White t -> s = t) ->
     (chk = true <-> exists s, king_at two_kings White s /\ s ∈ attacked)) /\
    ((forall s, ~ king_at two_kings White s) -> chk = false).
Proof.
  assert (wf_board two_kings) as Hwf by (apply wf_board_of; by repeat constructor).
  split; [exact Hwf | exact (is_in_check_first_king two_kings White Hwf)].
Defined.

(** C4, counterexample: with two white kings, the second one attacked by
    a rook, White is not reported in check. *)
Lemma is_in_check_second_king :
  is_in_check two_kings White = Ok false /\
  exists attacked,
    squares_attacked_by two_kings (enemy White) = Ok attacked /\
    king_at two_kings White (7, 7) /\ (7, 7) ∈ attacked.
Proof.
  split; [by vm_compute|]. eexists. split; [by vm_compute|]. split.
  - split; [reflexivity|]. eexists. split; [by vm_compute|]. by split.
  - apply (bool_decide_unpack _). by vm_compute.
Qed.

(** ** The initial position and a pin *)

(** C6: the initial position gives White the 8 single steps and the 8
    double steps of its pawns and the 4 moves of its knights, 20 legal
    moves in all, and neither side is in check. *)
Theorem initial_position_moves :
  exists board legal,
    initial_board = Ok board /\
    generate_legal_moves board White = Ok legal /\
    length legal = 20%nat /\ NoDup legal /\
    (forall m, m ∈ legal <-> m ∈ single_steps ++ double_steps ++ knight_moves) /\
    length single_steps = 8%nat /\ length double_steps = 8%nat /\
    length knight_moves = 4%nat /\
    Forall (fun m => getp board m.1.1 m.1.2 = Ok (Some (mkPiece Pawn White)))
           (single_steps ++ double_steps) /\
    Forall (fun m => getp board m.1.1 m.1.2 = Ok (Some (mkPiece Knight White)))
           knight_moves /\
    is_in_check board White = Ok false /\
    is_in_check board Black = Ok false.
Proof.
  exists start_position. eexists.
  split; [by vm_compute|]. split; [by vm_compute|].
  split; [reflexivity|]. split; [apply (bool_decide_unpack _); by vm_compute|].
  split.
  { assert (forall l1 l2 : list Move, l1 ⊆ l2 -> l2 ⊆ l1 -> forall m, m ∈ l1 <-> m ∈ l2)
      as Hsub by (intros l1 l2 H12 H21 m; split; [apply H12 | apply H21]).
    apply Hsub; apply (bool_decide_unpack _); by vm_compute. }
  do 3 (split; [reflexivity|]).
  split; [apply (bool_decide_unpack _); by vm_compute|].
  split; [apply (bool_decide_unpack _); by vm_compute|].
  split; by vm_compute.
Qed.

(** C7: in a position with a white rook between the white king and a
    black rook on one file, a sideways step of the white rook is
    pseudo-legal and not legal: it leaves the white king attacked. *)
Theorem pinned_piece_excluded :
  exists board color m p pseudo legal,
    wf_board board /\
    getp board m.1.1 m.1.2 = Ok (Some p) /\ ptype p <> King /\ pcolor p = color /\
    generate_pseudo_legal_moves board color = Ok pseudo /\
    generate_legal_moves board color = Ok legal /\
    m ∈ pseudo /\ (m ∉ legal) /\
    (nb ← make_move board m; is_in_check nb color) = Ok true.
Proof.
  exists pinned_rook, White, ((6, 4), (6, 3)), (mkPiece Rook White). do 2 eexists.
  split; [split; [reflexivity | repeat constructor]|].
  split; [by vm_compute|]. split; [discriminate|]. split; [reflexivity|].
  split; [by vm_compute|]. split; [by vm_compute|].
  split; [apply (bool_decide_unpack _); by vm_compute|].
  split; [apply (bool_decide_unpack _); by vm_compute|].
  by vm_compute.
Qed.

(** ** The opponent's move *)

(** A loop that appends the elements it keeps. *)
Lemma for_each_keep {A} (xs : list A) (body : A -> list A -> res (list A))
    (keep : A -> Prop) acc :
  (forall x acc, x ∈ xs ->
     (keep x /\ body x acc = Ok (acc ++ [x])) \/ (~ keep x /\ body x acc = Ok acc)) ->
  exists kept, for_each xs body acc = Ok (acc ++ kept) /\
               forall x, x ∈ kept <-> x ∈ xs /\ keep x.
Proof.
  revert acc. induction xs as [|x xs IH]; intros acc Hbody.
  - exists []. simpl. split; [by rewrite app_nil_r|].
    intros x. split; [by intros ?%elem_of_nil | by intros [?%elem_of_nil _]].
  - simpl. destruct (Hbody x acc ltac:(left)) as [[Hk ->]|[Hk ->]]; rewrite bind_Ok.
    + destruct (IH (acc ++ [x])) as (kept & -> & Hkept).
      { intros y acc' Hy. apply Hbody. by right. }
      exists (x :: kept). split; [by rewrite <- app_assoc|].
      intros y. rewrite !elem_of_cons, Hkept. split; [|tauto].
      intros [->|[Hin Hy]]; tauto.
    + destruct (IH acc) as (kept & -> & Hkept).
      { intros y acc' Hy. apply Hbody. by right. }
      exists kept. split; [reflexivity|].
      intros y. rewrite elem_of_cons, Hkept. split; [tauto|].
      intros [[->|Hin] Hy]; tauto.
Qed.

Section Selector.
Variable randbelow : nat -> nat.
Hypothesis randbelow_lt : forall n, (0 < n)%nat -> (randbelow n < n)%nat.

Lemma random_choice_elem {A} (pool : list A) :
  pool <> [] -> exists x, random_choice randbelow pool = Ok x /\ x ∈ pool.
Proof using randbelow_lt.
  intros Hne. unfold random_choice.
  assert (0 < length pool)%nat as Hlen by (destruct pool; [done | simpl; lia]).
  pose proof (randbelow_lt _ Hlen) as Hlt.
  destruct (py_get_in pool (Z.of_nat (randbelow (length pool)))) as (x & Hx & ->); [lia|].
  exists x. split; [reflexivity|]. by apply list_elem_of_lookup_2 in Hx.
Qed.

(** C5: the selector answers none exactly when Black has no legal move;
    otherwise it answers a legal move of Black, a capturing one whenever
    Black has a legal capture, hence the capturing move when there is
    just one. *)
Theorem ai_choose_move_prefers_captures board :
  wf_board board ->
  exists legal choice,
    generate_legal_moves board Black = Ok legal /\
    ai_choose_move randbelow board = Ok choice /\
    (choice = None <-> legal = []) /\
    (forall m, choice = Some m ->
       m ∈ legal /\
       ((exists mc, mc ∈ legal /\ is_capture board mc) -> is_capture board m)) /\
    (forall mc, mc ∈ legal -> is_capture board mc ->
       (forall m, m ∈ legal -> is_capture board m -> m = mc) ->
       choice = Some mc).
Proof using randbelow_lt.
  intros Hwf.
  destruct (generate_legal_moves_spec board Black Hwf)
    as (pseudo & legal & Hpseudo & Hlegal & _ & Hsub & _).
  pose proof (generate_pseudo_legal_moves_wf board Black Hwf) as Hall.
  rewrite Hpseudo in Hall. simpl in Hall.
  exists legal. unfold ai_choose_move. rewrite Hlegal, bind_Ok.
  case_bool_decide as Hnil.
  { exists None. do 2 (split; [reflexivity|]). split; [done|]. split; [done|].
    intros mc Hmc. rewrite Hnil in Hmc. by apply elem_of_nil in Hmc. }
  destruct (for_each_keep legal
              (fun m capture_moves =>
                 let '((r1, c1), (r2, c2)) := m in
                 q ← getp board r2 c2;
                 match q with
                 | Some _ => Ok (capture_moves ++ [m])
                 | None => Ok capture_moves
                 end)
              (is_capture board) []) as (caps & -> & Hcaps).
  { intros [[r1 c1] [r2 c2]] acc Hin.
    pose proof (proj1 (Forall_forall _ _) Hall _ (Hsub _ Hin)) as (_ & H2 & _).
    unfold is_capture. unfold sq_in_bounds in H2. simpl in H2 |- *.
    rewrite (getp_cell _ _ _ Hwf H2), bind_Ok.
    destruct (cell board r2 c2) as [q|]; [left | right].
    - split; [by exists q | reflexivity].
    - split; [by intros [q [=]] | reflexivity]. }
  rewrite bind_Ok. simpl app.
  set (pool := if bool_decide (caps = []) then legal else caps).
  assert (pool <> []) as Hpool by (unfold pool; by case_bool_decide).
  destruct (random_choice_elem pool Hpool) as (m & -> & Hm).
  rewrite bind_Ok. exists (Some m). do 2 (split; [reflexivity|]).
  split; [done|]. split.
  - intros m' [= <-]. unfold pool in Hm. case_bool_decide as Hc.
    + split; [exact Hm|]. intros (mc & Hmc & Hcap).
      assert (mc ∈ caps) as Hin by (by apply Hcaps).
      rewrite Hc in Hin. by apply elem_of_nil in Hin.
    + apply Hcaps in Hm. tauto.
  - intros mc Hmc Hcap Honly. f_equal.
    assert (mc ∈ caps) as Hin by (by apply Hcaps).
    unfold pool in Hm. case_bool_decide as Hc.
    + rewrite Hc in Hin. by apply elem_of_nil in Hin.
    + apply Hcaps in Hm. apply Honly; tauto.
Qed.
End Selector.

(** The selector with a source that always draws 0. *)
Lemma ai_choose_move_prefers_captures_witness :
  (forall n, (0 < n)%nat -> ((fun _ : nat => 0%nat) n < n)%nat) /\
  wf_board rook_takes_pawn /\
  exists legal choice,
    generate_legal_moves rook_takes_pawn Black = Ok legal /\
    ai_choose_move (fun _ => 0%nat) rook_takes_pawn = Ok choice /\
    (choice = None <-> legal = []) /\
    (forall m, choice = Some m ->
       m ∈ legal /\
       ((exists mc, mc ∈ legal /\ is_capture rook_takes_pawn mc) ->
        is_capture rook_takes_pawn m)) /\
    (forall mc, mc ∈ legal -> is_capture rook_takes_pawn mc ->
       (forall m, m ∈ legal -> is_capture rook_takes_pawn m -> m = mc) ->
       choice = Some mc).
Proof.
  assert (wf_board rook_takes_pawn) as Hwf by (apply wf_board_of; by repeat constructor).
  assert (forall n, (0 < n)%nat -> ((fun _ : nat => 0%nat) n < n)%nat) as Hrand
    by (intros n Hn; exact Hn).
  split; [exact Hrand|]. split; [exact Hwf|].
  exact (ai_choose_move_prefers_captures (fun _ => 0%nat) Hrand rook_takes_pawn Hwf).
Defined.

(** ** The move executor on the store *)

Module StoreFacts.
Import Store.

(** ** Running on the store *)

Lemma runs_bind {A B} (m : M A) (f : A -> M B) h (Q : A -> heap -> Prop) P :
  runs m h Q -> (forall a h', Q a h' -> runs (f a) h' P) -> runs (m ≫= f) h P.
Proof.
  unfold runs, mbind, M_bind. destruct (m h) as [[a h']|e]; simpl; [|intros []].
  intros Hq Hf. by apply Hf.
Qed.

Lemma M_bind_Ok {A B} (m : M A) (f : A -> M B) h a h' :
  m h = Ok (a, h') -> (m ≫= f) h = f a h'.
Proof. intros Hm. unfold mbind, M_bind. by rewrite Hm. Qed.

Lemma runs_mono {A} (m : M A) h (P Q : A -> heap -> Prop) :
  runs m h P -> (forall a h', P a h' -> Q a h') -> runs m h Q.
Proof. unfold runs. intros Hm HPQ. eapply returns_mono; [exact Hm|]. intros [a h']. apply HPQ. Qed.

Lemma runs_Ok {A} (m : M A) h (P : A -> heap -> Prop) :
  runs m h P <-> exists a h', m h = Ok (a, h') /\ P a h'.
Proof.
  unfold runs. rewrite returns_Ok. split.
  - intros ([a h'] & Hm & HP). by exists a, h'.
  - intros (a & h' & Hm & HP). by exists (a, h').
Qed.

Lemma for__seqZ (I : Z -> heap -> Prop) (body : Z -> M unit) (m : Z) (n : nat) h :
  I m h ->
  (forall i h, m <= i < m + Z.of_nat n -> I i h -> runs (body i) h (fun _ => I (i + 1))) ->
  runs (for_ (seqZ m (Z.of_nat n)) body) h (fun _ => I (m + Z.of_nat n)).
Proof.
  revert m h. induction n as [|n IH]; intros m h Hh Hbody.
  - unfold runs. simpl. by rewrite Z.add_0_r.
  - rewrite seqZ_cons by lia. simpl.
    apply runs_bind with (Q := fun _ => I (m + 1)).
    + apply Hbody; [lia | exact Hh].
    + intros _ h' Hh'.
      replace (Z.pred (Z.of_nat (S n))) with (Z.of_nat n) by lia.
      replace (Z.succ m) with (m + 1) by lia.
      replace (m + Z.of_nat (S n)) with (m + 1 + Z.of_nat n) by lia.
      apply IH; [exact Hh'|]. intros i t Hi. apply Hbody. lia.
Qed.

Lemma for__range (I : Z -> heap -> Prop) (body : Z -> M unit) h :
  I 0 h ->
  (forall i h, 0 <= i < 8 -> I i h -> runs (body i) h (fun _ => I (i + 1))) ->
  runs (for_ (range 8) body) h (fun _ => I 8).
Proof.
  intros H0 Hbody. apply (for__seqZ I body 0 8 h H0).
  intros i t Hi. apply Hbody. lia.
Qed.

Lemma get_item_list l items i x h :
  h !! l = Some (OList items) -> 0 <= i < Z.of_nat (length items) ->
  items !! Z.to_nat i = Some x ->
  get_item (VRef l) i h = Ok (x, h).
Proof.
  intros Hl Hi Hx. unfold get_item. rewrite Hl.
  destruct (py_get_in items i Hi) as (y & Hy & ->). rewrite bind_Ok. congruence.
Qed.

Lemma set_item_list l items i x h :
  h !! l = Some (OList items) -> 0 <= i < Z.of_nat (length items) ->
  set_item (VRef l) i x h = Ok (tt, <[l:=OList (<[Z.to_nat i:=x]> items)]> h).
Proof.
  intros Hl Hi. unfold set_item. rewrite Hl. by rewrite py_set_in, bind_Ok.
Qed.

(** ** What stays as the store grows *)

Lemma repr_piece_mono h h' v o : h ⊆ h' -> repr_piece h v o -> repr_piece h' v o.
Proof.
  intros Hsub. destruct o as [p|]; simpl; [|done].
  intros (l & -> & Hl). exists l. split; [reflexivity|].
  by eapply lookup_weaken.
Qed.

Lemma repr_board_mono h h' v board :
  h ⊆ h' -> repr_board h v board -> repr_board h' v board.
Proof.
  intros Hsub (l & rows & -> & Hl & Hrows). exists l, rows.
  split; [reflexivity|]. split; [by eapply lookup_weaken|].
  eapply Forall2_impl; [exact Hrows|].
  intros rv row (rl & items & -> & Hrl & Hitems). exists rl, items.
  split; [reflexivity|]. split; [by eapply lookup_weaken|].
  eapply Forall2_impl; [exact Hitems|]. intros v o. by apply repr_piece_mono.
Qed.

Lemma fresh_piece_mono h0 h h' v o :
  h ⊆ h' -> fresh_piece h0 h v o -> fresh_piece h0 h' v o.
Proof.
  intros Hsub. destruct o as [p|]; simpl; [|done].
  intros (l & -> & Hfresh & Hl). exists l. split; [reflexivity|].
  split; [exact Hfresh|]. by eapply lookup_weaken.
Qed.

Lemma fresh_board_mono h0 h h' nl rls nb :
  h ⊆ h' -> fresh_board h0 h nl rls nb -> fresh_board h0 h' nl rls nb.
Proof.
  intros Hsub (H0 & Hnd & Hfresh & Hnl & Hrows).
  split; [by etransitivity|]. split; [exact Hnd|]. split; [exact Hfresh|].
  split; [by eapply lookup_weaken|].
  eapply Forall2_impl; [exact Hrows|].
  intros rl row (items & Hrl & Hitems). exists items.
  split; [by eapply lookup_weaken|].
  eapply Forall2_impl; [exact Hitems|]. intros v o. by apply fresh_piece_mono.
Qed.

(** ** Reading and writing squares in the store *)

Lemma cell_lookup board r c row :
  board !! Z.to_nat r = Some row -> cell board r c = default None (row !! Z.to_nat c).
Proof. intros Hrow. unfold cell. by rewrite Hrow. Qed.

Lemma repr_board_getp h bv board r c :
  repr_board h bv board -> wf_board board -> in_bounds r c = true ->
  exists v, getp bv r c h = Ok (v, h) /\ repr_piece h v (cell board r c).
Proof.
  intros (l & rows & -> & Hl & Hrows) Hwf Hb. apply in_bounds_iff in Hb.
  pose proof (Forall2_length _ _ _ Hrows) as Hlen. rewrite (proj1 Hwf) in Hlen.
  destruct (lookup_lt_is_Some_2 rows (Z.to_nat r)) as [rv Hrv]; [lia|].
  destruct (Forall2_lookup_l _ _ _ _ _ Hrows Hrv) as (row & Hrow & rl & items & -> & Hrl & Hitems).
  pose proof (Forall2_length _ _ _ Hitems) as Hlen'.
  rewrite (wf_board_row _ _ _ Hwf Hrow) in Hlen'.
  destruct (lookup_lt_is_Some_2 items (Z.to_nat c)) as [v Hv]; [lia|].
  destruct (Forall2_lookup_l _ _ _ _ _ Hitems Hv) as (o & Ho & Hvo).
  exists v. unfold getp, mbind, M_bind.
  rewrite (get_item_list l rows r (VRef rl) h Hl) by (assumption || lia).
  split; [apply (get_item_list rl items c v h Hrl); assumption || lia|].
  by rewrite (cell_lookup _ _ _ _ Hrow), Ho.
Qed.

Lemma fresh_board_getp h0 h nl rls nb r c :
  fresh_board h0 h nl rls nb -> wf_board nb -> in_bounds r c = true ->
  exists v, getp (VRef nl) r c h = Ok (v, h) /\ fresh_piece h0 h v (cell nb r c).
Proof.
  intros (_ & _ & _ & Hnl & Hrows) Hwf Hb. apply in_bounds_iff in Hb.
  pose proof (Forall2_length _ _ _ Hrows) as Hlen. rewrite (proj1 Hwf) in Hlen.
  destruct (lookup_lt_is_Some_2 rls (Z.to_nat r)) as [rl Hrl]; [lia|].
  destruct (Forall2_lookup_l _ _ _ _ _ Hrows Hrl) as (row & Hrow & items & Hitems & Hcells).
  pose proof (Forall2_length _ _ _ Hcells) as Hlen'.
  rewrite (wf_board_row _ _ _ Hwf Hrow) in Hlen'.
  destruct (lookup_lt_is_Some_2 items (Z.to_nat c)) as [v Hv]; [lia|].
  destruct (Forall2_lookup_l _ _ _ _ _ Hcells Hv) as (o & Ho & Hvo).
  exists v. unfold getp, mbind, M_bind.
  rewrite (get_item_list nl (VRef <$> rls) r (VRef rl) h Hnl);
    [| rewrite length_fmap; lia | by rewrite list_lookup_fmap, Hrl].
  split; [apply (get_item_list rl items c v h Hitems); assumption || lia|].
  by rewrite (cell_lookup _ _ _ _ Hrow), Ho.
Qed.

Lemma fresh_board_setp h0 h nl rls nb r c v o :
  fresh_board h0 h nl rls nb -> wf_board nb -> in_bounds r c = true ->
  fresh_piece h0 h v o ->
  exists h', setp (VRef nl) r c v h = Ok (tt, h') /\
             fresh_board h0 h' nl rls (upd nb r c o) /\
             forall u p, fresh_piece h0 h u p -> fresh_piece h0 h' u p.
Proof.
  intros (H0 & Hnd & Hfresh & Hnl & Hrows) Hwf Hb Hv. apply in_bounds_iff in Hb.
  pose proof (Forall2_length _ _ _ Hrows) as Hlen. rewrite (proj1 Hwf) in Hlen.
  destruct (lookup_lt_is_Some_2 rls (Z.to_nat r)) as [rl Hrl]; [lia|].
  destruct (Forall2_lookup_l _ _ _ _ _ Hrows Hrl) as (row & Hrow & items & Hitems & Hcells).
  pose proof (Forall2_length _ _ _ Hcells) as Hlen'.
  rewrite (wf_board_row _ _ _ Hwf Hrow) in Hlen'.
  set (h' := <[rl:=OList (<[Z.to_nat c:=v]> items)]> h).
  assert (rl ∈ rls) as Hin by (by eapply list_elem_of_lookup_2).
  assert (rl <> nl) as Hne.
  { intros ->. apply NoDup_cons in Hnd. tauto. }
  assert (forall l t col, h !! l = Some (ODict t col) -> h' !! l = Some (ODict t col)) as Hdict.
  { intros l t col Hl. unfold h'. rewrite lookup_insert_ne; [exact Hl|]. congruence. }
  assert (forall u p, fresh_piece h0 h u p -> fresh_piece h0 h' u p) as Hpiece.
  { intros u [p|]; simpl; [|done]. intros (l & -> & Hl0 & Hl).
    exists l. split; [reflexivity|]. split; [exact Hl0|]. by apply Hdict. }
  exists h'. split.
  - unfold setp, mbind, M_bind.
    rewrite (get_item_list nl (VRef <$> rls) r (VRef rl) h Hnl);
      [| rewrite length_fmap; lia | by rewrite list_lookup_fmap, Hrl].
    apply (set_item_list rl items c v h Hitems). lia.
  - split; [|exact Hpiece]. split.
    { unfold h'. apply insert_subseteq_r; [|exact H0].
      apply not_elem_of_dom. apply Hfresh. by right. }
    split; [exact Hnd|]. split; [exact Hfresh|]. split.
    { unfold h'. rewrite lookup_insert_ne by exact Hne. exact Hnl. }
    apply Forall2_same_length_lookup. split.
    { unfold upd. rewrite length_alter. by eapply Forall2_length. }
    intros i rl' row' Hrl' Hrow'. unfold upd in Hrow'.
    destruct (decide (i = Z.to_nat r)) as [->|Hi].
    + rewrite list_lookup_alter_eq, Hrow in Hrow'. simpl in Hrow'.
      injection Hrow' as <-. assert (rl' = rl) as -> by congruence.
      exists (<[Z.to_nat c:=v]> items). split; [unfold h'; by rewrite lookup_insert_eq|].
      apply Forall2_insert; [|by apply Hpiece].
      eapply Forall2_impl; [exact Hcells | exact Hpiece].
    + rewrite list_lookup_alter_ne in Hrow' by congruence.
      destruct (Forall2_lookup_lr _ _ _ _ _ _ Hrows Hrl' Hrow') as (items' & Hitems' & Hcells').
      exists items'. split.
      * unfold h'. rewrite lookup_insert_ne; [exact Hitems'|].
        intros ->. apply NoDup_cons in Hnd. destruct Hnd as [_ Hnd].
        by apply Hi, (NoDup_lookup _ _ _ _ Hnd Hrl' Hrl).
      * eapply Forall2_impl; [exact Hcells' | exact Hpiece].
Qed.

Lemma fresh_board_repr h0 h nl rls nb :
  fresh_board h0 h nl rls nb -> repr_board h (VRef nl) nb.
Proof.
  intros (_ & _ & _ & Hnl & Hrows). exists nl, (VRef <$> rls).
  split; [reflexivity|]. split; [exact Hnl|].
  apply Forall2_fmap_l. eapply Forall2_impl; [exact Hrows|].
  intros rl row (items & Hitems & Hcells). exists rl, items.
  split; [reflexivity|]. split; [exact Hitems|].
  eapply Forall2_impl; [exact Hcells|].
  intros v [p|]; simpl; [|done]. intros (l & -> & _ & Hl). by exists l.
Qed.

Lemma fresh_board_reachable h0 h nl rls nb l :
  fresh_board h0 h nl rls nb -> reachable h (VRef nl) l -> l ∉ dom h0.
Proof.
  intros (_ & _ & Hfresh & Hnl & Hrows) Hreach.
  inversion Hreach as [|? rows rv ? Hnl' Hrv Hreach1]; subst.
  { apply Hfresh. by left. }
  assert (rows = VRef <$> rls) as -> by congruence.
  apply list_elem_of_fmap in Hrv. destruct Hrv as (rl & -> & Hrl).
  inversion Hreach1 as [|? items v ? Hitems Hv Hreach2]; subst.
  { apply Hfresh. by right. }
  apply list_elem_of_lookup in Hrl. destruct Hrl as [i Hi].
  destruct (Forall2_lookup_l _ _ _ _ _ Hrows Hi) as (row & Hrow & items' & Hitems' & Hcells).
  assert (items' = items) as -> by congruence.
  apply list_elem_of_lookup in Hv. destruct Hv as [j Hj].
  destruct (Forall2_lookup_l _ _ _ _ _ Hcells Hj) as (o & Ho & Hvo).
  destruct o as [p|]; simpl in Hvo.
  - destruct Hvo as (pl & -> & Hpl0 & Hpl).
    inversion Hreach2 as [|? items'' ? ? Hbad]; subst; [exact Hpl0 | congruence].
  - subst v. inversion Hreach2.
Qed.

(** ** The copy is made of new objects *)

Lemma alloc_fresh o h :
  exists l, alloc o h = Ok (VRef l, <[l:=o]> h) /\ h !! l = None.
Proof.
  exists (fresh (dom h)). split; [reflexivity|].
  apply not_elem_of_dom, is_fresh.
Qed.

Lemma alloc_rows {A} (xs : list A) h :
  exists rls h',
    list_comp xs (fun _ =>
      items ← list_comp (range COLS) (fun _ => mret VNone);
      alloc (OList items)) h = Ok (VRef <$> rls, h') /\
    length rls = length xs /\ h ⊆ h' /\ NoDup rls /\
    (forall l, l ∈ rls -> h !! l = None) /\
    Forall (fun rl => h' !! rl = Some (OList (replicate 8 VNone))) rls.
Proof.
  revert h. induction xs as [|x xs IH]; intros h.
  - exists [], h. repeat split; try done; try constructor.
    intros l Hl. by apply elem_of_nil in Hl.
  - destruct (alloc_fresh (OList (replicate 8 VNone)) h) as (l & Hl & Hfresh).
    destruct (IH (<[l:=OList (replicate 8 VNone)]> h))
      as (rls & h' & Hrows & Hlen & Hsub & Hnd & Hnew & Hall).
    exists (l :: rls), h'.
    assert (h ⊆ <[l:=OList (replicate 8 VNone)]> h) as Hsub1
      by (by apply insert_subseteq).
    split.
    { cbn [list_comp].
      etransitivity; [apply (M_bind_Ok _ _ _ _ _ Hl)|].
      etransitivity; [apply (M_bind_Ok _ _ _ _ _ Hrows)|]. reflexivity. }
    split; [simpl; by rewrite Hlen|].
    split; [by etransitivity|].
    split.
    { apply NoDup_cons. split; [|exact Hnd]. intros Hin.
      specialize (Hnew l Hin). by rewrite lookup_insert_eq in Hnew. }
    split.
    { intros l' [->|Hin]%elem_of_cons; [exact Hfresh|].
      specialize (Hnew l' Hin). eapply lookup_weaken_None; [exact Hnew | exact Hsub1]. }
    constructor; [|exact Hall].
    eapply lookup_weaken; [|exact Hsub]. by rewrite lookup_insert_eq.
Qed.

Lemma fresh_board_start h0 :
  runs (rows ← list_comp (range ROWS) (fun _ =>
                 items ← list_comp (range COLS) (fun _ => mret VNone);
                 alloc (OList items));
        alloc (OList rows)) h0
       (fun v h => exists nl rls, v = VRef nl /\ fresh_board h0 h nl rls empty_board).
Proof.
  destruct (alloc_rows (range ROWS) h0) as (rls & h1 & Hrows & Hlen & Hsub & Hnd & Hnew & Hall).
  destruct (alloc_fresh (OList (VRef <$> rls)) h1) as (nl & Hnl & Hfresh).
  apply runs_Ok. exists (VRef nl), (<[nl:=OList (VRef <$> rls)]> h1).
  split; [etransitivity; [apply (M_bind_Ok _ _ _ _ _ Hrows) | exact Hnl]|].
  exists nl, rls. split; [reflexivity|].
  assert (h1 ⊆ <[nl:=OList (VRef <$> rls)]> h1) as Hsub1 by (by apply insert_subseteq).
  split; [by etransitivity|]. split.
  { apply NoDup_cons. split; [|exact Hnd]. intros Hin.
    pose proof (proj1 (Forall_forall _ _) Hall nl Hin) as Hsome. congruence. }
  split.
  { intros l [->|Hin]%elem_of_cons; apply not_elem_of_dom.
    - eapply lookup_weaken_None; [exact Hfresh | exact Hsub].
    - by apply Hnew. }
  split; [by rewrite lookup_insert_eq|].
  apply Forall2_same_length_lookup. split; [by rewrite Hlen|].
  intros i rl row Hrl Hrow. exists (replicate 8 VNone). split.
  - eapply lookup_weaken; [|exact Hsub1].
    apply (proj1 (Forall_forall _ _) Hall rl). by eapply list_elem_of_lookup_2.
  - assert (row = replicate 8 None) as ->.
    { apply list_elem_of_lookup_2 in Hrow. revert Hrow. clear.
      intros Hrow. repeat (apply elem_of_cons in Hrow as [->|Hrow]; [reflexivity|]).
      by apply elem_of_nil in Hrow. }
    repeat constructor.
Qed.

Section Copy.
Variables (h0 : heap) (bv : val) (board : Board).
Hypothesis Hwf : wf_board board.
Hypothesis Hrepr : repr_board h0 bv board.

(** One square of the copy loop. *)
Lemma copy_square nl rls nb r c h :
  fresh_board h0 h nl rls nb -> wf_board nb -> in_bounds r c = true ->
  runs (p ← getp bv r c;
        match p with
        | VNone => setp (VRef nl) r c VNone
        | VRef _ =>
            t ← get_type p;
            color ← get_color p;
            d ← alloc (ODict t color);
            setp (VRef nl) r c d
        end) h
       (fun _ h' => fresh_board h0 h' nl rls (upd nb r c (cell board r c))).
Proof using Hwf Hrepr.
  intros Hnb Hwfnb Hb.
  pose proof (repr_board_mono _ _ _ _ (proj1 Hnb) Hrepr) as Hrepr'.
  destruct (repr_board_getp _ _ _ _ _ Hrepr' Hwf Hb) as (v & Hget & Hv).
  apply runs_Ok. rewrite (M_bind_Ok _ _ _ _ _ Hget).
  destruct (cell board r c) as [p|]; simpl in Hv.
  - destruct Hv as (l & -> & Hl).
    assert (get_type (VRef l) h = Ok (ptype p, h)) as Ht
      by (unfold get_type; by rewrite Hl).
    assert (get_color (VRef l) h = Ok (pcolor p, h)) as Hc
      by (unfold get_color; by rewrite Hl).
    rewrite (M_bind_Ok _ _ _ _ _ Ht), (M_bind_Ok _ _ _ _ _ Hc).
    destruct (alloc_fresh (ODict (ptype p) (pcolor p)) h) as (d & Hal & Hd).
    rewrite (M_bind_Ok _ _ _ _ _ Hal).
    assert (h ⊆ <[d:=ODict (ptype p) (pcolor p)]> h) as Hsub by (by apply insert_subseteq).
    destruct (fresh_board_setp h0 _ nl rls nb r c (VRef d) (Some p)
                (fresh_board_mono _ _ _ _ _ _ Hsub Hnb) Hwfnb Hb) as (h' & Hset & Hnb' & _).
    { exists d. split; [reflexivity|]. split; [|by rewrite lookup_insert_eq].
      apply not_elem_of_dom. eapply lookup_weaken_None; [exact Hd | exact (proj1 Hnb)]. }
    exists tt, h'. split; [exact Hset | exact Hnb'].
  - subst v.
    destruct (fresh_board_setp h0 h nl rls nb r c VNone None Hnb Hwfnb Hb)
      as (h' & Hset & Hnb' & _); [reflexivity|].
    exists tt, h'. split; [exact Hset | exact Hnb'].
Qed.

Lemma deep_copy_board_fresh :
  runs (Store.deep_copy_board bv) h0
       (fun v h => exists nl rls, v = VRef nl /\ fresh_board h0 h nl rls board).
Proof using Hwf Hrepr.
  unfold Store.deep_copy_board.
  change (runs ((rows ← list_comp (range ROWS) (fun _ =>
                    items ← list_comp (range COLS) (fun _ => mret VNone);
                    alloc (OList items));
                 alloc (OList rows)) ≫= (fun new_board =>
                 _ ← for_ (range ROWS) (fun r =>
                       for_ (range COLS) (fun c =>
                         p ← getp bv r c;
                         match p with
                         | VNone => setp new_board r c VNone
                         | VRef _ =>
                             t ← get_type p;
                             color ← get_color p;
                             d ← alloc (ODict t color);
                             setp new_board r c d
                         end));
                 mret new_board)) h0
               (fun v h => exists nl rls, v = VRef nl /\ fresh_board h0 h nl rls board)).
  eapply runs_bind; [apply fresh_board_start|].
  intros v h1 (nl & rls & -> & Hstart).
  pose (Inv := fun (done : Z -> Z -> Prop) (h : heap) =>
    exists nb, wf_board nb /\ fresh_board h0 h nl rls nb /\
               forall r c, in_bounds r c = true -> done r c ->
                           cell nb r c = cell board r c).
  eapply runs_bind with (Q := fun _ => Inv (fun r _ => r < 8)).
  2: { intros _ h (nb & Hwfnb & Hnb & Hcells). apply runs_Ok.
       exists (VRef nl), h. split; [reflexivity|]. exists nl, rls.
       split; [reflexivity|]. replace board with nb; [exact Hnb|].
       apply board_ext; [exact Hwfnb | exact Hwf |].
       intros r c Hb. apply Hcells; [exact Hb|]. apply in_bounds_iff in Hb. lia. }
  apply (for__range (fun i => Inv (fun r _ => r < i))).
  { exists empty_board. split; [apply wf_empty_board|]. split; [exact Hstart|].
    intros r c Hb Hr. apply in_bounds_iff in Hb. lia. }
  intros r h Hr HI.
  eapply runs_mono.
  - apply (for__range (fun j => Inv (fun r' c' => r' < r \/ (r' = r /\ c' < j)))).
    + destruct HI as (nb & Hwfnb & Hnb & Hcells). exists nb.
      split; [exact Hwfnb|]. split; [exact Hnb|].
      intros r' c' Hb [Hlt|[_ Hlt]]; [by apply Hcells|].
      apply in_bounds_iff in Hb. lia.
    + intros c h' Hc (nb & Hwfnb & Hnb & Hcells).
      assert (in_bounds r c = true) as Hb by (apply in_bounds_iff; lia).
      eapply runs_mono; [apply (copy_square nl rls nb r c h' Hnb Hwfnb Hb)|].
      intros u h'' Hnb'. exists (upd nb r c (cell board r c)).
      split; [by apply wf_upd|]. split; [exact Hnb'|].
      intros r' c' Hb' Hlt. rewrite (cell_upd _ _ _ _ _ _ Hwfnb Hb Hb').
      destruct (decide ((r, c) = (r', c'))) as [Heq|Hne];
        [injection Heq as Hr' Hc'; by subst r' c'|].
      apply Hcells; [exact Hb'|].
      destruct Hlt as [Hlt|[-> Hlt]]; [by left | right].
      split; [reflexivity|]. assert (c' <> c) by congruence. lia.
  - intros _ h' (nb & Hwfnb & Hnb & Hcells). exists nb.
    split; [exact Hwfnb|]. split; [exact Hnb|].
    intros r' c' Hb Hlt. apply Hcells; [exact Hb|].
    apply in_bounds_iff in Hb. lia.
Qed.
End Copy.

Lemma repr_board_reachable h h' v board l :
  repr_board h v board -> h ⊆ h' -> reachable h' v l -> l ∈ dom h.
Proof.
  intros (bl & rows & -> & Hbl & Hrows) Hsub Hreach.
  inversion Hreach as [|? rows' rv ? Hbl' Hrv Hreach1]; subst.
  { apply elem_of_dom. by eexists. }
  pose proof (lookup_weaken _ _ _ _ Hbl Hsub) as Hbl''.
  assert (rows' = rows) as -> by congruence.
  apply list_elem_of_lookup in Hrv. destruct Hrv as [i Hi].
  destruct (Forall2_lookup_l _ _ _ _ _ Hrows Hi) as (row & Hrow & rl & items & -> & Hrl & Hitems).
  inversion Hreach1 as [|? items' v ? Hrl' Hv Hreach2]; subst.
  { apply elem_of_dom. by eexists. }
  pose proof (lookup_weaken _ _ _ _ Hrl Hsub) as Hrl''.
  assert (items' = items) as -> by congruence.
  apply list_elem_of_lookup in Hv. destruct Hv as [j Hj].
  destruct (Forall2_lookup_l _ _ _ _ _ Hitems Hj) as (o & Ho & Hvo).
  destruct o as [p|]; simpl in Hvo.
  - destruct Hvo as (pl & -> & Hpl).
    pose proof (lookup_weaken _ _ _ _ Hpl Hsub) as Hpl''.
    inversion Hreach2 as [|? items'' ? ? Hbad]; subst; [|congruence].
    apply elem_of_dom. by eexists.
  - subst v. inversion Hreach2.
Qed.

Section Execute.
Variables (h0 : heap) (bv : val) (board : Board).
Hypothesis Hwf : wf_board board.
Hypothesis Hrepr : repr_board h0 bv board.
Variables r1 c1 r2 c2 : Z.
Hypothesis H1 : in_bounds r1 c1 = true.
Hypothesis H2 : in_bounds r2 c2 = true.

Lemma make_move_fresh :
  runs (Store.make_move bv ((r1, c1), (r2, c2))) h0
       (fun v h => exists nl rls, v = VRef nl /\
          fresh_board h0 h nl rls
            (upd (upd board r1 c1 None) r2 c2 (arrival (cell board r1 c1) r2))).
Proof using Hwf Hrepr H1 H2.
  unfold Store.make_move.
  eapply runs_bind; [apply (deep_copy_board_fresh h0 bv board Hwf Hrepr)|].
  intros v h1 (nl & rls & -> & Hnb).
  destruct (fresh_board_getp _ _ _ _ _ _ _ Hnb Hwf H1) as (piece & Hget & Hpiece).
  destruct (fresh_board_setp _ _ _ _ _ r1 c1 VNone None Hnb Hwf H1)
    as (h2 & Hset & Hnb2 & Hkeep); [reflexivity|].
  pose proof (wf_upd board r1 c1 None Hwf) as Hwf2.
  apply Hkeep in Hpiece.
  apply runs_Ok.
  rewrite (M_bind_Ok _ _ _ _ _ Hget), (M_bind_Ok _ _ _ _ _ Hset).
  assert (forall v o, fresh_piece h0 h2 v o ->
            exists h3, (_ ← setp (VRef nl) r2 c2 v; mret (VRef nl)) h2 = Ok (VRef nl, h3) /\
                       fresh_board h0 h3 nl rls (upd (upd board r1 c1 None) r2 c2 o))
    as Hplain.
  { intros v o Hv.
    destruct (fresh_board_setp _ _ _ _ _ r2 c2 v o Hnb2 Hwf2 H2 Hv) as (h3 & Hset3 & Hnb3 & _).
    exists h3. split; [by rewrite (M_bind_Ok _ _ _ _ _ Hset3) | exact Hnb3]. }
  unfold arrival. destruct (cell board r1 c1) as [p|]; simpl in Hpiece.
  - destruct Hpiece as (l & -> & Hl0 & Hl).
    assert (get_type (VRef l) h2 = Ok (ptype p, h2)) as Ht
      by (unfold get_type; by rewrite Hl).
    assert (get_color (VRef l) h2 = Ok (pcolor p, h2)) as Hc
      by (unfold get_color; by rewrite Hl).
    assert (fresh_piece h0 h2 (VRef l) (Some p)) as Hp by (by exists l).
    rewrite (M_bind_Ok _ _ _ _ _ Ht).
    destruct (bool_decide (ptype p = Pawn)); simpl andb.
    + rewrite (M_bind_Ok _ _ _ _ _ Hc).
      replace (if bool_decide (pcolor p = White) then 0 else 7) with (back_rank (pcolor p))
        by (by destruct (pcolor p)).
      destruct (bool_decide (r2 = back_rank (pcolor p))).
      * rewrite (M_bind_Ok _ _ _ _ _ Hc).
        destruct (alloc_fresh (ODict Queen (pcolor p)) h2) as (q & Hal & Hq).
        rewrite (M_bind_Ok _ _ _ _ _ Hal).
        assert (h2 ⊆ <[q:=ODict Queen (pcolor p)]> h2) as Hsub by (by apply insert_subseteq).
        destruct (fresh_board_setp h0 _ nl rls _ r2 c2 (VRef q)
                    (Some {| ptype := Queen; pcolor := pcolor p |})
                    (fresh_board_mono _ _ _ _ _ _ Hsub Hnb2) Hwf2 H2)
          as (h4 & Hset4 & Hnb4 & _).
        { exists q. split; [reflexivity|]. split; [|by rewrite lookup_insert_eq].
          apply not_elem_of_dom. eapply lookup_weaken_None; [exact Hq | exact (proj1 Hnb2)]. }
        exists (VRef nl), h4. split; [by rewrite (M_bind_Ok _ _ _ _ _ Hset4)|].
        by exists nl, rls.
      * destruct (Hplain _ _ Hp) as (h3 & Hrun & Hnb3).
        exists (VRef nl), h3. split; [exact Hrun | by exists nl, rls].
    + destruct (Hplain _ _ Hp) as (h3 & Hrun & Hnb3).
      exists (VRef nl), h3. split; [exact Hrun | by exists nl, rls].
  - subst piece. destruct (Hplain VNone None) as (h3 & Hrun & Hnb3); [reflexivity|].
    exists (VRef nl), h3. split; [exact Hrun | by exists nl, rls].
Qed.
End Execute.

End StoreFacts.

(** ** The input of the move executor *)

(** C8: run on a store in which [bv] stands for the board, [make_move]
    changes no object of that store, so [bv] stands for the same board
    afterwards; the board it returns is the one of the value model, and
    every object it is made of is new, none of them one of the input. *)
Theorem make_move_leaves_input h0 bv board r1 c1 r2 c2 :
  wf_board board -> Store.repr_board h0 bv board ->
  in_bounds r1 c1 = true -> in_bounds r2 c2 = true ->
  exists nv h' nb,
    Store.make_move bv ((r1, c1), (r2, c2)) h0 = Ok (nv, h') /\
    make_move board ((r1, c1), (r2, c2)) = Ok nb /\
    Store.repr_board h' nv nb /\
    h0 ⊆ h' /\
    Store.repr_board h' bv board /\
    (forall l, Store.reachable h' nv l -> l ∉ dom h0) /\
    (forall l, Store.reachable h' nv l -> ~ Store.reachable h' bv l).
Proof.
  intros Hwf Hrepr H1 H2.
  pose proof (StoreFacts.make_move_fresh h0 bv board Hwf Hrepr r1 c1 r2 c2 H1 H2) as Hrun.
  apply StoreFacts.runs_Ok in Hrun. destruct Hrun as (nv & h' & Hrun & nl & rls & -> & Hnb).
  exists (Store.VRef nl), h'. eexists.
  split; [exact Hrun|]. split; [by apply make_move_upd|].
  split; [by eapply StoreFacts.fresh_board_repr|].
  pose proof (proj1 Hnb) as Hsub.
  pose proof (StoreFacts.repr_board_mono _ _ _ _ Hsub Hrepr) as Hrepr'.
  split; [exact Hsub|]. split; [exact Hrepr'|].
  assert (forall l, Store.reachable h' (Store.VRef nl) l -> l ∉ dom h0) as Hnew
    by (intros l; by eapply StoreFacts.fresh_board_reachable).
  split; [exact Hnew|].
  intros l Hl Hold. apply (Hnew l Hl).
  by eapply StoreFacts.repr_board_reachable.
Qed.

Lemma rook_store_repr : Store.repr_board rook_store (Store.VRef 1) corner_rook.
Proof.
  exists 1%positive, (Store.VRef <$> [2; 3; 4; 5; 6; 7; 8; 9]%positive).
  split; [reflexivity|]. split; [by vm_compute|].
  let rows := eval vm_compute in corner_rook in change corner_rook with rows.
  cbn [fmap list_fmap].
  repeat (constructor; [eexists _, _; split; [reflexivity|]; split; [by vm_compute|]|]).
  all: repeat (constructor; [first [reflexivity | by eexists]|]); constructor.
Qed.

(** The rook of [rook_store] moved from corner to corner. *)
Lemma make_move_leaves_input_witness :
  wf_board corner_rook /\ Store.repr_board rook_store (Store.VRef 1) corner_rook /\
  in_bounds 7 0 = true /\ in_bounds 0 0 = true /\
  exists nv h' nb,
    Store.make_move (Store.VRef 1) ((7, 0), (0, 0)) rook_store = Ok (nv, h') /\
    make_move corner_rook ((7, 0), (0, 0)) = Ok nb /\
    Store.repr_board h' nv nb /\
    rook_store ⊆ h' /\
    Store.repr_board h' (Store.VRef 1) corner_rook /\
    (forall l, Store.reachable h' nv l -> l ∉ dom rook_store) /\
    (forall l, Store.reachable h' nv l -> ~ Store.reachable h' (Store.VRef 1) l).
Proof.
  assert (wf_board corner_rook) as Hwf by (apply wf_board_of; by repeat constructor).
  split; [exact Hwf|]. split; [exact rook_store_repr|].
  split; [reflexivity|]. split; [reflexivity|].
  apply make_move_leaves_input; [exact Hwf | exact rook_store_repr | reflexivity | reflexivity].
Defined.

(** * Further properties *)

(** ** Pixels and squares *)

Lemma SQUARE_eq : SQUARE = 80.
Proof. reflexivity. Qed.

Lemma pos_from_mouse_Some x y s :
  pos_from_mouse (x, y) = Some s <-> sq_in_bounds s /\ pixel_in_square x y s.
Proof.
  unfold pos_from_mouse, sq_in_bounds, pixel_in_square. rewrite SQUARE_eq.
  destruct s as [r c]. simpl. unfold HEIGHT.
  pose proof (Z.div_mod x 80 ltac:(lia)) as Hx.
  pose proof (Z.mod_pos_bound x 80 ltac:(lia)) as Hx'.
  pose proof (Z.div_mod y 80 ltac:(lia)) as Hy.
  pose proof (Z.mod_pos_bound y 80 ltac:(lia)) as Hy'.
  case_bool_decide as Hh.
  - split; [discriminate|]. rewrite in_bounds_iff. lia.
  - destruct (in_bounds (y `div` 80) (x `div` 80)) eqn:Hb.
    + split.
      * intros [= <- <-]. split; [exact Hb|]. lia.
      * intros [_ Hpix]. f_equal. f_equal; nia.
    + split; [discriminate|]. intros [Hb' Hpix].
      assert (r = y `div` 80) as -> by nia.
      assert (c = x `div` 80) as -> by nia. congruence.
Qed.

(** X1: [pos_from_mouse] answers a square exactly for the pixels of the
    640 by 640 window, and the square it answers is the one of the board
    that contains the pixel. *)
Theorem pos_from_mouse_window x y :
  (is_Some (pos_from_mouse (x, y)) <-> 0 <= x < WIDTH /\ 0 <= y < HEIGHT) /\
  (forall s, pos_from_mouse (x, y) = Some s <->
             in_bounds s.1 s.2 = true /\ pixel_in_square x y s).
Proof.
  split; [|intros s; apply pos_from_mouse_Some].
  split.
  - intros [s Hs]. apply pos_from_mouse_Some in Hs. destruct Hs as [Hb Hpix].
    unfold sq_in_bounds in Hb. apply in_bounds_iff in Hb.
    unfold pixel_in_square in Hpix. rewrite SQUARE_eq in Hpix.
    unfold WIDTH, HEIGHT. lia.
  - intros [Hx Hy]. exists (y `div` 80, x `div` 80). apply pos_from_mouse_Some.
    unfold sq_in_bounds, pixel_in_square, WIDTH, HEIGHT in *. rewrite SQUARE_eq. simpl.
    pose proof (Z.div_mod x 80 ltac:(lia)).
    pose proof (Z.mod_pos_bound x 80 ltac:(lia)).
    pose proof (Z.div_mod y 80 ltac:(lia)).
    pose proof (Z.mod_pos_bound y 80 ltac:(lia)).
    rewrite in_bounds_iff. lia.
Qed.

(** X2: the outline [draw_selection] draws around a square of the board
    covers exactly the pixels that [pos_from_mouse] maps to that square. *)
Theorem draw_selection_pixels r c :
  in_bounds r c = true ->
  exists color rect width,
    draw_selection (Some (r, c)) = [draw_rect color rect width] /\
    forall x y, pixel_in_rect x y rect <-> pos_from_mouse (x, y) = Some (r, c).
Proof.
  intros Hb. do 3 eexists. split; [reflexivity|].
  intros x y. rewrite pos_from_mouse_Some.
  unfold pixel_in_rect, pixel_in_square, sq_in_bounds. simpl. rewrite SQUARE_eq.
  split; [intros Hpix; split; [exact Hb | lia] | intros [_ Hpix]; lia].
Qed.

(** The outline of the square in the bottom right corner. *)
Lemma draw_selection_pixels_witness :
  in_bounds 7 7 = true /\
  exists color rect width,
    draw_selection (Some (7, 7)) = [draw_rect color rect width] /\
    forall x y, pixel_in_rect x y rect <-> pos_from_mouse (x, y) = Some (7, 7).
Proof. split; [reflexivity | exact (draw_selection_pixels 7 7 eq_refl)]. Defined.

Lemma draw_moves_calls moves from call :
  call ∈ draw_moves moves (Some from) <->
  exists dest, (from, dest) ∈ moves /\
    call = draw_circle MOVE_DOT
             (dest.2 * SQUARE + SQUARE `div` 2, dest.1 * SQUARE + SQUARE `div` 2)
             (Z.max 6 (SQUARE `div` 10)).
Proof.
  destruct from as [fr fc]. unfold draw_moves. rewrite list_elem_of_bind. split.
  - intros ([[r1 c1] [r2 c2]] & Hcall & Hin). case_bool_decide as Hne.
    + by apply elem_of_nil in Hcall.
    + apply list_elem_of_singleton in Hcall. exists (r2, c2).
      assert ((r1, c1) = (fr, fc)) as <- by (by destruct (decide ((r1, c1) = (fr, fc)))).
      by split.
  - intros ([r2 c2] & Hin & ->). exists ((fr, fc), (r2, c2)). split; [|exact Hin].
    rewrite bool_decide_eq_false_2 by (intros Hne; by apply Hne).
    by apply list_elem_of_singleton.
Qed.


(** ** More on the move executor *)

(** X4: on a board of 8 by 8 squares, [make_move] returns a board of 8 by
    8 squares on which every square other than the two of the move holds
    what it held before. *)
Theorem make_move_other_squares board r1 c1 r2 c2 :
  wf_board board -> in_bounds r1 c1 = true -> in_bounds r2 c2 = true ->
  exists nb,
    make_move board ((r1, c1), (r2, c2)) = Ok nb /\ wf_board nb /\
    forall r c, in_bounds r c = true -> (r, c) <> (r1, c1) -> (r, c) <> (r2, c2) ->
                getp nb r c = getp board r c.
Proof.
  intros Hwf H1 H2. eexists. split; [by apply make_move_upd|].
  pose proof (wf_upd board r1 c1 None Hwf) as Hwf1.
  split; [by apply wf_upd|]. intros r c Hb Hne1 Hne2.
  rewrite getp_upd by assumption. rewrite decide_False by congruence.
  rewrite cell_upd by assumption. rewrite decide_False by congruence.
  symmetry. by apply getp_cell.
Qed.

(** A knight of the initial position comes out; the queen stays. *)
Lemma make_move_other_squares_witness :
  wf_board start_position /\ in_bounds 7 1 = true /\ in_bounds 5 2 = true /\
  exists nb,
    make_move start_position ((7, 1), (5, 2)) = Ok nb /\ wf_board nb /\
    getp nb 7 3 = Ok (Some (mkPiece Queen White)).
Proof.
  split; [exact wf_start_position|]. do 2 (split; [reflexivity|]).
  destruct (make_move_other_squares start_position 7 1 5 2
              wf_start_position eq_refl eq_refl) as (nb & Hnb & Hwf & Hrest).
  exists nb. split; [exact Hnb|]. split; [exact Hwf|].
  rewrite (Hrest 7 3 eq_refl); [reflexivity | discriminate | discriminate].
Defined.

Lemma py_index_wrap i : py_range i -> py_index 8 i = Ok (Z.to_nat (wrap i)).
Proof.
  unfold py_range, py_index, wrap. intros Hi.
  destruct (Z.leb_spec 0 i), (Z.ltb_spec i (Z.of_nat 8)), (Z.ltb_spec i 0),
    (Z.leb_spec (- Z.of_nat 8) i); simpl; try lia; try reflexivity.
  do 2 f_equal. lia.
Qed.

Lemma py_index_out i : ~ py_range i -> py_index 8 i = Raise IndexError.
Proof.
  unfold py_range, py_index. intros Hi.
  destruct (Z.leb_spec 0 i), (Z.ltb_spec i (Z.of_nat 8)), (Z.ltb_spec i 0),
    (Z.leb_spec (- Z.of_nat 8) i); simpl; try lia; reflexivity.
Qed.

Lemma wrap_in_bounds r c : py_range r -> py_range c -> in_bounds (wrap r) (wrap c) = true.
Proof.
  unfold py_range, wrap. intros Hr Hc. apply in_bounds_iff.
  destruct (Z.ltb_spec r 0), (Z.ltb_spec c 0); lia.
Qed.

Lemma getp_wrap board r c :
  wf_board board ->
  getp board r c = if decide (py_range r /\ py_range c)
                   then Ok (cell board (wrap r) (wrap c)) else Raise IndexError.
Proof.
  intros Hwf. unfold getp, py_get. rewrite (proj1 Hwf).
  case_decide as Hrc.
  - destruct Hrc as [Hr Hc]. rewrite (py_index_wrap r Hr), bind_Ok.
    pose proof (wrap_in_bounds r c Hr Hc) as Hb. apply in_bounds_iff in Hb.
    destruct (lookup_lt_is_Some_2 board (Z.to_nat (wrap r))) as [row Hrow];
      [rewrite (proj1 Hwf); lia|].
    rewrite Hrow, bind_Ok, (wf_board_row _ _ _ Hwf Hrow), (py_index_wrap c Hc), bind_Ok.
    unfold cell. rewrite Hrow. simpl.
    destruct (lookup_lt_is_Some_2 row (Z.to_nat (wrap c))) as [x Hx];
      [rewrite (wf_board_row _ _ _ Hwf Hrow); lia|].
    by rewrite Hx.
  - destruct (decide (py_range r)) as [Hr|Hr].
    + rewrite (py_index_wrap r Hr), bind_Ok.
      assert (0 <= wrap r < 8) as Hb
        by (unfold py_range, wrap in *; destruct (Z.ltb_spec r 0); lia).
      destruct (lookup_lt_is_Some_2 board (Z.to_nat (wrap r))) as [row Hrow];
        [rewrite (proj1 Hwf); lia|].
      rewrite Hrow, bind_Ok, (wf_board_row _ _ _ Hwf Hrow).
      rewrite py_index_out by tauto. reflexivity.
    + by rewrite py_index_out.
Qed.

Lemma setp_wrap board r c v :
  wf_board board ->
  setp board r c v = if decide (py_range r /\ py_range c)
                     then Ok (upd board (wrap r) (wrap c) v) else Raise IndexError.
Proof.
  intros Hwf. case_decide as Hrc.
  - destruct Hrc as [Hr Hc].
    pose proof (wrap_in_bounds r c Hr Hc) as Hb.
    rewrite <- (setp_upd _ _ _ _ Hwf Hb).
    unfold setp, py_get, py_set. rewrite (proj1 Hwf), !(py_index_wrap r Hr), !bind_Ok.
    apply in_bounds_iff in Hb.
    rewrite !py_index_in by (rewrite ?(proj1 Hwf); lia). rewrite !bind_Ok.
    destruct (lookup_lt_is_Some_2 board (Z.to_nat (wrap r))) as [row Hrow];
      [rewrite (proj1 Hwf); lia|].
    rewrite Hrow, !bind_Ok, (wf_board_row _ _ _ Hwf Hrow), (py_index_wrap c Hc).
    rewrite py_index_in by lia. reflexivity.
  - unfold setp, py_get, py_set. rewrite (proj1 Hwf).
    destruct (decide (py_range r)) as [Hr|Hr].
    + rewrite (py_index_wrap r Hr), bind_Ok.
      assert (0 <= wrap r < 8) as Hb
        by (unfold py_range, wrap in *; destruct (Z.ltb_spec r 0); lia).
      destruct (lookup_lt_is_Some_2 board (Z.to_nat (wrap r))) as [row Hrow];
        [rewrite (proj1 Hwf); lia|].
      rewrite Hrow, bind_Ok, (wf_board_row _ _ _ Hwf Hrow).
      rewrite py_index_out by tauto. reflexivity.
    + by rewrite py_index_out.
Qed.

Lemma make_move_wrap board r1 c1 r2 c2 :
  wf_board board ->
  make_move board ((r1, c1), (r2, c2)) =
  if decide ((py_range r1 /\ py_range c1) /\ (py_range r2 /\ py_range c2))
  then Ok (upd (upd board (wrap r1) (wrap c1) None) (wrap r2) (wrap c2)
             (arrival (cell board (wrap r1) (wrap c1)) r2))
  else Raise IndexError.
Proof.
  intros Hwf. unfold make_move. rewrite (deep_copy_board_id _ Hwf), bind_Ok.
  rewrite (getp_wrap _ r1 c1 Hwf), (setp_wrap _ r1 c1 None Hwf).
  destruct (decide (py_range r1 /\ py_range c1)) as [H1|H1].
  2: { rewrite decide_False by tauto. reflexivity. }
  rewrite !bind_Ok.
  pose proof (wf_upd board (wrap r1) (wrap c1) None Hwf) as Hwf1.
  pose proof (fun v => setp_wrap _ r2 c2 v Hwf1) as Hset.
  destruct (decide (py_range r2 /\ py_range c2)) as [H2|H2].
  - rewrite decide_True by tauto. unfold arrival.
    destruct (cell board (wrap r1) (wrap c1)) as [p|]; [|by rewrite Hset].
    destruct (bool_decide (ptype p = Pawn)); [|by rewrite Hset]. simpl.
    replace (if bool_decide (pcolor p = White) then 0 else 7) with (back_rank (pcolor p))
      by (by destruct (pcolor p)).
    by destruct (bool_decide (r2 = back_rank (pcolor p))); rewrite Hset.
  - rewrite decide_False by tauto.
    destruct (cell board (wrap r1) (wrap c1)) as [p|]; [|by rewrite Hset].
    destruct (bool_decide (ptype p = Pawn)); [|by rewrite Hset].
    by destruct (bool_decide (r2 = _)); rewrite Hset.
Qed.

(** X5: on a board of 8 by 8 squares, [make_move] raises [IndexError]
    exactly when a coordinate of the move is outside the range from -8 to
    7 that Python accepts as an index, and returns a board of 8 by 8
    squares otherwise. *)
Theorem make_move_index_error board r1 c1 r2 c2 :
  wf_board board ->
  (make_move board ((r1, c1), (r2, c2)) = Raise IndexError <->
   ~ (py_range r1 /\ py_range c1 /\ py_range r2 /\ py_range c2)) /\
  (py_range r1 /\ py_range c1 /\ py_range r2 /\ py_range c2 ->
   exists nb, make_move board ((r1, c1), (r2, c2)) = Ok nb /\ wf_board nb).
Proof.
  intros Hwf. rewrite (make_move_wrap _ _ _ _ _ Hwf).
  case_decide as Hr; split.
  - split; [discriminate | tauto].
  - intros _. eexists. split; [reflexivity|]. by do 2 apply wf_upd.
  - split; [tauto | reflexivity].
  - tauto.
Qed.

(** A move to rank 8 of the initial position. *)
Lemma make_move_index_error_witness :
  wf_board start_position /\
  make_move start_position ((6, 0), (8, 0)) = Raise IndexError.
Proof.
  split; [exact wf_start_position|].
  apply (make_move_index_error start_position 6 0 8 0 wf_start_position).
  unfold py_range. lia.
Defined.

Lemma arrival_king color o r2 :
  is_king_of color (arrival o r2) = true -> is_king_of color o = true.
Proof.
  unfold arrival. destruct o as [p|]; [|done].
  destruct (bool_decide (ptype p = Pawn) && bool_decide (r2 = back_rank (pcolor p)));
    [discriminate | done].
Qed.

Lemma make_move_cell board r1 c1 r2 c2 r c :
  wf_board board -> in_bounds r1 c1 = true -> in_bounds r2 c2 = true ->
  in_bounds r c = true ->
  cell (upd (upd board r1 c1 None) r2 c2 (arrival (cell board r1 c1) r2)) r c =
  if decide ((r2, c2) = (r, c)) then arrival (cell board r1 c1) r2
  else if decide ((r1, c1) = (r, c)) then None else cell board r c.
Proof.
  intros Hwf H1 H2 Hb. pose proof (wf_upd board r1 c1 None Hwf) as Hwf1.
  rewrite cell_upd by assumption. case_decide; [reflexivity|].
  by rewrite cell_upd.
Qed.

Lemma make_move_one_king board color r1 c1 r2 c2 :
  wf_board board -> in_bounds r1 c1 = true -> in_bounds r2 c2 = true ->
  one_king board color ->
  exists nb, make_move board ((r1, c1), (r2, c2)) = Ok nb /\ one_king nb color.
Proof.
  intros Hwf H1 H2 Hone. eexists. split; [by apply make_move_upd|].
  pose proof (wf_upd _ r2 c2 (arrival (cell board r1 c1) r2)
                (wf_upd board r1 c1 None Hwf)) as Hwfnb.
  assert (forall r c, in_bounds r c = true ->
            is_king_of color
              (cell (upd (upd board r1 c1 None) r2 c2 (arrival (cell board r1 c1) r2)) r c)
            = true ->
            (r, c) <> (r2, c2) -> king_at board color (r, c) /\ (r, c) <> (r1, c1)) as Hold.
  { intros r c Hb Hk Hne. rewrite make_move_cell in Hk by assumption.
    rewrite decide_False in Hk by congruence.
    case_decide as Hfrom; [discriminate|].
    split; [by apply king_at_cell | congruence]. }
  assert (is_king_of color (arrival (cell board r1 c1) r2) = true ->
          king_at board color (r1, c1)) as Hmoved.
  { intros Hk. apply king_at_cell; [exact Hwf | exact H1 |]. by eapply arrival_king. }
  intros [r c] [r' c'] Hs Ht.
  pose proof Hs as [Hb _]. pose proof Ht as [Hb' _]. unfold sq_in_bounds in Hb, Hb'.
  simpl in Hb, Hb'.
  apply king_at_cell in Hs; [|exact Hwfnb|exact Hb].
  apply king_at_cell in Ht; [|exact Hwfnb|exact Hb'].
  destruct (decide ((r, c) = (r2, c2))) as [Heq|Hne];
    destruct (decide ((r', c') = (r2, c2))) as [Heq'|Hne'].
  - congruence.
  - destruct (Hold r' c' Hb' Ht Hne') as [Hk' Hne1].
    rewrite make_move_cell, decide_True in Hs by (assumption || congruence).
    destruct Hne1. symmetry. apply Hone; [by apply Hmoved | exact Hk'].
  - destruct (Hold r c Hb Hs Hne) as [Hk Hne1].
    rewrite make_move_cell, decide_True in Ht by (assumption || congruence).
    destruct Hne1. symmetry. apply Hone; [by apply Hmoved | exact Hk].
  - apply Hone; [by apply (Hold r c) | by apply (Hold r' c')].
Qed.

(** X6: [make_move] makes no king: if the board has at most one king of a
    color, so has the board after the move. *)
Theorem make_move_keeps_one_king board color r1 c1 r2 c2 :
  wf_board board -> in_bounds r1 c1 = true -> in_bounds r2 c2 = true ->
  one_king board color ->
  exists nb, make_move board ((r1, c1), (r2, c2)) = Ok nb /\ one_king nb color.
Proof. exact (make_move_one_king board color r1 c1 r2 c2). Qed.

Lemma one_king_start_position color : one_king start_position color.
Proof.
  intros [r c] [r' c'] [Hb Hk] [Hb' Hk']. unfold sq_in_bounds in Hb, Hb'. simpl in *.
  apply in_bounds_iff in Hb, Hb'.
  destruct Hk as (p & Hp & Ht & Hc), Hk' as (p' & Hp' & Ht' & Hc').
  assert (forall r c p, 0 <= r < 8 /\ 0 <= c < 8 ->
            getp start_position r c = Ok (Some p) -> ptype p = King ->
            c = 4 /\ (r = 0 \/ r = 7) /\ (r = 0 -> pcolor p = Black) /\
            (r = 7 -> pcolor p = White)) as Hking.
  { clear. intros r c p [Hr Hc] Hp Ht.
    assert (r = 0 \/ r = 1 \/ r = 2 \/ r = 3 \/ r = 4 \/ r = 5 \/ r = 6 \/ r = 7) as Hr' by lia.
    assert (c = 0 \/ c = 1 \/ c = 2 \/ c = 3 \/ c = 4 \/ c = 5 \/ c = 6 \/ c = 7) as Hc' by lia.
    destruct Hr' as [->|[->|[->|[->|[->|[->|[->| ->]]]]]]];
      destruct Hc' as [->|[->|[->|[->|[->|[->|[->| ->]]]]]]];
      vm_compute in Hp; try discriminate Hp; injection Hp as <-; try discriminate Ht;
      repeat split; try lia; try reflexivity; try discriminate. }
  destruct (Hking r c p Hb Hp Ht) as (-> & Hr & H0 & H7).
  destruct (Hking r' c' p' Hb' Hp' Ht') as (-> & Hr' & H0' & H7').
  f_equal. destruct Hr as [->| ->], Hr' as [->| ->]; try reflexivity.
  - specialize (H0 eq_refl). specialize (H7' eq_refl). congruence.
  - specialize (H7 eq_refl). specialize (H0' eq_refl). congruence.
Qed.

(** The first move of a white pawn. *)
Lemma make_move_keeps_one_king_witness :
  wf_board start_position /\ in_bounds 6 4 = true /\ in_bounds 4 4 = true /\
  one_king start_position White /\
  exists nb, make_move start_position ((6, 4), (4, 4)) = Ok nb /\ one_king nb White.
Proof.
  split; [exact wf_start_position|]. do 2 (split; [reflexivity|]).
  split; [exact (one_king_start_position White)|].
  exact (make_move_keeps_one_king start_position White 6 4 4 4
           wf_start_position eq_refl eq_refl (one_king_start_position White)).
Defined.

(** ** More on the copy of a board *)

Lemma for_each_Ok_elem {A St} (xs : list A) (body : A -> St -> res St) s s' :
  for_each xs body s = Ok s' -> forall x, x ∈ xs -> exists t t', body x t = Ok t'.
Proof.
  revert s. induction xs as [|y xs IH]; intros s Hrun x Hx.
  - by apply elem_of_nil in Hx.
  - simpl in Hrun. destruct (body y s) as [t|e] eqn:Hy; [|discriminate].
    apply elem_of_cons in Hx as [->|Hx]; [by exists s, t|].
    by apply (IH t).
Qed.

Lemma for_each_Raise_elem {A St} (xs : list A) (body : A -> St -> res St) s e :
  for_each xs body s = Raise e -> exists x t, x ∈ xs /\ body x t = Raise e.
Proof.
  revert s. induction xs as [|y xs IH]; intros s Hrun; [discriminate|].
  simpl in Hrun. destruct (body y s) as [t|e'] eqn:Hy.
  - destruct (IH t Hrun) as (x & t' & Hx & Hbody). exists x, t'. split; [by right | exact Hbody].
  - injection Hrun as ->. exists y, s. split; [by left | exact Hy].
Qed.

Lemma py_get_Raise {A} (l : list A) i e : py_get l i = Raise e -> e = IndexError.
Proof.
  unfold py_get, py_index. repeat case_match; simpl; repeat case_match; congruence.
Qed.

Lemma getp_Raise board r c e : getp board r c = Raise e -> e = IndexError.
Proof.
  unfold getp. destruct (py_get board r) as [row|e'] eqn:Hrow; simpl.
  - apply py_get_Raise.
  - intros [= <-]. by eapply py_get_Raise.
Qed.

Lemma setp_Raise board r c v e : setp board r c v = Raise e -> e = IndexError.
Proof.
  unfold setp. destruct (py_get board r) as [row|e'] eqn:Hrow; simpl.
  - unfold py_set, py_index. repeat case_match; simpl; congruence.
  - intros [= <-]. by eapply py_get_Raise.
Qed.

Lemma py_get_Ok_lookup {A} (l : list A) i x :
  0 <= i -> py_get l i = Ok x -> l !! Z.to_nat i = Some x.
Proof.
  intros Hi. unfold py_get, py_index.
  destruct (Z.leb_spec 0 i); [|lia].
  destruct (Z.ltb_spec i (Z.of_nat (length l))); simpl.
  - destruct (l !! Z.to_nat i); [congruence | discriminate].
  - destruct (Z.leb_spec (- Z.of_nat (length l)) i), (Z.ltb_spec i 0);
      simpl; (lia || discriminate).
Qed.

Lemma getp_covers board r c :
  covers board -> in_bounds r c = true -> getp board r c = Ok (cell board r c).
Proof.
  intros [Hlen Hrows] Hb. apply in_bounds_iff in Hb. unfold getp, cell.
  destruct (py_get_in board r) as (row & Hrow & ->); [lia|].
  rewrite bind_Ok, Hrow. simpl.
  pose proof (Hrows (Z.to_nat r) row ltac:(lia) Hrow).
  destruct (py_get_in row c) as (x & Hx & ->); [lia|]. by rewrite Hx.
Qed.

Lemma wf_crop board : covers board -> wf_board (crop board).
Proof.
  intros [Hlen Hrows]. unfold crop. split.
  - rewrite length_fmap, length_take. lia.
  - apply Forall_fmap, Forall_lookup. intros i row Hrow. simpl.
    apply lookup_take_Some in Hrow. destruct Hrow as [Hrow Hi].
    rewrite length_take. pose proof (Hrows i row Hi Hrow). lia.
Qed.

Lemma cell_crop board r c :
  in_bounds r c = true -> cell (crop board) r c = cell board r c.
Proof.
  intros Hb. apply in_bounds_iff in Hb. unfold cell, crop.
  rewrite list_lookup_fmap, lookup_take_lt by lia.
  destruct (board !! Z.to_nat r) as [row|]; [|reflexivity]. simpl.
  by rewrite lookup_take_lt by lia.
Qed.

Lemma crop_wf board : wf_board board -> crop board = board.
Proof.
  intros Hwf. apply board_ext; [apply wf_crop | exact Hwf | intros r c; apply cell_crop].
  split; [rewrite (proj1 Hwf); lia|].
  intros i row _ Hrow. rewrite (wf_board_row _ _ _ Hwf Hrow). lia.
Qed.

Lemma deep_copy_board_crop board :
  covers board -> deep_copy_board board = Ok (crop board).
Proof.
  intros Hcov.
  assert (returns (deep_copy_board board) (fun nb =>
            wf_board nb /\
            forall r c, in_bounds r c = true -> cell nb r c = cell board r c)) as H.
  { unfold deep_copy_board.
    eapply returns_mono.
    - apply (for_each_range (fun i nb => wf_board nb /\
               forall r c, in_bounds r c = true -> r < i -> cell nb r c = cell board r c)).
      { split; [apply wf_empty_board|]. intros r c Hb Hr. apply in_bounds_iff in Hb. lia. }
      intros r nb Hr [Hnb Hdone].
      eapply returns_mono.
      + apply (for_each_range (fun j nb' => wf_board nb' /\
                 forall r' c', in_bounds r' c' = true -> r' < r \/ (r' = r /\ c' < j) ->
                               cell nb' r' c' = cell board r' c')).
        { split; [exact Hnb|]. intros r' c' Hb [Hlt|[_ Hlt]]; [by apply Hdone|].
          apply in_bounds_iff in Hb. lia. }
        intros c nb' Hc [Hnb' Hdone'].
        assert (in_bounds r c = true) as Hrc by (apply in_bounds_iff; lia).
        rewrite (getp_covers _ _ _ Hcov Hrc), bind_Ok.
        assert (forall v, v = cell board r c ->
                  returns (setp nb' r c v) (fun nb'' => wf_board nb'' /\
                    forall r' c', in_bounds r' c' = true ->
                                  r' < r \/ (r' = r /\ c' < c + 1) ->
                                  cell nb'' r' c' = cell board r' c')) as Hset.
        { intros v ->. rewrite (setp_upd _ _ _ _ Hnb' Hrc). simpl.
          split; [by apply wf_upd|]. intros r' c' Hb' Hlt.
          rewrite (cell_upd _ _ _ _ _ _ Hnb' Hrc Hb').
          destruct (decide ((r, c) = (r', c'))) as [Heq|Hne];
            [injection Heq as <- <-; reflexivity|].
          apply Hdone'; [exact Hb'|].
          destruct Hlt as [Hlt|[-> Hlt]]; [by left | right].
          split; [reflexivity|]. assert (c' <> c) by congruence. lia. }
        destruct (cell board r c) as [p|]; apply Hset;
          [by rewrite copy_piece_id | reflexivity].
      + intros nb' [Hnb' Hcells]. split; [exact Hnb'|]. intros r' c' Hb Hlt.
        apply Hcells; [exact Hb|]. apply in_bounds_iff in Hb. lia.
    - intros nb [Hnb Hcells]. split; [exact Hnb|]. intros r c Hb.
      apply Hcells; [exact Hb|]. apply in_bounds_iff in Hb. lia. }
  apply returns_Ok in H. destruct H as (nb & -> & Hnb & Hcells).
  f_equal. apply board_ext; [exact Hnb | by apply wf_crop |].
  intros r c Hb. by rewrite cell_crop, Hcells.
Qed.

Lemma deep_copy_board_Ok_covers board nb :
  deep_copy_board board = Ok nb -> covers board.
Proof.
  intros Hrun.
  assert (forall r c, 0 <= r < 8 -> 0 <= c < 8 -> exists o, getp board r c = Ok o) as Hget.
  { intros r c Hr Hc.
    destruct (for_each_Ok_elem _ _ _ _ Hrun r) as (t & t' & Hrow);
      [apply elem_of_seqZ; unfold ROWS; lia|].
    destruct (for_each_Ok_elem _ _ _ _ Hrow c) as (u & u' & Hsq);
      [apply elem_of_seqZ; unfold COLS; lia|].
    destruct (getp board r c) as [o|]; [by exists o | discriminate]. }
  assert (forall i j, (i < 8)%nat -> (j < 8)%nat ->
            exists row, board !! i = Some row /\ (j < length row)%nat) as Hrows.
  { intros i j Hi Hj. destruct (Hget (Z.of_nat i) (Z.of_nat j)) as [o Ho]; [lia | lia |].
    unfold getp in Ho. destruct (py_get board (Z.of_nat i)) as [row|] eqn:Hrow; [|discriminate].
    rewrite bind_Ok in Ho.
    apply py_get_Ok_lookup in Hrow; [|lia]. apply py_get_Ok_lookup in Ho; [|lia].
    rewrite Nat2Z.id in Hrow, Ho. exists row. split; [exact Hrow|].
    by eapply lookup_lt_Some. }
  split.
  - destruct (Hrows 7%nat 0%nat) as (row & Hrow & _); [lia | lia |].
    apply lookup_lt_Some in Hrow. lia.
  - intros i row Hi Hrow. destruct (Hrows i 7%nat Hi) as (row' & Hrow' & Hlen); [lia|].
    assert (row' = row) as -> by congruence. lia.
Qed.

Lemma deep_copy_board_Raise board e : deep_copy_board board = Raise e -> e = IndexError.
Proof.
  intros Hrun. apply for_each_Raise_elem in Hrun. destruct Hrun as (r & t & _ & Hrow).
  apply for_each_Raise_elem in Hrow. destruct Hrow as (c & u & _ & Hsq).
  destruct (getp board r c) as [o|e'] eqn:Hget.
  - rewrite bind_Ok in Hsq. destruct o; by eapply setp_Raise.
  - injection Hsq as <-. by eapply getp_Raise.
Qed.

(** X7: [deep_copy_board] returns the 8 by 8 squares in the top left corner
    of a grid that has them, which is the board itself for a board of 8
    by 8 squares, and raises [IndexError] for a grid that lacks one of
    them. *)
Theorem deep_copy_board_result board :
  (covers board -> deep_copy_board board = Ok (crop board)) /\
  (wf_board board -> deep_copy_board board = Ok board) /\
  (~ covers board -> deep_copy_board board = Raise IndexError).
Proof.
  split; [apply deep_copy_board_crop|]. split.
  - intros Hwf. rewrite <- (crop_wf board Hwf) at 2. apply deep_copy_board_crop.
    split; [rewrite (proj1 Hwf); lia|].
    intros i row _ Hrow. rewrite (wf_board_row _ _ _ Hwf Hrow). lia.
  - intros Hno. destruct (deep_copy_board board) as [nb|e] eqn:Hrun.
    + destruct Hno. by eapply deep_copy_board_Ok_covers.
    + f_equal. by eapply deep_copy_board_Raise.
Qed.

(** The copy of the initial position, and of a grid with no row. *)
Lemma deep_copy_board_result_witness :
  wf_board start_position /\ deep_copy_board start_position = Ok start_position /\
  ~ covers [] /\ deep_copy_board [] = Raise IndexError.
Proof.
  split; [exact wf_start_position|].
  split; [exact (proj1 (proj2 (deep_copy_board_result start_position)) wf_start_position)|].
  assert (~ covers []) as Hno by (intros [Hlen _]; simpl in Hlen; lia).
  split; [exact Hno | exact (proj2 (proj2 (deep_copy_board_result [])) Hno)].
Defined.

(** ** What the loops collect *)

(** A loop whose turns add to a collection adds what its turns add. *)
Lemma for_each_collect {A St B} (mem : B -> St -> Prop) (Q : A -> B -> Prop)
    (xs : list A) (body : A -> St -> res St) s :
  (forall x s, x ∈ xs ->
     returns (body x s) (fun s' => forall y, mem y s' <-> mem y s \/ Q x y)) ->
  returns (for_each xs body s)
          (fun s' => forall y, mem y s' <-> mem y s \/ exists x, x ∈ xs /\ Q x y).
Proof.
  revert s. induction xs as [|x xs IH]; intros s Hbody; simpl.
  - intros y. split; [by left|]. intros [Hy|(x & Hx & _)]; [exact Hy|].
    by apply elem_of_nil in Hx.
  - eapply returns_bind; [apply Hbody; by left|]. intros s1 H1.
    eapply returns_mono; [apply IH; intros z t Hz; apply Hbody; by right|].
    intros s2 H2 y. pose proof (H2 y) as H2y. pose proof (H1 y) as H1y.
    simpl in H2y, H1y. split.
    + intros Hy. apply H2y in Hy. destruct Hy as [Hy|(z & Hz & Hq)].
      * apply H1y in Hy. destruct Hy as [Hy|Hq]; [by left|].
        right. exists x. split; [by left | exact Hq].
      * right. exists z. split; [by right | exact Hq].
    + intros [Hy|(z & Hz & Hq)]; apply H2y.
      * left. apply H1y. by left.
      * apply elem_of_cons in Hz. destruct Hz as [->|Hz].
        -- left. apply H1y. by right.
        -- right. by exists z.
Qed.

Lemma in_bounds_false r c : in_bounds r c = false <-> ~ (0 <= r < 8 /\ 0 <= c < 8).
Proof. rewrite <- in_bounds_iff. destruct (in_bounds r c); split; congruence. Qed.

Lemma elem_of_range i : i ∈ range 8 <-> 0 <= i < 8.
Proof. unfold range. rewrite elem_of_seqZ. lia. Qed.

Lemma ray_sees_out board dr dc rr cc t :
  in_bounds rr cc = false -> ~ ray_sees board dr dc rr cc t.
Proof.
  intros Hb (k & Hk & -> & Hin & Hpath). simpl in Hin.
  destruct (decide (k = 0)) as [->|Hne].
  - rewrite !Z.mul_0_l, !Z.add_0_r in Hin. congruence.
  - destruct (Hpath 0 ltac:(lia)) as [Hin0 _].
    rewrite !Z.mul_0_l, !Z.add_0_r in Hin0. congruence.
Qed.

Lemma ray_sees_blocked board dr dc rr cc q t :
  in_bounds rr cc = true -> cell board rr cc = Some q ->
  ray_sees board dr dc rr cc t <-> t = (rr, cc).
Proof.
  intros Hb Hq. split.
  - intros (k & Hk & -> & Hin & Hpath).
    destruct (decide (k = 0)) as [->|Hne].
    + by rewrite !Z.mul_0_l, !Z.add_0_r.
    + destruct (Hpath 0 ltac:(lia)) as [_ Hnone].
      rewrite !Z.mul_0_l, !Z.add_0_r in Hnone. congruence.
  - intros ->. exists 0. split; [lia|]. rewrite !Z.mul_0_l, !Z.add_0_r.
    split; [reflexivity|]. split; [exact Hb|]. intros j Hj. lia.
Qed.

Lemma ray_sees_open board dr dc rr cc t :
  in_bounds rr cc = true -> cell board rr cc = None ->
  ray_sees board dr dc rr cc t <->
  t = (rr, cc) \/ ray_sees board dr dc (rr + dr) (cc + dc) t.
Proof.
  intros Hb Hnone. split.
  - intros (k & Hk & -> & Hin & Hpath).
    destruct (decide (k = 0)) as [->|Hne].
    + left. by rewrite !Z.mul_0_l, !Z.add_0_r.
    + right. exists (k - 1). split; [lia|]. split; [f_equal; lia|].
      split; [exact Hin|]. intros j Hj.
      replace (rr + dr + j * dr) with (rr + (j + 1) * dr) by lia.
      replace (cc + dc + j * dc) with (cc + (j + 1) * dc) by lia.
      apply Hpath. lia.
  - intros [->|(k & Hk & -> & Hin & Hpath)].
    + exists 0. split; [lia|]. rewrite !Z.mul_0_l, !Z.add_0_r.
      split; [reflexivity|]. split; [exact Hb|]. intros j Hj. lia.
    + exists (k + 1). split; [lia|]. split; [f_equal; lia|].
      split; [exact Hin|]. intros j Hj.
      destruct (decide (j = 0)) as [->|Hne].
      * by rewrite !Z.mul_0_l, !Z.add_0_r.
      * replace (rr + j * dr) with (rr + dr + (j - 1) * dr) by lia.
        replace (cc + j * dc) with (cc + dc + (j - 1) * dc) by lia.
        apply Hpath. lia.
Qed.

Lemma ray_sees_slides board r c dr dc t :
  ray_sees board dr dc (r + dr) (c + dc) t <->
  in_bounds t.1 t.2 = true /\
  exists k, 1 <= k /\ t.1 = r + k * dr /\ t.2 = c + k * dc /\ clear_path board r c dr dc k.
Proof.
  split.
  - intros (k & Hk & -> & Hin & Hpath). split; [exact Hin|].
    exists (k + 1). simpl. split; [lia|]. split; [lia|]. split; [lia|].
    intros j Hj.
    replace (r + j * dr) with (r + dr + (j - 1) * dr) by lia.
    replace (c + j * dc) with (c + dc + (j - 1) * dc) by lia.
    apply Hpath. lia.
  - intros (Hin & k & Hk & Hr & Hc & Hpath). exists (k - 1). split; [lia|].
    split; [destruct t; simpl in *; f_equal; lia|]. split; [exact Hin|].
    intros j Hj.
    replace (r + dr + j * dr) with (r + (j + 1) * dr) by lia.
    replace (c + dc + j * dc) with (c + (j + 1) * dc) by lia.
    apply Hpath. lia.
Qed.

Section Rays.
Variable board : Board.
Hypothesis Hwf : wf_board board.
Variables dr dc : Z.
Hypothesis Hd : unit_dir (dr, dc).

Lemma attack_ray_collect (fuel : nat) (rr cc : Z) (attacked : gset Square) :
  (1 <= fuel)%nat -> steps_left dr dc rr cc < Z.of_nat fuel ->
  returns (attack_ray fuel board dr dc rr cc attacked)
          (fun attacked' => forall s, s ∈ attacked' <->
                                      s ∈ attacked \/ ray_sees board dr dc rr cc s).
Proof using Hwf Hd.
  revert rr cc attacked.
  induction fuel as [|fuel IH]; intros rr cc attacked Hpos Hfuel; [lia|].
  simpl. destruct (in_bounds rr cc) eqn:Hb.
  2: { intros s. split; [by left|]. intros [Hs|Hs]; [exact Hs|].
       by apply ray_sees_out in Hs. }
  rewrite (getp_cell _ _ _ Hwf Hb), bind_Ok.
  pose proof (steps_left_in_bounds dr dc rr cc Hb).
  destruct (cell board rr cc) as [q|] eqn:Hq.
  - intros s. rewrite (ray_sees_blocked _ _ _ _ _ q s Hb Hq).
    rewrite elem_of_union, elem_of_singleton. tauto.
  - eapply returns_mono.
    + apply IH; [lia|]. rewrite steps_left_next by exact Hd. lia.
    + intros attacked' Hatt s. rewrite (Hatt s), (ray_sees_open _ _ _ _ _ s Hb Hq).
      rewrite elem_of_union, elem_of_singleton. tauto.
Qed.

Lemma move_ray_collect (fuel : nat) (color : Color) (r c rr cc : Z) (moves : list Move) :
  (1 <= fuel)%nat -> steps_left dr dc rr cc < Z.of_nat fuel ->
  returns (move_ray fuel board color r c dr dc rr cc moves)
          (fun moves' => forall m, m ∈ moves' <->
             m ∈ moves \/
             exists t, m = ((r, c), t) /\ ray_sees board dr dc rr cc t /\
                       free_or_enemy color (cell board t.1 t.2) = true).
Proof using Hwf Hd.
  revert rr cc moves.
  induction fuel as [|fuel IH]; intros rr cc moves Hpos Hfuel; [lia|].
  simpl. destruct (in_bounds rr cc) eqn:Hb.
  2: { intros m. split; [by left|]. intros [Hm|(t & _ & Ht & _)]; [exact Hm|].
       by apply ray_sees_out in Ht. }
  rewrite (getp_cell _ _ _ Hwf Hb), bind_Ok.
  pose proof (steps_left_in_bounds dr dc rr cc Hb).
  destruct (cell board rr cc) as [q|] eqn:Hq.
  - case_bool_decide as Hcol; intros m; unfold add_move; rewrite ?elem_of_app,
      ?list_elem_of_singleton.
    + split.
      * intros [Hm| ->]; [by left|]. right. exists (rr, cc). split; [reflexivity|].
        split; [by apply (ray_sees_blocked _ _ _ _ _ q)|].
        simpl. rewrite Hq. simpl. by apply bool_decide_eq_true_2.
      * intros [Hm|(t & -> & Ht & _)]; [by left|]. right.
        by apply (ray_sees_blocked _ _ _ _ _ q) in Ht as ->.
    + split; [by left|]. intros [Hm|(t & -> & Ht & Hfree)]; [exact Hm|].
      apply (ray_sees_blocked _ _ _ _ _ q) in Ht; [|exact Hb|exact Hq]. subst t.
      simpl in Hfree. rewrite Hq in Hfree. simpl in Hfree.
      apply bool_decide_eq_true in Hfree. tauto.
  - eapply returns_mono.
    + apply IH; [lia|]. rewrite steps_left_next by exact Hd. lia.
    + intros moves' Hmoves m. rewrite (Hmoves m). unfold add_move.
      rewrite elem_of_app, list_elem_of_singleton. split.
      * intros [[Hm| ->]|(t & -> & Ht & Hfree)].
        -- by left.
        -- right. exists (rr, cc). split; [reflexivity|].
           split; [apply ray_sees_open; auto|]. simpl. by rewrite Hq.
        -- right. exists t. split; [reflexivity|].
           split; [apply ray_sees_open; auto | exact Hfree].
      * intros [Hm|(t & -> & Ht & Hfree)]; [by left; left|].
        apply ray_sees_open in Ht; [|exact Hb|exact Hq].
        destruct Ht as [->|Ht]; [by left; right|].
        right. by exists t.
Qed.
End Rays.

(** ** The attack map, square by square *)

Lemma elem_of_add_if_in_bounds (rr cc : Z) (attacked : gset Square) (s : Square) :
  s ∈ add_if_in_bounds rr cc attacked <->
  s ∈ attacked \/ (s = (rr, cc) /\ in_bounds s.1 s.2 = true).
Proof.
  unfold add_if_in_bounds. destruct (in_bounds rr cc) eqn:Hb.
  - rewrite elem_of_union, elem_of_singleton. split.
    + intros [->|Hs]; [right; by split | by left].
    + intros [Hs|[-> _]]; [by right | by left].
  - split; [by left|]. intros [Hs|[-> Hin]]; [exact Hs|]. simpl in Hin. congruence.
Qed.

Lemma offset_eq (r c dr dc : Z) (s : Square) :
  s = (r + dr, c + dc) <-> (s.1 - r, s.2 - c) = (dr, dc).
Proof.
  destruct s as [rr cc]. simpl. split; intros [= ? ?]; f_equal; lia.
Qed.

Lemma attack_rays_collect (board : Board) (dirs : list (Z * Z)) (r c : Z)
    (attacked : gset Square) :
  wf_board board -> in_bounds r c = true -> Forall unit_dir dirs ->
  returns (attack_rays board dirs r c attacked)
          (fun attacked' => forall s, s ∈ attacked' <->
             s ∈ attacked \/ (in_bounds s.1 s.2 = true /\ slides board dirs r c s.1 s.2)).
Proof.
  intros Hwf Hb Hdirs. unfold attack_rays.
  eapply returns_mono.
  - apply (for_each_collect (fun (s : Square) (att : gset Square) => s ∈ att)
             (fun d s => ray_sees board d.1 d.2 (r + d.1) (c + d.2) s)).
    intros [dr dc] att Hin.
    pose proof (proj1 (Forall_forall _ _) Hdirs _ Hin) as Hd.
    apply (attack_ray_collect board Hwf dr dc Hd); [unfold ray_fuel; lia|].
    by apply steps_left_start.
  - intros attacked' Hatt s. rewrite (Hatt s). apply or_iff_compat_l. split.
    + intros (d & Hd & Hsees). apply ray_sees_slides in Hsees.
      destruct Hsees as (Hin & k & Hk & Hr & Hc & Hpath).
      split; [exact Hin|]. by exists d, k.
    + intros (Hin & d & k & Hd & Hk & Hr & Hc & Hpath). exists d. split; [exact Hd|].
      apply ray_sees_slides. split; [exact Hin|]. by exists k.
Qed.

Lemma Forall_unit_rook : Forall unit_dir rook_dirs.
Proof. repeat constructor; simpl; lia. Qed.

Lemma Forall_unit_bishop : Forall unit_dir bishop_dirs.
Proof. repeat constructor; simpl; lia. Qed.

Lemma Forall_unit_queen : Forall unit_dir (rook_dirs ++ bishop_dirs).
Proof. apply Forall_app. split; [apply Forall_unit_rook | apply Forall_unit_bishop]. Qed.

Lemma attack_square_collect (board : Board) (color : Color) (r c : Z) (p : Piece)
    (attacked : gset Square) :
  wf_board board -> in_bounds r c = true ->
  returns
    (match ptype p with
     | Pawn =>
         for_each [-1; 1] (fun dc attacked =>
           Ok (add_if_in_bounds (r + dir_forward color) (c + dc) attacked)) attacked
     | Knight =>
         for_each knight_jumps (fun '(dr, dc) attacked =>
           Ok (add_if_in_bounds (r + dr) (c + dc) attacked)) attacked
     | King =>
         for_each [-1; 0; 1] (fun dr attacked =>
           for_each [-1; 0; 1] (fun dc attacked =>
             if bool_decide (dr = 0) && bool_decide (dc = 0) then Ok attacked
             else Ok (add_if_in_bounds (r + dr) (c + dc) attacked)) attacked) attacked
     | Rook => attack_rays board rook_dirs r c attacked
     | Bishop => attack_rays board bishop_dirs r c attacked
     | Queen => attack_rays board (rook_dirs ++ bishop_dirs) r c attacked
     end)
    (fun attacked' => forall s, s ∈ attacked' <->
       s ∈ attacked \/
       (in_bounds s.1 s.2 = true /\ reaches board color (ptype p) r c s.1 s.2)).
Proof.
  intros Hwf Hb. destruct (ptype p); simpl reaches.
  - (* King *)
    eapply returns_mono.
    + apply (for_each_collect (fun (s : Square) (att : gset Square) => s ∈ att)
               (fun dr s => exists dc, dc ∈ [-1; 0; 1] /\
                  (dr, dc) <> (0, 0) /\ s = (r + dr, c + dc) /\
                  in_bounds s.1 s.2 = true)).
      intros dr att Hdr. eapply returns_mono.
      * apply (for_each_collect (fun (s : Square) (att : gset Square) => s ∈ att)
                 (fun dc s => (dr, dc) <> (0, 0) /\ s = (r + dr, c + dc) /\
                              in_bounds s.1 s.2 = true)).
        intros dc att' Hdc.
        destruct (bool_decide (dr = 0) && bool_decide (dc = 0)) eqn:Hzero; simpl.
        -- apply andb_true_iff in Hzero. destruct Hzero as [H1 H2].
           apply bool_decide_eq_true in H1, H2. subst.
           intros s. split; [by left|]. intros [Hs|[Hne _]]; [exact Hs | by destruct Hne].
        -- intros s. rewrite elem_of_add_if_in_bounds. apply or_iff_compat_l.
           split; [|tauto]. intros Hs. split; [|exact Hs].
           intros [= -> ->]. by rewrite !bool_decide_eq_true_2 in Hzero.
      * intros att' Hatt s. rewrite (Hatt s). apply or_iff_compat_l. reflexivity.
    + intros att' Hatt s. rewrite (Hatt s). apply or_iff_compat_l. split.
      * intros (dr & Hdr & dc & Hdc & Hne & -> & Hin). split; [exact Hin|]. simpl.
        assert (-1 <= dr <= 1 /\ -1 <= dc <= 1) as Hrange.
        { repeat (apply elem_of_cons in Hdr as [->|Hdr]);
            repeat (apply elem_of_cons in Hdc as [->|Hdc]);
            try (by apply elem_of_nil in Hdr); try (by apply elem_of_nil in Hdc); lia. }
        split; [lia|]. split; [lia|]. intros [= Hr Hc]. apply Hne. f_equal; lia.
      * intros (Hin & Hr & Hc & Hne). destruct s as [rr cc]. simpl in *.
        exists (rr - r). split.
        { assert (rr - r = -1 \/ rr - r = 0 \/ rr - r = 1) as [->|[->| ->]] by lia;
            repeat constructor. }
        exists (cc - c). split.
        { assert (cc - c = -1 \/ cc - c = 0 \/ cc - c = 1) as [->|[->| ->]] by lia;
            repeat constructor. }
        split; [intros [= H1 H2]; apply Hne; f_equal; lia|].
        split; [f_equal; lia | exact Hin].
  - by apply attack_rays_collect, Forall_unit_queen.
  - by apply attack_rays_collect, Forall_unit_rook.
  - by apply attack_rays_collect, Forall_unit_bishop.
  - (* Knight *)
    eapply returns_mono.
    + apply (for_each_collect (fun (s : Square) (att : gset Square) => s ∈ att)
               (fun d s => s = (r + d.1, c + d.2) /\ in_bounds s.1 s.2 = true)).
      intros [dr dc] att _. simpl. intros s. apply elem_of_add_if_in_bounds.
    + intros att' Hatt s. rewrite (Hatt s). apply or_iff_compat_l. split.
      * intros ([dr dc] & Hd & Hs & Hin). split; [exact Hin|].
        simpl in Hs. apply offset_eq in Hs. by rewrite Hs.
      * intros (Hin & Hd). exists (s.1 - r, s.2 - c). split; [exact Hd|].
        split; [|exact Hin]. by apply offset_eq.
  - (* Pawn *)
    eapply returns_mono.
    + apply (for_each_collect (fun (s : Square) (att : gset Square) => s ∈ att)
               (fun dc s => s = (r + dir_forward color, c + dc) /\
                            in_bounds s.1 s.2 = true)).
      intros dc att _. simpl. intros s. apply elem_of_add_if_in_bounds.
    + intros att' Hatt s. rewrite (Hatt s). apply or_iff_compat_l. split.
      * intros (dc & Hdc & -> & Hin). split; [exact Hin|]. simpl.
        split; [reflexivity|].
        repeat (apply elem_of_cons in Hdc as [->|Hdc]); [left; lia | right; lia |].
        by apply elem_of_nil in Hdc.
      * intros (Hin & Hr & Hc). destruct s as [rr cc]. simpl in *.
        destruct Hc as [->| ->]; [exists (-1) | exists 1];
          (split; [repeat constructor|]); (split; [f_equal; lia | exact Hin]).
Qed.

Lemma squares_attacked_by_attacks board color :
  wf_board board ->
  returns (squares_attacked_by board color)
          (fun attacked => forall s, s ∈ attacked <-> attacks board color s).
Proof.
  intros Hwf. unfold squares_attacked_by.
  eapply returns_bind.
  - apply (for_each_collect (fun (s : Square) (att : gset Square) => s ∈ att)
             (fun r s => exists c, c ∈ range 8 /\
                in_bounds s.1 s.2 = true /\
                exists p, cell board r c = Some p /\ pcolor p = color /\
                          reaches board color (ptype p) r c s.1 s.2)).
    intros r att Hr. apply elem_of_range in Hr.
    apply (for_each_collect (fun (s : Square) (att : gset Square) => s ∈ att)
             (fun c s => in_bounds s.1 s.2 = true /\
                exists p, cell board r c = Some p /\ pcolor p = color /\
                          reaches board color (ptype p) r c s.1 s.2)).
    intros c att' Hc. apply elem_of_range in Hc.
    assert (in_bounds r c = true) as Hb by (apply in_bounds_iff; lia).
    rewrite (getp_cell _ _ _ Hwf Hb), bind_Ok.
    destruct (cell board r c) as [p|] eqn:Hp.
    2: { intros s. split; [by left|]. intros [Hs|(_ & p & [=] & _)]. exact Hs. }
    case_bool_decide as Hcol.
    { intros s. split; [by left|]. intros [Hs|(_ & p' & [= <-] & Hc' & _)]; [exact Hs|].
      by destruct Hcol. }
    eapply returns_mono; [apply (attack_square_collect board color r c p att' Hwf Hb)|].
    intros att'' Hatt s. rewrite (Hatt s). apply or_iff_compat_l. split.
    + intros [Hin Hreach]. split; [exact Hin|]. exists p.
      split; [reflexivity|]. split; [|exact Hreach].
      by destruct (decide (pcolor p = color)).
    + intros (Hin & p' & [= <-] & _ & Hreach). by split.
  - intros attacked Hatt. simpl. intros s. rewrite elem_of_elements, (Hatt s).
    unfold attacks. split.
    + intros [Hs|(r & Hr & c & Hc & Hin & p & Hp & Hcol & Hreach)];
        [by apply not_elem_of_empty in Hs|].
      apply elem_of_range in Hr, Hc. split; [exact Hin|]. exists r, c, p.
      split; [apply in_bounds_iff; lia|]. by repeat split.
    + intros (Hin & r & c & p & Hb & Hp & Hcol & Hreach). right.
      apply in_bounds_iff in Hb. exists r. split; [apply elem_of_range; lia|].
      exists c. split; [apply elem_of_range; lia|]. split; [exact Hin|]. by exists p.
Qed.

(** ** The move generator, piece by piece *)

Lemma slides_dirs board dirs1 dirs2 r c rr cc :
  (forall d, d ∈ dirs1 <-> d ∈ dirs2) ->
  slides board dirs1 r c rr cc <-> slides board dirs2 r c rr cc.
Proof.
  intros Hdirs. unfold slides.
  split; intros (d & k & Hd & H); exists d, k; (split; [by apply Hdirs | exact H]).
Qed.

Section Rules.
Variables (board : Board) (color : Color).
Hypothesis Hwf : wf_board board.
Variables r c : Z.
Hypothesis Hrc : in_bounds r c = true.

Lemma step_move_collect (rr cc : Z) (moves : list Move) :
  returns (step_move board color r c rr cc moves)
          (fun moves' => forall m, m ∈ moves' <->
             m ∈ moves \/
             (m = ((r, c), (rr, cc)) /\ in_bounds rr cc = true /\
              free_or_enemy color (cell board rr cc) = true)).
Proof using Hwf.
  unfold step_move. destruct (in_bounds rr cc) eqn:Hb; simpl.
  2: { intros m. split; [by left|]. intros [Hm|(_ & [=] & _)]. exact Hm. }
  rewrite (getp_cell _ _ _ Hwf Hb), bind_Ok.
  destruct (free_or_enemy color (cell board rr cc)) eqn:Hfree; intros m.
  - unfold add_move. rewrite elem_of_app, list_elem_of_singleton. tauto.
  - split; [by left|]. intros [Hm|(_ & _ & [=])]. exact Hm.
Qed.

Lemma slide_moves_collect (dirs : list (Z * Z)) (moves : list Move) :
  Forall unit_dir dirs ->
  returns (for_each dirs (fun '(dr, dc) moves =>
             move_ray ray_fuel board color r c dr dc (r + dr) (c + dc) moves) moves)
          (fun moves' => forall m, m ∈ moves' <->
             m ∈ moves \/
             (m.1 = (r, c) /\ in_bounds m.2.1 m.2.2 = true /\
              slides board dirs r c m.2.1 m.2.2 /\
              free_or_enemy color (cell board m.2.1 m.2.2) = true)).
Proof using Hwf Hrc.
  intros Hdirs. eapply returns_mono.
  - apply (for_each_collect (fun (m : Move) (ms : list Move) => m ∈ ms)
             (fun d m => exists t, m = ((r, c), t) /\
                ray_sees board d.1 d.2 (r + d.1) (c + d.2) t /\
                free_or_enemy color (cell board t.1 t.2) = true)).
    intros [dr dc] ms Hin.
    pose proof (proj1 (Forall_forall _ _) Hdirs _ Hin) as Hd.
    apply (move_ray_collect board Hwf dr dc Hd); [unfold ray_fuel; lia|].
    by apply steps_left_start.
  - intros moves' Hmoves m. rewrite (Hmoves m). apply or_iff_compat_l. split.
    + intros (d & Hd & t & -> & Hsees & Hfree). apply ray_sees_slides in Hsees.
      destruct Hsees as (Hin & k & Hk & Hr & Hc & Hpath). simpl.
      split; [reflexivity|]. split; [exact Hin|]. split; [by exists d, k | exact Hfree].
    + intros (Hfrom & Hin & (d & k & Hd & Hk & Hr & Hc & Hpath) & Hfree).
      exists d. split; [exact Hd|]. exists m.2.
      split; [destruct m; simpl in *; by subst|].
      split; [|exact Hfree]. apply ray_sees_slides. split; [exact Hin|]. by exists k.
Qed.

Lemma knight_moves_collect (moves : list Move) :
  returns (for_each knight_jumps (fun '(dr, dc) moves =>
             step_move board color r c (r + dr) (c + dc) moves) moves)
          (fun moves' => forall m, m ∈ moves' <->
             m ∈ moves \/
             (m.1 = (r, c) /\ in_bounds m.2.1 m.2.2 = true /\
              (m.2.1 - r, m.2.2 - c) ∈ knight_jumps /\
              free_or_enemy color (cell board m.2.1 m.2.2) = true)).
Proof using Hwf.
  eapply returns_mono.
  - apply (for_each_collect (fun (m : Move) (ms : list Move) => m ∈ ms)
             (fun d m => m = ((r, c), (r + d.1, c + d.2)) /\
                in_bounds (r + d.1) (c + d.2) = true /\
                free_or_enemy color (cell board (r + d.1) (c + d.2)) = true)).
    intros [dr dc] ms _. apply step_move_collect.
  - intros moves' Hmoves m. rewrite (Hmoves m). apply or_iff_compat_l. split.
    + intros ([dr dc] & Hd & -> & Hin & Hfree). simpl in *.
      split; [reflexivity|]. split; [exact Hin|]. split; [|exact Hfree].
      by replace (r + dr - r) with dr by lia; replace (c + dc - c) with dc by lia.
    + intros (Hfrom & Hin & Hd & Hfree). destruct m as [from [rr cc]]. simpl in *.
      subst from. exists (rr - r, cc - c). split; [exact Hd|]. simpl.
      replace (r + (rr - r)) with rr by lia. replace (c + (cc - c)) with cc by lia.
      by repeat split.
Qed.

Lemma king_moves_collect (moves : list Move) :
  returns (for_each [-1; 0; 1] (fun dr moves =>
             for_each [-1; 0; 1] (fun dc moves =>
               if bool_decide (dr = 0) && bool_decide (dc = 0) then Ok moves
               else step_move board color r c (r + dr) (c + dc) moves) moves) moves)
          (fun moves' => forall m, m ∈ moves' <->
             m ∈ moves \/
             (m.1 = (r, c) /\ in_bounds m.2.1 m.2.2 = true /\
              reaches board color King r c m.2.1 m.2.2 /\
              free_or_enemy color (cell board m.2.1 m.2.2) = true)).
Proof using Hwf.
  eapply returns_mono.
  - apply (for_each_collect (fun (m : Move) (ms : list Move) => m ∈ ms)
             (fun dr m => exists dc, dc ∈ [-1; 0; 1] /\ (dr, dc) <> (0, 0) /\
                m = ((r, c), (r + dr, c + dc)) /\
                in_bounds (r + dr) (c + dc) = true /\
                free_or_enemy color (cell board (r + dr) (c + dc)) = true)).
    intros dr ms Hdr.
    apply (for_each_collect (fun (m : Move) (ms : list Move) => m ∈ ms)
             (fun dc m => (dr, dc) <> (0, 0) /\
                m = ((r, c), (r + dr, c + dc)) /\
                in_bounds (r + dr) (c + dc) = true /\
                free_or_enemy color (cell board (r + dr) (c + dc)) = true)).
    intros dc ms' Hdc.
    destruct (bool_decide (dr = 0) && bool_decide (dc = 0)) eqn:Hzero.
    + apply andb_true_iff in Hzero. destruct Hzero as [H1 H2].
      apply bool_decide_eq_true in H1, H2. subst.
      intros m. split; [by left|]. intros [Hm|[Hne _]]; [exact Hm | by destruct Hne].
    + eapply returns_mono; [apply step_move_collect|].
      intros ms'' Hms m. rewrite (Hms m). apply or_iff_compat_l.
      split; [|tauto]. intros Hm. split; [|exact Hm].
      intros [= -> ->]. by rewrite !bool_decide_eq_true_2 in Hzero.
  - intros moves' Hmoves m. rewrite (Hmoves m). apply or_iff_compat_l. simpl. split.
    + intros (dr & Hdr & dc & Hdc & Hne & -> & Hin & Hfree). simpl.
      assert (-1 <= dr <= 1 /\ -1 <= dc <= 1) as Hrange.
      { repeat (apply elem_of_cons in Hdr as [->|Hdr]);
          repeat (apply elem_of_cons in Hdc as [->|Hdc]);
          try (by apply elem_of_nil in Hdr); try (by apply elem_of_nil in Hdc); lia. }
      split; [reflexivity|]. split; [exact Hin|]. split; [|exact Hfree].
      split; [lia|]. split; [lia|]. intros [= H1 H2]. apply Hne. f_equal; lia.
    + intros (Hfrom & Hin & (Hr & Hc & Hne) & Hfree).
      destruct m as [from [rr cc]]. simpl in *. subst from.
      exists (rr - r). split.
      { assert (rr - r = -1 \/ rr - r = 0 \/ rr - r = 1) as [->|[->| ->]] by lia;
          repeat constructor. }
      exists (cc - c). split.
      { assert (cc - c = -1 \/ cc - c = 0 \/ cc - c = 1) as [->|[->| ->]] by lia;
          repeat constructor. }
      split; [intros [= H1 H2]; apply Hne; f_equal; lia|].
      replace (r + (rr - r)) with rr by lia. replace (c + (cc - c)) with cc by lia.
      by repeat split.
Qed.

Lemma pawn_moves_collect (moves : list Move) :
  returns (pawn_moves board color r c moves)
          (fun moves' => forall m, m ∈ moves' <->
             m ∈ moves \/
             (m.1 = (r, c) /\ in_bounds m.2.1 m.2.2 = true /\
              (pawn_advance board color r c m.2.1 m.2.2 \/
               (reaches board color Pawn r c m.2.1 m.2.2 /\
                exists q, cell board m.2.1 m.2.2 = Some q /\ pcolor q <> color)))).
Proof using Hwf Hrc.
  unfold pawn_moves.
  assert (dir_forward color = 1 \/ dir_forward color = -1) as Hdir
    by (unfold dir_forward; case_bool_decide; lia).
  apply in_bounds_iff in Hrc.
  eapply returns_bind with
    (Q := fun moves1 => forall m, m ∈ moves1 <->
            m ∈ moves \/
            (m.1 = (r, c) /\ in_bounds m.2.1 m.2.2 = true /\
             pawn_advance board color r c m.2.1 m.2.2)).
  - unfold pawn_advance. fold (start_row color).
    destruct (in_bounds (r + dir_forward color) c) eqn:Hb1.
    2: { intros m. split; [by left|].
         intros [Hm|(Hfrom & Hin & Hc & Hnone & [Hr|(Hs & Hr & _)])]; [exact Hm| |].
         - rewrite Hr, Hc in Hin. congruence.
         - apply in_bounds_false in Hb1. apply in_bounds_iff in Hin. lia. }
    rewrite (getp_cell _ _ _ Hwf Hb1), bind_Ok.
    destruct (cell board (r + dir_forward color) c) as [q|] eqn:Hq1.
    { intros m. split; [by left|]. intros [Hm|(_ & _ & _ & [=] & _)]. exact Hm. }
    destruct (bool_decide (r = start_row color)) eqn:Hstart; simpl.
    + apply bool_decide_eq_true in Hstart.
      destruct (in_bounds (r + 2 * dir_forward color) c) eqn:Hb2.
      * rewrite (getp_cell _ _ _ Hwf Hb2), bind_Ok.
        destruct (cell board (r + 2 * dir_forward color) c) as [q2|] eqn:Hq2;
          intros m; unfold add_move; rewrite ?elem_of_app, ?list_elem_of_singleton;
          destruct m as [from [rr cc]]; simpl.
        -- split.
           ++ intros [Hm|[= -> -> ->]]; [by left|]. right. by repeat split; auto.
           ++ intros [Hm|(-> & Hin & -> & _ & [->|(_ & -> & Hnone)])];
                [by left | by right | congruence].
        -- split.
           ++ intros [[Hm|[= -> -> ->]]|[= -> -> ->]];
                [by left | right | right]; repeat split; auto.
           ++ intros [Hm|(-> & Hin & -> & _ & [->|(_ & -> & Hnone)])];
                [by left; left | by left; right | by right].
      * intros m. unfold add_move. rewrite elem_of_app, list_elem_of_singleton.
        destruct m as [from [rr cc]]; simpl. split.
        -- intros [Hm|[= -> -> ->]]; [by left|]. right. by repeat split; auto.
        -- intros [Hm|(-> & Hin & -> & _ & [->|(_ & -> & Hnone)])];
             [by left | by right | congruence].
    + apply bool_decide_eq_false in Hstart.
      intros m. unfold add_move. rewrite elem_of_app, list_elem_of_singleton.
      destruct m as [from [rr cc]]; simpl. split.
      * intros [Hm|[= -> -> ->]]; [by left|]. right. by repeat split; auto.
      * intros [Hm|(-> & Hin & -> & _ & [->|(Hs & _)])];
          [by left | by right | by destruct Hstart].
  - intros moves1 H1. eapply returns_mono.
    + apply (for_each_collect (fun (m : Move) (ms : list Move) => m ∈ ms)
               (fun dc m => m = ((r, c), (r + dir_forward color, c + dc)) /\
                  in_bounds (r + dir_forward color) (c + dc) = true /\
                  exists q, cell board (r + dir_forward color) (c + dc) = Some q /\
                            pcolor q <> color)).
      intros dc ms _. cbv zeta.
      destruct (in_bounds (r + dir_forward color) (c + dc)) eqn:Hb.
      2: { intros m. split; [by left|]. intros [Hm|(_ & [=] & _)]. exact Hm. }
      rewrite (getp_cell _ _ _ Hwf Hb), bind_Ok.
      destruct (cell board (r + dir_forward color) (c + dc)) as [q|] eqn:Hq.
      2: { intros m. split; [by left|]. intros [Hm|(_ & _ & q & [=] & _)]. exact Hm. }
      case_bool_decide as Hcol; intros m.
      * unfold add_move. rewrite elem_of_app, list_elem_of_singleton.
        apply or_iff_compat_l. split; [|tauto]. intros ->.
        split; [reflexivity|]. split; [reflexivity|]. by exists q.
      * split; [by left|]. intros [Hm|(_ & _ & q' & [= <-] & Hne)]; [exact Hm|].
        by destruct Hcol.
    + intros moves2 H2 m. rewrite (H2 m), (H1 m). simpl. split.
      * intros [[Hm|(Hfrom & Hin & Hadv)]|(dc & Hdc & -> & Hin & Hq)].
        -- by left.
        -- right. split; [exact Hfrom|]. split; [exact Hin|]. by left.
        -- right. simpl. split; [reflexivity|]. split; [exact Hin|]. right.
           split; [|exact Hq]. split; [reflexivity|].
           repeat (apply elem_of_cons in Hdc as [->|Hdc]); [left; lia | right; lia |].
           by apply elem_of_nil in Hdc.
      * intros [Hm|(Hfrom & Hin & [Hadv|[[Hr Hc] Hq]])].
        -- by left; left.
        -- left. right. split; [exact Hfrom|]. split; [exact Hin | exact Hadv].
        -- right. destruct m as [from [rr cc]]. simpl in *. subst from rr.
           destruct Hc as [->| ->]; [exists (-1) | exists 1];
             (split; [repeat constructor|]);
             (split; [f_equal; f_equal; lia|]); (split; [exact Hin | exact Hq]).
Qed.
End Rules.

Lemma directions_Queen d : d ∈ directions Queen <-> d ∈ rook_dirs ++ bishop_dirs.
Proof.
  change (directions Queen) with (bishop_dirs ++ rook_dirs).
  rewrite !elem_of_app. tauto.
Qed.

Lemma piece_moves_collect board color r c p (moves : list Move) :
  wf_board board -> in_bounds r c = true ->
  returns (piece_moves board color r c (ptype p) moves)
          (fun moves' => forall m, m ∈ moves' <->
             m ∈ moves \/
             (m.1 = (r, c) /\ in_bounds m.2.1 m.2.2 = true /\
              match ptype p with
              | Pawn =>
                  pawn_advance board color r c m.2.1 m.2.2 \/
                  (reaches board color Pawn r c m.2.1 m.2.2 /\
                   exists q, cell board m.2.1 m.2.2 = Some q /\ pcolor q <> color)
              | t =>
                  reaches board color t r c m.2.1 m.2.2 /\
                  free_or_enemy color (cell board m.2.1 m.2.2) = true
              end)).
Proof.
  intros Hwf Hb. unfold piece_moves. destruct (ptype p); simpl reaches.
  - by apply king_moves_collect.
  - eapply returns_mono.
    + apply (slide_moves_collect board color Hwf r c Hb (directions Queen)).
      apply Forall_forall. intros d. apply elem_of_directions.
    + intros moves' Hmoves m. rewrite (Hmoves m).
      by rewrite (slides_dirs board _ _ r c _ _ directions_Queen).
  - apply (slide_moves_collect board color Hwf r c Hb rook_dirs), Forall_unit_rook.
  - apply (slide_moves_collect board color Hwf r c Hb bishop_dirs), Forall_unit_bishop.
  - eapply returns_mono; [by apply knight_moves_collect|].
    intros moves' Hmoves m. by rewrite (Hmoves m).
  - by apply pawn_moves_collect.
Qed.

Lemma generate_pseudo_legal_moves_rules board color :
  wf_board board ->
  returns (generate_pseudo_legal_moves board color)
          (fun moves => forall m, m ∈ moves <-> pseudo_legal board color m).
Proof.
  intros Hwf. unfold generate_pseudo_legal_moves.
  set (rule := fun (p : Piece) (r c : Z) (m : Move) =>
    match ptype p with
    | Pawn =>
        pawn_advance board color r c m.2.1 m.2.2 \/
        (reaches board color Pawn r c m.2.1 m.2.2 /\
         exists q, cell board m.2.1 m.2.2 = Some q /\ pcolor q <> color)
    | t =>
        reaches board color t r c m.2.1 m.2.2 /\
        free_or_enemy color (cell board m.2.1 m.2.2) = true
    end).
  eapply returns_mono.
  - apply (for_each_collect (fun (m : Move) (ms : list Move) => m ∈ ms)
             (fun r m => exists c, c ∈ range 8 /\
                m.1 = (r, c) /\ in_bounds m.2.1 m.2.2 = true /\
                exists p, cell board r c = Some p /\ pcolor p = color /\ rule p r c m)).
    intros r ms Hr. apply elem_of_range in Hr.
    apply (for_each_collect (fun (m : Move) (ms : list Move) => m ∈ ms)
             (fun c m => m.1 = (r, c) /\ in_bounds m.2.1 m.2.2 = true /\
                exists p, cell board r c = Some p /\ pcolor p = color /\ rule p r c m)).
    intros c ms' Hc. apply elem_of_range in Hc.
    assert (in_bounds r c = true) as Hb by (apply in_bounds_iff; lia).
    rewrite (getp_cell _ _ _ Hwf Hb), bind_Ok.
    destruct (cell board r c) as [p|] eqn:Hp.
    2: { intros m. split; [by left|]. intros [Hm|(_ & _ & p & [=] & _)]. exact Hm. }
    case_bool_decide as Hcol.
    { intros m. split; [by left|]. intros [Hm|(_ & _ & p' & [= <-] & Hc' & _)]; [exact Hm|].
      by destruct Hcol. }
    eapply returns_mono; [apply (piece_moves_collect board color r c p ms' Hwf Hb)|].
    intros ms'' Hms m. rewrite (Hms m). apply or_iff_compat_l. split.
    + intros (Hfrom & Hin & Hrule). split; [exact Hfrom|]. split; [exact Hin|].
      exists p. split; [reflexivity|]. split; [|exact Hrule].
      by destruct (decide (pcolor p = color)).
    + intros (Hfrom & Hin & p' & [= <-] & _ & Hrule). by repeat split.
  - intros moves Hmoves m. rewrite (Hmoves m). unfold pseudo_legal. split.
    + intros [Hm|(r & Hr & c & Hc & Hfrom & Hin & p & Hp & Hcol & Hrule)];
        [by apply elem_of_nil in Hm|].
      apply elem_of_range in Hr, Hc. rewrite Hfrom. simpl.
      split; [apply in_bounds_iff; lia|]. split; [exact Hin|]. by exists p.
    + intros (Hb & Hin & p & Hp & Hcol & Hrule). right.
      apply in_bounds_iff in Hb. exists m.1.1. split; [apply elem_of_range; lia|].
      exists m.1.2. split; [apply elem_of_range; lia|].
      split; [by destruct m as [[? ?] ?]|]. split; [exact Hin|]. by exists p.
Qed.

(** ** The generators and the rules of movement *)

(** X8: [generate_pseudo_legal_moves] returns exactly the moves of the
    pieces of the color that obey the rule of the piece: a pawn advances
    one empty square, or two from its start row over empty squares, or
    takes diagonally forward a piece of the other color; a knight, a king
    and the sliding pieces go to a square they bear on that is empty or
    held by the other color, the sliding pieces over empty squares only. *)
Theorem pseudo_legal_moves_rules board color :
  wf_board board ->
  exists moves,
    generate_pseudo_legal_moves board color = Ok moves /\
    forall m, m ∈ moves <-> pseudo_legal board color m.
Proof.
  intros Hwf. apply returns_Ok. by apply generate_pseudo_legal_moves_rules.
Qed.

(** The rules on the initial position. *)
Lemma pseudo_legal_moves_rules_witness :
  wf_board start_position /\
  exists moves,
    generate_pseudo_legal_moves start_position White = Ok moves /\
    forall m, m ∈ moves <-> pseudo_legal start_position White m.
Proof.
  split; [exact wf_start_position|].
  exact (pseudo_legal_moves_rules start_position White wf_start_position).
Defined.

(** X9: [squares_attacked_by] returns exactly the squares of the board
    that a piece of the color bears on: the two squares diagonally ahead
    of a pawn, the jumps of a knight, the neighbours of a king, and along
    the lines of a rook, bishop or queen every square up to and including
    the first occupied one. *)
Theorem attack_map_squares board color :
  wf_board board ->
  exists attacked,
    squares_attacked_by board color = Ok attacked /\
    forall s, s ∈ attacked <-> attacks board color s.
Proof.
  intros Hwf. apply returns_Ok. by apply squares_attacked_by_attacks.
Qed.

(** The attack map of Black on the position of the pinned rook. *)
Lemma attack_map_squares_witness :
  wf_board pinned_rook /\
  exists attacked,
    squares_attacked_by pinned_rook Black = Ok attacked /\
    forall s, s ∈ attacked <-> attacks pinned_rook Black s.
Proof.
  assert (wf_board pinned_rook) as Hwf by (apply wf_board_of; by repeat constructor).
  split; [exact Hwf | exact (attack_map_squares pinned_rook Black Hwf)].
Defined.

Lemma attacks_captures board color t q :
  cell board t.1 t.2 = Some q -> pcolor q <> color ->
  attacks board color t <-> exists from, pseudo_legal board color (from, t).
Proof.
  intros Hq Hcol. unfold attacks, pseudo_legal. split.
  - intros (Hin & r & c & p & Hb & Hp & Hpc & Hreach). exists (r, c). simpl.
    split; [exact Hb|]. split; [exact Hin|]. exists p.
    split; [exact Hp|]. split; [exact Hpc|].
    assert (free_or_enemy color (cell board t.1 t.2) = true) as Hfree
      by (rewrite Hq; simpl; by apply bool_decide_eq_true_2).
    destruct (ptype p); try (split; [exact Hreach | exact Hfree]).
    right. split; [exact Hreach|]. by exists q.
  - intros ([r c] & Hb & Hin & p & Hp & Hpc & Hrule). simpl in *.
    split; [exact Hin|]. exists r, c, p. split; [exact Hb|].
    split; [exact Hp|]. split; [exact Hpc|].
    destruct (ptype p); try (by destruct Hrule).
    destruct Hrule as [(Hc & Hnone & [Hr|(_ & Hr & Hnone2)])|[Hreach _]];
      [| congruence | exact Hreach].
    rewrite Hr, Hc in Hq. congruence.
Qed.

(** X10: on a square held by a piece of the other color, the attack map
    and the move generator agree: the square is in
    [squares_attacked_by] for a color exactly when
    [generate_pseudo_legal_moves] has a move of that color onto it. *)
Theorem attacked_iff_capturable board color :
  wf_board board ->
  exists attacked moves,
    squares_attacked_by board color = Ok attacked /\
    generate_pseudo_legal_moves board color = Ok moves /\
    forall t q, in_bounds t.1 t.2 = true ->
      getp board t.1 t.2 = Ok (Some q) -> pcolor q <> color ->
      (t ∈ attacked <-> exists from, (from, t) ∈ moves).
Proof.
  intros Hwf.
  pose proof (squares_attacked_by_attacks board color Hwf) as Hatt.
  pose proof (generate_pseudo_legal_moves_rules board color Hwf) as Hmoves.
  apply returns_Ok in Hatt, Hmoves.
  destruct Hatt as (attacked & -> & Hatt), Hmoves as (moves & -> & Hmoves).
  exists attacked, moves. do 2 (split; [reflexivity|]).
  intros t q Hin Hq Hcol. apply getp_Ok_cell in Hq; [|exact Hwf|exact Hin].
  rewrite (Hatt t), (attacks_captures board color t q Hq Hcol).
  split; intros [from Hfrom]; exists from; by apply Hmoves.
Qed.

(** The black rook and the pinned white rook. *)
Lemma attacked_iff_capturable_witness :
  wf_board pinned_rook /\
  exists attacked moves,
    squares_attacked_by pinned_rook Black = Ok attacked /\
    generate_pseudo_legal_moves pinned_rook Black = Ok moves /\
    forall t q, in_bounds t.1 t.2 = true ->
      getp pinned_rook t.1 t.2 = Ok (Some q) -> pcolor q <> Black ->
      (t ∈ attacked <-> exists from, (from, t) ∈ moves).
Proof.
  assert (wf_board pinned_rook) as Hwf by (apply wf_board_of; by repeat constructor).
  split; [exact Hwf | exact (attacked_iff_capturable pinned_rook Black Hwf)].
Defined.

Lemma enemy_ne color : color <> enemy color.
Proof. by destruct color. Qed.

Lemma is_in_check_capture board color :
  wf_board board ->
  exists replies chk,
    generate_pseudo_legal_moves board (enemy color) = Ok replies /\
    is_in_check board color = Ok chk /\
    (chk = true <->
     exists s from, first_king_at board color s /\ (from, s) ∈ replies).
Proof.
  intros Hwf.
  pose proof (squares_attacked_by_attacks board (enemy color) Hwf) as Hatt.
  pose proof (generate_pseudo_legal_moves_rules board (enemy color) Hwf) as Hmoves.
  pose proof (find_king_spec board color Hwf) as Hking.
  apply returns_Ok in Hatt, Hmoves, Hking.
  destruct Hatt as (attacked & Hatt & Hattacked), Hmoves as (replies & -> & Hreplies).
  destruct Hking as (o & Hfind & Ho).
  exists replies. unfold is_in_check. rewrite Hfind, bind_Ok.
  destruct o as [s|].
  - rewrite Hatt, bind_Ok. eexists. do 2 (split; [reflexivity|]).
    rewrite bool_decide_eq_true.
    destruct Ho as [[Hin (p & Hp & Ht & Hc)] Hfirst].
    apply getp_Ok_cell in Hp; [|exact Hwf|exact Hin].
    assert (pcolor p <> enemy color) as Hne by (rewrite Hc; apply enemy_ne).
    assert (first_king_at board color s) as Hs.
    { split; [|exact Hfirst]. split; [exact Hin|]. exists p.
      by rewrite (getp_cell _ _ _ Hwf Hin), Hp. }
    rewrite (Hattacked s), (attacks_captures board (enemy color) s p Hp Hne). split.
    + intros [from Hfrom]. exists s, from. split; [exact Hs | by apply Hreplies].
    + intros (s' & from & Hs' & Hfrom).
      rewrite (first_king_at_unique _ _ _ _ Hs Hs'). exists from. by apply Hreplies.
  - exists false. do 2 (split; [reflexivity|]). split; [discriminate|].
    intros (s & _ & [Hs _] & _). destruct (Ho s Hs).
Qed.

(** X11: [is_in_check] answers true for a color exactly when
    [generate_pseudo_legal_moves] has a move of the other color onto the
    square of the king of the color, the first one in row-major order. *)
Theorem is_in_check_iff_king_capturable board color :
  wf_board board ->
  exists replies chk,
    generate_pseudo_legal_moves board (enemy color) = Ok replies /\
    is_in_check board color = Ok chk /\
    (chk = true <->
     exists s from, first_king_at board color s /\ (from, s) ∈ replies).
Proof. exact (is_in_check_capture board color). Qed.

(** White after the pinned rook has left the file. *)
Lemma is_in_check_iff_king_capturable_witness :
  wf_board (board_of [((7, 4), mkPiece King White); ((0, 4), mkPiece Rook Black)]) /\
  exists replies chk,
    generate_pseudo_legal_moves
      (board_of [((7, 4), mkPiece King White); ((0, 4), mkPiece Rook Black)])
      (enemy White) = Ok replies /\
    is_in_check
      (board_of [((7, 4), mkPiece King White); ((0, 4), mkPiece Rook Black)])
      White = Ok chk /\
    (chk = true <->
     exists s from,
       first_king_at
         (board_of [((7, 4), mkPiece King White); ((0, 4), mkPiece Rook Black)])
         White s /\ (from, s) ∈ replies).
Proof.
  assert (wf_board (board_of [((7, 4), mkPiece King White); ((0, 4), mkPiece Rook Black)]))
    as Hwf by (apply wf_board_of; by repeat constructor).
  split; [exact Hwf | exact (is_in_check_iff_king_capturable _ White Hwf)].
Defined.

(** X12: a pseudo-legal move is kept by [generate_legal_moves] exactly when,
    on the board [make_move] returns for it, the other color has no
    pseudo-legal move onto the square of the mover's king. *)
Theorem legal_iff_king_not_capturable board color m :
  wf_board board ->
  exists pseudo legal,
    generate_pseudo_legal_moves board color = Ok pseudo /\
    generate_legal_moves board color = Ok legal /\
    (m ∈ pseudo ->
     exists nb replies,
       make_move board m = Ok nb /\
       generate_pseudo_legal_moves nb (enemy color) = Ok replies /\
       (m ∈ legal <->
        forall s from, first_king_at nb color s -> (from, s) ∉ replies)).
Proof.
  intros Hwf.
  destruct (generate_legal_moves_spec board color Hwf)
    as (pseudo & legal & Hpseudo & Hlegal & Hiff & _).
  exists pseudo, legal. do 2 (split; [assumption|]). intros Hm.
  pose proof (generate_pseudo_legal_moves_wf board color Hwf) as Hall.
  rewrite Hpseudo in Hall. simpl in Hall.
  pose proof (proj1 (Forall_forall _ _) Hall m Hm) as (H1 & H2 & _).
  destruct m as [[r1 c1] [r2 c2]]. unfold sq_in_bounds in H1, H2. simpl in H1, H2.
  pose proof (make_move_wf board r1 c1 r2 c2 Hwf H1 H2) as Hnb.
  apply returns_Ok in Hnb. destruct Hnb as (nb & Hmove & Hwfnb).
  destruct (is_in_check_capture nb color Hwfnb) as (replies & chk & Hreplies & Hchk & Hcap).
  exists nb, replies. do 2 (split; [assumption|]).
  rewrite (Hiff _). unfold keeps_king_safe. rewrite Hmove, bind_Ok, Hchk. split.
  - intros [_ [= ->]] s from Hs Hfrom.
    assert (false = true) by (apply Hcap; by exists s, from). discriminate.
  - intros Hnone. split; [exact Hm|]. f_equal. destruct chk; [|reflexivity].
    destruct (proj1 Hcap eq_refl) as (s & from & Hs & Hfrom).
    destruct (Hnone s from Hs Hfrom).
Qed.

(** The sideways step of the pinned rook. *)
Lemma legal_iff_king_not_capturable_witness :
  wf_board pinned_rook /\
  exists pseudo legal,
    generate_pseudo_legal_moves pinned_rook White = Ok pseudo /\
    generate_legal_moves pinned_rook White = Ok legal /\
    (((6, 4), (6, 3)) ∈ pseudo ->
     exists nb replies,
       make_move pinned_rook ((6, 4), (6, 3)) = Ok nb /\
       generate_pseudo_legal_moves nb (enemy White) = Ok replies /\
       (((6, 4), (6, 3)) ∈ legal <->
        forall s from, first_king_at nb White s -> (from, s) ∉ replies)).
Proof.
  assert (wf_board pinned_rook) as Hwf by (apply wf_board_of; by repeat constructor).
  split; [exact Hwf|].
  exact (legal_iff_king_not_capturable pinned_rook White ((6, 4), (6, 3)) Hwf).
Defined.

(** ** The loop of the game *)

Lemma generate_legal_moves_in_bounds board color legal m :
  wf_board board -> generate_legal_moves board color = Ok legal -> m ∈ legal ->
  in_bounds m.1.1 m.1.2 = true /\ in_bounds m.2.1 m.2.2 = true /\
  exists nb, make_move board m = Ok nb /\ wf_board nb /\
             is_in_check nb color = Ok false.
Proof.
  intros Hwf Hlegal Hm.
  destruct (generate_legal_moves_spec board color Hwf)
    as (pseudo & legal' & Hpseudo & Hlegal' & _ & Hsub & Hsafe).
  assert (legal' = legal) as -> by congruence.
  pose proof (generate_pseudo_legal_moves_wf board color Hwf) as Hall.
  rewrite Hpseudo in Hall. simpl in Hall.
  pose proof (proj1 (Forall_forall _ _) Hall m (Hsub m Hm)) as (H1 & H2 & _).
  split; [exact H1|]. split; [exact H2|].
  destruct (Hsafe m Hm) as (nb & Hnb & Hchk). exists nb. split; [exact Hnb|].
  split; [|exact Hchk]. destruct m as [[r1 c1] [r2 c2]].
  pose proof (make_move_wf board r1 c1 r2 c2 Hwf H1 H2) as Hwfnb.
  by rewrite Hnb in Hwfnb.
Qed.

Lemma ai_choose_move_legal randbelow board :
  in_range randbelow -> wf_board board ->
  exists legal choice,
    generate_legal_moves board Black = Ok legal /\
    ai_choose_move randbelow board = Ok choice /\
    (choice = None <-> legal = []) /\
    (forall m, choice = Some m -> m ∈ legal).
Proof.
  intros Hrand Hwf.
  destruct (generate_legal_moves_spec board Black Hwf)
    as (pseudo & legal & Hpseudo & Hlegal & _ & Hsub & _).
  pose proof (generate_pseudo_legal_moves_wf board Black Hwf) as Hall.
  rewrite Hpseudo in Hall. simpl in Hall.
  exists legal. unfold ai_choose_move. rewrite Hlegal, bind_Ok.
  case_bool_decide as Hnil.
  { exists None. do 2 (split; [reflexivity|]). split; [done|]. discriminate. }
  destruct (for_each_keep legal
              (fun m capture_moves =>
                 let '((r1, c1), (r2, c2)) := m in
                 q ← getp board r2 c2;
                 match q with
                 | Some _ => Ok (capture_moves ++ [m])
                 | None => Ok capture_moves
                 end)
              (is_capture board) []) as (caps & -> & Hcaps).
  { intros [[r1 c1] [r2 c2]] acc Hin.
    pose proof (proj1 (Forall_forall _ _) Hall _ (Hsub _ Hin)) as (_ & H2 & _).
    unfold is_capture. unfold sq_in_bounds in H2. simpl in H2 |- *.
    rewrite (getp_cell _ _ _ Hwf H2), bind_Ok.
    destruct (cell board r2 c2) as [q|]; [left | right].
    - split; [by exists q | reflexivity].
    - split; [by intros [q [=]] | reflexivity]. }
  rewrite bind_Ok. simpl app.
  set (pool := if bool_decide (caps = []) then legal else caps).
  assert (pool <> []) as Hpool by (unfold pool; by case_bool_decide).
  destruct (random_choice_elem randbelow Hrand pool Hpool) as (m & -> & Hm).
  rewrite bind_Ok. exists (Some m). do 2 (split; [reflexivity|]).
  split; [done|]. intros m' [= <-]. unfold pool in Hm.
  case_bool_decide; [exact Hm|]. by apply Hcaps in Hm as [? _].
Qed.

(** The conjuncts of [game_inv] that are at hand. *)
Ltac split_inv :=
  unfold game_inv; simpl;
  repeat (split; [assumption|]); first [assumption | reflexivity | idtac].

Lemma game_inv_set_info st s : game_inv st -> game_inv (Game.set_info st s).
Proof. by destruct st. Qed.

Lemma select_white_inv st r c otherwise :
  game_inv st -> Game.turn st = White -> Game.ai_pending st = false ->
  in_bounds r c = true ->
  game_inv otherwise -> Game.board otherwise = Game.board st ->
  Game.turn otherwise = Game.turn st ->
  Game.ai_pending otherwise = Game.ai_pending st ->
  Game.info otherwise = Game.info st ->
  returns (Game.select_white st r c otherwise)
          (fun st' => game_inv st' /\ Game.board st' = Game.board st /\
                      Game.turn st' = Game.turn st /\
                      Game.ai_pending st' = Game.ai_pending st /\
                      Game.info st' = Game.info st).
Proof.
  intros (Hwf & Hw & Hk & Hai & Hsel) Hturn Hpend Hb Hother Hboard Hturn' Hpend' Hinfo.
  unfold Game.select_white. rewrite (getp_cell _ _ _ Hwf Hb), bind_Ok.
  destruct (Game.is_white (cell (Game.board st) r c)) eqn:Hwhite; [|by simpl].
  destruct (generate_legal_moves_spec (Game.board st) White Hwf)
    as (pseudo & legal & _ & Hlegal & _).
  rewrite Hlegal, bind_Ok. simpl.
  split; [|by repeat split]. unfold game_inv. simpl.
  split; [exact Hwf|]. split; [exact Hw|]. split; [exact Hk|]. split; [exact Hai|].
  split; [exact Hturn|]. split; [exact Hpend|]. split; [exact Hb|]. split; [|exact Hlegal].
  unfold Game.is_white in Hwhite. destruct (cell (Game.board st) r c) as [p|] eqn:Hp;
    [|discriminate].
  exists p. rewrite (getp_cell _ _ _ Hwf Hb), Hp. split; [reflexivity|].
  by apply bool_decide_eq_true in Hwhite.
Qed.

Lemma mouse_down_inv st pos ticks :
  game_inv st ->
  returns (Game.mouse_down st pos ticks) (fun st' =>
    game_inv st' /\
    ((Game.board st' = Game.board st /\ Game.turn st' = Game.turn st /\
      Game.ai_pending st' = Game.ai_pending st /\ Game.info st' = Game.info st) \/
     (exists sel dest legal,
        Game.turn st = White /\ Game.ai_pending st = false /\
        Game.selected st = Some sel /\ pos_from_mouse pos = Some dest /\
        generate_legal_moves (Game.board st) White = Ok legal /\
        (sel, dest) ∈ legal /\
        make_move (Game.board st) (sel, dest) = Ok (Game.board st') /\
        is_in_check (Game.board st') White = Ok false /\
        Game.turn st' = Black /\ Game.ai_pending st' = true /\
        Game.ai_timer_start st' = ticks /\ Game.selected st' = None /\
        Game.info st' = "Black thinking..."%string))).
Proof.
  intros Hinv. unfold Game.mouse_down.
  destruct (bool_decide (Game.turn st = White) && negb (Game.ai_pending st)) eqn:Hguard.
  2: { simpl. split; [exact Hinv | by left]. }
  apply andb_true_iff in Hguard. destruct Hguard as [Hturn Hpend].
  apply bool_decide_eq_true in Hturn. apply negb_true_iff in Hpend.
  destruct (pos_from_mouse pos) as [[r c]|] eqn:Hpos.
  2: { simpl. split; [exact Hinv | by left]. }
  assert (in_bounds r c = true) as Hb.
  { destruct pos as [x y]. apply pos_from_mouse_Some in Hpos. apply Hpos. }
  pose proof Hinv as (Hwf & Hw & Hk & Hai & Hsel).
  assert (game_inv (Game.set_selection st None [])) as Hnone by split_inv.
  destruct (Game.selected st) as [sel|] eqn:Hselected.
  2: { eapply returns_mono; [by apply (select_white_inv st r c) |].
       intros st' [Hinv' Hsame]. split; [exact Hinv' | by left]. }
  destruct Hsel as (_ & _ & Hselb & Hselp & Hcache).
  case_bool_decide as Hcand.
  2: { eapply returns_mono; [by apply (select_white_inv st r c) |].
       intros st' [Hinv' Hsame]. split; [exact Hinv' | by left]. }
  apply list_elem_of_filter in Hcand. destruct Hcand as [_ Hcand].
  destruct (generate_legal_moves_in_bounds _ _ _ _ Hwf Hcache Hcand)
    as (H1 & H2 & nb & Hnb & Hwfnb & Hchk).
  rewrite Hnb, bind_Ok. simpl. split.
  - unfold game_inv. simpl. destruct sel as [r1 c1]. simpl in H1, H2.
    destruct (make_move_one_king _ White r1 c1 r c Hwf H1 H2 Hw) as (nb' & Hnb' & Hw').
    destruct (make_move_one_king _ Black r1 c1 r c Hwf H1 H2 Hk) as (nb'' & Hnb'' & Hk').
    assert (nb' = nb) as -> by congruence. assert (nb'' = nb) as -> by congruence.
    split_inv. by split.
  - right. exists sel, (r, c), (Game.legal_moves_cache st).
    split; [exact Hturn|]. split; [exact Hpend|]. split; [reflexivity|].
    split; [reflexivity|]. split; [exact Hcache|]. split; [exact Hcand|].
    split; [exact Hnb|]. split; [exact Hchk|]. by repeat split.
Qed.

(** What [info_inv] says depends on four variables of the loop only. *)
Lemma info_inv_same st st' :
  Game.board st' = Game.board st -> Game.turn st' = Game.turn st ->
  Game.ai_pending st' = Game.ai_pending st -> Game.info st' = Game.info st ->
  info_inv st -> info_inv st'.
Proof. unfold info_inv. by intros -> -> -> ->. Qed.

Lemma handle_event_inv st ev ticks :
  game_inv st -> info_inv st ->
  returns (Game.handle_event st ev ticks) (fun st' => game_inv st' /\ info_inv st').
Proof.
  intros Hinv Hinfo. destruct ev as [|button pos|]; simpl.
  - by destruct st.
  - case_bool_decide; [|by split].
    eapply returns_mono; [by apply mouse_down_inv|].
    intros st' [Hinv' [(Hb & Ht & Hp & Hi)|Hmove]]; (split; [exact Hinv'|]).
    + by apply (info_inv_same st).
    + destruct Hmove as (sel & dest & legal & Hmove).
      decompose [and] Hmove. unfold info_inv.
      by repeat match goal with H : _ st' = _ |- _ => rewrite H end.
  - by split.
Qed.

Lemma ai_move_inv randbelow st now :
  in_range randbelow -> game_inv st ->
  returns (Game.ai_move randbelow st now) (fun st' =>
    game_inv st' /\
    (~ (Game.turn st = Black /\ Game.ai_pending st = true) -> st' = st) /\
    (Game.turn st = Black -> Game.ai_pending st = true ->
     (now - Game.ai_timer_start st < AI_DELAY_MS -> st' = st) /\
     (now - Game.ai_timer_start st >= AI_DELAY_MS ->
      exists legal,
        generate_legal_moves (Game.board st) Black = Ok legal /\
        Game.ai_pending st' = false /\
        ((legal = [] /\ Game.board st' = Game.board st /\ Game.turn st' = Black /\
          Game.info st' = "Black has no legal moves."%string) \/
         (exists m chk,
            m ∈ legal /\ make_move (Game.board st) m = Ok (Game.board st') /\
            Game.turn st' = White /\
            is_in_check (Game.board st') White = Ok chk /\
            Game.info st' = (if chk then "Check on White! Your move."
                             else "White to move.")%string))))).
Proof.
  intros Hrand Hinv. unfold Game.ai_move.
  destruct (bool_decide (Game.turn st = Black) && Game.ai_pending st) eqn:Hguard.
  2: { simpl. split; [exact Hinv|]. split; [done|]. intros Hturn Hpend.
       rewrite Hpend, bool_decide_eq_true_2 in Hguard by exact Hturn. discriminate. }
  apply andb_true_iff in Hguard. destruct Hguard as [Hturn Hpend].
  apply bool_decide_eq_true in Hturn.
  destruct (bool_decide (now - Game.ai_timer_start st >= AI_DELAY_MS)) eqn:Hdelay.
  2: { apply bool_decide_eq_false in Hdelay. simpl.
       split; [exact Hinv|]. split; [done|]. intros _ _. split; [done | lia]. }
  apply bool_decide_eq_true in Hdelay.
  pose proof Hinv as (Hwf & Hw & Hk & Hai & Hsel).
  assert (Game.selected st = None) as Hnosel.
  { destruct (Game.selected st); [|reflexivity]. destruct Hsel as (Hwhite & _). congruence. }
  rewrite Hnosel in Hsel.
  destruct (ai_choose_move_legal randbelow _ Hrand Hwf)
    as (legal & choice & Hlegal & -> & Hnone & Hsome).
  rewrite bind_Ok. destruct choice as [m|].
  - pose proof (Hsome m eq_refl) as Hm.
    destruct (generate_legal_moves_in_bounds _ _ _ _ Hwf Hlegal Hm)
      as (H1 & H2 & nb & Hnb & Hwfnb & _).
    rewrite Hnb, bind_Ok.
    pose proof (is_in_check_total nb White Hwfnb) as Hchk.
    apply returns_Ok in Hchk. destruct Hchk as (chk & Hchk & _).
    rewrite Hchk, bind_Ok. simpl. split; [|split; [tauto|]].
    + unfold game_inv. simpl. rewrite Hnosel. destruct m as [[r1 c1] [r2 c2]].
      simpl in H1, H2.
      destruct (make_move_one_king _ White r1 c1 r2 c2 Hwf H1 H2 Hw) as (nb' & Hnb' & Hw').
      destruct (make_move_one_king _ Black r1 c1 r2 c2 Hwf H1 H2 Hk) as (nb'' & Hnb'' & Hk').
      assert (nb' = nb) as -> by congruence. assert (nb'' = nb) as -> by congruence.
      split_inv. split; [discriminate | exact Hsel].
    + intros _ _. split; [lia|]. intros _. exists legal. split; [exact Hlegal|].
      split; [reflexivity|]. right. exists m, chk.
      split; [exact Hm|]. split; [exact Hnb|]. split; [reflexivity|].
      split; [exact Hchk | reflexivity].
  - simpl. split; [|split; [tauto|]].
    + unfold game_inv. simpl. rewrite Hnosel.
      repeat (split; [assumption|]). split; [discriminate | exact Hsel].
    + intros _ _. split; [lia|]. intros _. exists legal. split; [exact Hlegal|].
      split; [reflexivity|]. left. split; [by apply Hnone|].
      split; [reflexivity|]. split; [exact Hturn | reflexivity].
Qed.

Lemma ai_move_info randbelow st now :
  in_range randbelow -> game_inv st -> info_inv st ->
  returns (Game.ai_move randbelow st now) (fun st' => game_inv st' /\ info_inv st').
Proof.
  intros Hrand Hinv Hinfo.
  eapply returns_mono; [by apply ai_move_inv|].
  intros st' (Hinv' & Hidle & Hplay). split; [exact Hinv'|].
  destruct (decide (Game.turn st = Black /\ Game.ai_pending st = true)) as [[Ht Hp]|Hno].
  2: { by rewrite (Hidle Hno). }
  destruct (Hplay Ht Hp) as [Hwait Hgo].
  destruct (decide (now - Game.ai_timer_start st < AI_DELAY_MS)) as [Hlt|Hge].
  { by rewrite (Hwait Hlt). }
  destruct Hgo as (legal & Hlegal & Hp' & Hcase); [lia|].
  unfold info_inv. destruct Hcase as [(-> & Hb & Ht' & Hi)|(m & chk & _ & _ & Ht' & Hchk & Hi)].
  - rewrite Ht', Hp', Hb. by split.
  - rewrite Ht', Hi, Hchk. by destruct chk.
Qed.

(** On the states of the loop the status step finds the message it would
    write. *)
Lemma status_id st : game_inv st -> info_inv st -> Game.status st = Ok st.
Proof.
  intros Hinv Hinfo. unfold Game.status.
  destruct (bool_decide (Game.turn st = White) && negb (Game.ai_pending st)) eqn:Hguard;
    [|reflexivity].
  apply andb_true_iff in Hguard. destruct Hguard as [Hturn _].
  apply bool_decide_eq_true in Hturn.
  pose proof (is_in_check_total (Game.board st) White (proj1 Hinv)) as Hchk.
  apply returns_Ok in Hchk. destruct Hchk as (chk & Hchk & _). rewrite Hchk, bind_Ok.
  destruct chk; [|reflexivity].
  unfold info_inv in Hinfo. rewrite Hturn in Hinfo. apply Hinfo in Hchk.
  destruct st. simpl in Hchk. unfold Game.set_info. simpl. by rewrite Hchk.
Qed.

Lemma events_inv events st :
  game_inv st -> info_inv st ->
  returns (for_each events (fun '(ev, ticks) st => Game.handle_event st ev ticks) st)
          (fun st' => game_inv st' /\ info_inv st').
Proof.
  intros Hinv Hinfo.
  apply (for_each_inv (fun st => game_inv st /\ info_inv st)); [by split|].
  intros [ev ticks] st' _ [Hinv' Hinfo']. by apply handle_event_inv.
Qed.

Lemma frame_inv randbelow events now st :
  in_range randbelow -> game_inv st -> info_inv st ->
  returns (Game.frame randbelow events now st) (fun st' => game_inv st' /\ info_inv st').
Proof.
  intros Hrand Hinv Hinfo. unfold Game.frame.
  eapply returns_bind; [by apply events_inv|].
  intros st1 [Hinv1 Hinfo1]. eapply returns_bind; [by apply ai_move_info|].
  intros st2 [Hinv2 Hinfo2]. by rewrite status_id.
Qed.

Lemma game_inv_start st : Game.start = Ok st -> game_inv st /\ info_inv st.
Proof.
  unfold Game.start.
  assert (initial_board = Ok start_position) as -> by (by vm_compute).
  rewrite bind_Ok. intros [= <-]. split.
  - unfold game_inv. simpl.
    split; [exact wf_start_position|].
    split; [apply one_king_start_position|]. split; [apply one_king_start_position|].
    split; [discriminate | reflexivity].
  - unfold info_inv. simpl. split; [discriminate|]. by vm_compute.
Qed.

Lemma game_reachable_inv st : game_reachable st -> game_inv st /\ info_inv st.
Proof.
  induction 1 as [st Hstart|randbelow events now st st' _ [IH IH'] _ Hrand Hframe].
  - by apply game_inv_start.
  - pose proof (frame_inv randbelow events now st Hrand IH IH') as Hst'.
    by rewrite Hframe in Hst'.
Qed.

Lemma in_range_first_item : in_range first_item.
Proof. intros n Hn. exact Hn. Qed.

Lemma mouse_down_Ok_inv st pos ticks st' :
  game_inv st -> Game.mouse_down st pos ticks = Ok st' -> game_inv st'.
Proof.
  intros Hinv Hrun. pose proof (mouse_down_inv st pos ticks Hinv) as Hst'.
  rewrite Hrun in Hst'. apply Hst'.
Qed.

(** X13: every state the loop of [main] goes through has a board of 8 by 8
    squares with at most one king of each color; the AI is pending only on
    Black's turn; a square is selected only on White's turn with no AI
    pending, it holds a white piece, and the cached moves are then the
    legal moves of White on the board; with no selection the cache is
    empty. *)
Theorem game_loop_invariant st : game_reachable st -> game_inv st.
Proof. intros Hst. by apply game_reachable_inv. Qed.

(** The state after the first turn of the loop, in which White plays the
    pawn of the king and Black answers. *)
Lemma game_loop_invariant_witness :
  exists st st',
    Game.start = Ok st /\
    Game.frame first_item kings_pawn_clicks 600 st = Ok st' /\
    Game.turn st' = White /\ game_inv st'.
Proof.
  do 2 eexists. split; [by vm_compute|]. split; [by vm_compute|].
  split; [reflexivity|]. apply game_loop_invariant.
  eapply (reachable_frame first_item kings_pawn_clicks 600).
  - apply reachable_start. by vm_compute.
  - reflexivity.
  - exact in_range_first_item.
  - by vm_compute.
Defined.

(** X14: a turn of the loop of [main] never raises: from every state the
    loop goes through, whatever the events, the clock and the random
    choices, the turn ends with a next state. *)
Theorem game_loop_never_raises randbelow events now st :
  game_reachable st -> in_range randbelow ->
  exists st', Game.frame randbelow events now st = Ok st'.
Proof.
  intros Hst Hrand. destruct (game_reachable_inv st Hst) as [Hinv Hinfo].
  pose proof (frame_inv randbelow events now st Hrand Hinv Hinfo) as Hframe.
  apply returns_Ok in Hframe. destruct Hframe as (st' & Hst' & _). by exists st'.
Qed.

(** The first turn of the loop. *)
Lemma game_loop_never_raises_witness :
  exists st st',
    Game.start = Ok st /\ in_range first_item /\
    Game.frame first_item kings_pawn_clicks 600 st = Ok st'.
Proof.
  eexists.
  assert (Game.start = Ok _) as Hstart by (by vm_compute).
  destruct (game_loop_never_raises first_item kings_pawn_clicks 600 _
              (reachable_start _ Hstart) in_range_first_item) as [st' Hst'].
  exists st'. split; [exact Hstart|]. split; [exact in_range_first_item | exact Hst'].
Defined.

(** X15: a left click leaves the board, the turn and the message as they
    are, or it plays a move: then it is White's turn with no AI pending, a
    square is selected, the click is on a square of the board, the move
    from the selected square to it is a legal move of White, and after it
    the board is the one [make_move] returns, White is not in check, it is
    Black's turn with the AI pending from the time of the click, and
    nothing is selected. *)
Theorem click_plays_legal_move st pos ticks :
  game_inv st ->
  exists st',
    Game.mouse_down st pos ticks = Ok st' /\
    ((Game.board st' = Game.board st /\ Game.turn st' = Game.turn st /\
      Game.ai_pending st' = Game.ai_pending st /\ Game.info st' = Game.info st) \/
     (exists sel dest legal,
        Game.turn st = White /\ Game.ai_pending st = false /\
        Game.selected st = Some sel /\ pos_from_mouse pos = Some dest /\
        generate_legal_moves (Game.board st) White = Ok legal /\
        (sel, dest) ∈ legal /\
        make_move (Game.board st) (sel, dest) = Ok (Game.board st') /\
        is_in_check (Game.board st') White = Ok false /\
        Game.turn st' = Black /\ Game.ai_pending st' = true /\
        Game.ai_timer_start st' = ticks /\ Game.selected st' = None /\
        Game.info st' = "Black thinking..."%string)).
Proof.
  intros Hinv. pose proof (mouse_down_inv st pos ticks Hinv) as Hrun.
  apply returns_Ok in Hrun. destruct Hrun as (st' & Hst' & _ & Hcase).
  by exists st'.
Qed.

(** The two clicks of the first move of a game: the first selects the
    pawn of the king, the second plays it. *)
Lemma click_plays_legal_move_witness :
  exists st0 st,
    Game.start = Ok st0 /\ Game.mouse_down st0 (340, 500) 100 = Ok st /\
    game_inv st /\
    exists st', Game.mouse_down st (340, 340) 200 = Ok st' /\
                Game.turn st' = Black /\ Game.ai_timer_start st' = 200.
Proof.
  do 2 eexists. split; [vm_compute; reflexivity|]. split; [vm_compute; reflexivity|].
  match goal with |- game_inv ?s /\ _ => assert (game_inv s) as Hinv end.
  { eapply (mouse_down_Ok_inv _ (340, 500) 100);
      [apply game_inv_start; vm_compute; reflexivity | vm_compute; reflexivity]. }
  split; [exact Hinv|].
  destruct (click_plays_legal_move _ (340, 340) 200 Hinv) as (st' & Hst' & _).
  exists st'. split; [exact Hst'|].
  match type of Hst' with ?run = _ =>
    assert (exists x, run = Ok x /\ Game.turn x = Black /\ Game.ai_timer_start x = 200)
      as (x & Hx & Hturn) by (eexists; split; [vm_compute; reflexivity | by split]) end.
  assert (st' = x) as -> by congruence. exact Hturn.
Defined.

(** X16: when it is Black's turn and the AI is pending, the AI step leaves
    the state as it is until [AI_DELAY_MS] have passed since the move of
    White; from then on it ends the wait and either Black has no legal
    move, the board and the turn stay and the message says so, or the
    board becomes the one [make_move] returns for a legal move of Black,
    the turn passes to White and the message tells whether White is in
    check on that board. *)
Theorem ai_moves_after_delay randbelow st now :
  in_range randbelow -> game_inv st ->
  Game.turn st = Black -> Game.ai_pending st = true ->
  exists st',
    Game.ai_move randbelow st now = Ok st' /\
    (now - Game.ai_timer_start st < AI_DELAY_MS -> st' = st) /\
    (now - Game.ai_timer_start st >= AI_DELAY_MS ->
     exists legal,
       generate_legal_moves (Game.board st) Black = Ok legal /\
       Game.ai_pending st' = false /\
       ((legal = [] /\ Game.board st' = Game.board st /\ Game.turn st' = Black /\
         Game.info st' = "Black has no legal moves."%string) \/
        (exists m chk,
           m ∈ legal /\ make_move (Game.board st) m = Ok (Game.board st') /\
           Game.turn st' = White /\
           is_in_check (Game.board st') White = Ok chk /\
           Game.info st' = (if chk then "Check on White! Your move."
                            else "White to move.")%string))).
Proof.
  intros Hrand Hinv Hturn Hpend.
  pose proof (ai_move_inv randbelow st now Hrand Hinv) as Hrun.
  apply returns_Ok in Hrun. destruct Hrun as (st' & Hst' & _ & _ & Hplay).
  exists st'. split; [exact Hst' | by apply Hplay].
Qed.

(** The answer of Black to the first move of White, too early and in
    time. *)
Lemma ai_moves_after_delay_witness :
  exists st0 st,
    Game.start = Ok st0 /\
    for_each kings_pawn_clicks (fun '(ev, ticks) st => Game.handle_event st ev ticks) st0
      = Ok st /\
    in_range first_item /\ game_inv st /\
    Game.turn st = Black /\ Game.ai_pending st = true /\
    Game.ai_move first_item st 500 = Ok st /\
    exists st', Game.ai_move first_item st 550 = Ok st' /\ Game.turn st' = White.
Proof.
  do 2 eexists. split; [vm_compute; reflexivity|]. split; [vm_compute; reflexivity|].
  split; [exact in_range_first_item|].
  match goal with |- game_inv ?s /\ _ => assert (game_inv s) as Hinv end.
  { eapply (mouse_down_Ok_inv _ (340, 340) 200);
      [eapply (mouse_down_Ok_inv _ (340, 500) 100);
         [apply game_inv_start; vm_compute; reflexivity | vm_compute; reflexivity]
      | vm_compute; reflexivity]. }
  split; [exact Hinv|]. split; [reflexivity|]. split; [reflexivity|].
  split.
  - destruct (ai_moves_after_delay first_item _ 500 in_range_first_item Hinv
                eq_refl eq_refl) as (st' & Hst' & Hwait & _).
    rewrite Hst'. f_equal. apply Hwait. reflexivity.
  - destruct (ai_moves_after_delay first_item _ 550 in_range_first_item Hinv
                eq_refl eq_refl) as (st' & Hst' & _).
    exists st'. split; [exact Hst'|].
    match type of Hst' with ?run = _ =>
      assert (exists x, run = Ok x /\ Game.turn x = White)
        as (x & Hx & Hturn) by (eexists; split; [vm_compute; reflexivity | reflexivity]) end.
    assert (st' = x) as -> by congruence. exact Hturn.
Defined.

Lemma handle_event_stopped st ev ticks :
  Game.turn st = Black ->
  exists st', Game.handle_event st ev ticks = Ok st' /\ same_game st st'.
Proof.
  intros Hturn. destruct ev as [|button pos|]; simpl.
  - eexists. split; [reflexivity|]. by repeat split.
  - unfold Game.mouse_down. rewrite Hturn. simpl.
    exists st. split; [by case_bool_decide | by repeat split].
  - exists st. split; [reflexivity | by repeat split].
Qed.

Lemma events_stopped events st :
  Game.turn st = Black ->
  exists st',
    for_each events (fun '(ev, ticks) st => Game.handle_event st ev ticks) st = Ok st' /\
    same_game st st'.
Proof.
  intros Hturn. revert st Hturn. induction events as [|[ev ticks] events IH]; intros st Hturn.
  - exists st. split; [reflexivity | by repeat split].
  - destruct (handle_event_stopped st ev ticks Hturn) as (st1 & Hst1 & Hsame1).
    destruct (IH st1) as (st' & Hst' & Hsame').
    { destruct Hsame1 as (_ & -> & _). exact Hturn. }
    exists st'. split.
    + simpl. by rewrite Hst1, bind_Ok.
    + unfold same_game in *. decompose [and] Hsame1. decompose [and] Hsame'.
      repeat split; congruence.
Qed.

(** X17: once it is Black's turn with no AI pending, which is how the loop
    leaves a position in which Black has no legal move, no turn of the
    loop changes the game any more: whatever the events, the clock and the
    random source, the board, the turn, the selection, the cached moves
    and the message stay as they are; only [running] can change. *)
Theorem game_over_is_final randbelow events now st :
  Game.turn st = Black -> Game.ai_pending st = false ->
  exists st', Game.frame randbelow events now st = Ok st' /\ same_game st st'.
Proof.
  intros Hturn Hpend. unfold Game.frame.
  destruct (events_stopped events st Hturn) as (st1 & -> & Hsame).
  rewrite bind_Ok. pose proof Hsame as (_ & Hturn1 & _ & _ & _ & Hpend1 & _).
  rewrite Hturn, Hpend in *.
  unfold Game.ai_move. rewrite Hturn1, Hpend1. simpl.
  unfold Game.status. rewrite Hturn1. simpl.
  exists st1. split; [reflexivity | exact Hsame].
Qed.

(** Clicks and a request to quit on the stopped game. *)
Lemma game_over_is_final_witness :
  Game.turn stopped_game = Black /\ Game.ai_pending stopped_game = false /\
  exists st',
    Game.frame first_item (kings_pawn_clicks ++ [(Game.QUIT, 300)]) 1000 stopped_game
      = Ok st' /\
    same_game stopped_game st'.
Proof.
  do 2 (split; [reflexivity|]).
  exact (game_over_is_final first_item (kings_pawn_clicks ++ [(Game.QUIT, 300)]) 1000
           stopped_game eq_refl eq_refl).
Defined.

(** X18: in every state the loop of [main] goes through, the message of
    the status bar follows the game: on White's turn it is the check
    message exactly when [is_in_check] answers true for White on the
    board; on Black's turn it says that Black thinks while the AI is
    pending, and otherwise that Black has no legal moves, and then
    [generate_legal_moves] returns no move for Black. *)
Theorem status_bar_follows_game st :
  game_reachable st ->
  (Game.turn st = White ->
   (Game.info st = "Check on White! Your move."%string <->
    is_in_check (Game.board st) White = Ok true)) /\
  (Game.turn st = Black -> Game.ai_pending st = true ->
   Game.info st = "Black thinking..."%string) /\
  (Game.turn st = Black -> Game.ai_pending st = false ->
   Game.info st = "Black has no legal moves."%string /\
   generate_legal_moves (Game.board st) Black = Ok []).
Proof.
  intros Hst. destruct (game_reachable_inv st Hst) as [_ Hinfo].
  unfold info_inv in Hinfo.
  destruct (Game.turn st), (Game.ai_pending st); repeat split; try discriminate;
    intros; try apply Hinfo; try assumption; by try apply Hinfo.
Qed.

(** The message while Black thinks, before the delay of the AI is over. *)
Lemma status_bar_follows_game_witness :
  exists st st',
    Game.start = Ok st /\
    Game.frame first_item kings_pawn_clicks 300 st = Ok st' /\
    Game.turn st' = Black /\ Game.ai_pending st' = true /\
    Game.info st' = "Black thinking..."%string.
Proof.
  do 2 eexists. split; [vm_compute; reflexivity|]. split; [vm_compute; reflexivity|].
  split; [reflexivity|]. split; [reflexivity|].
  match goal with |- Game.info ?s = _ =>
    refine (proj1 (proj2 (status_bar_follows_game s _)) eq_refl eq_refl) end.
  eapply (reachable_frame first_item kings_pawn_clicks 300).
  - apply reachable_start. vm_compute; reflexivity.
  - reflexivity.
  - exact in_range_first_item.
  - vm_compute; reflexivity.
Defined.

(** X19: in the loop of [main] the last step, which looks for a check on
    White, never changes anything: from every state the loop goes through,
    a turn of the loop ends in the state the events followed by the AI
    step lead to, the message being the right one already. *)
Theorem status_step_changes_nothing randbelow events now st :
  game_reachable st -> in_range randbelow ->
  Game.frame randbelow events now st =
  (st1 ← for_each events (fun '(ev, ticks) st => Game.handle_event st ev ticks) st;
   Game.ai_move randbelow st1 now).
Proof.
  intros Hst Hrand. destruct (game_reachable_inv st Hst) as [Hinv Hinfo].
  unfold Game.frame.
  pose proof (events_inv events st Hinv Hinfo) as Hev.
  apply returns_Ok in Hev. destruct Hev as (st1 & -> & Hinv1 & Hinfo1).
  rewrite !bind_Ok.
  pose proof (ai_move_info randbelow st1 now Hrand Hinv1 Hinfo1) as Hai.
  apply returns_Ok in Hai. destruct Hai as (st2 & -> & Hinv2 & Hinfo2).
  rewrite bind_Ok. by apply status_id.
Qed.

(** The first turn of the loop. *)
Lemma status_step_changes_nothing_witness :
  exists st,
    Game.start = Ok st /\ in_range first_item /\
    Game.frame first_item kings_pawn_clicks 600 st =
    (st1 ← for_each kings_pawn_clicks
             (fun '(ev, ticks) st => Game.handle_event st ev ticks) st;
     Game.ai_move first_item st1 600).
Proof.
  eexists. split; [vm_compute; reflexivity|]. split; [exact in_range_first_item|].
  apply status_step_changes_nothing; [|exact in_range_first_item].
  apply reachable_start. vm_compute; reflexivity.
Defined.

(** ** A request to quit *)

Lemma for_each_app {A St} (xs ys : list A) (body : A -> St -> res St) s :
  for_each (xs ++ ys) body s = (s' ← for_each xs body s; for_each ys body s').
Proof.
  revert s. induction xs as [|x xs IH]; intros s; simpl; [reflexivity|].
  destruct (body x s) as [s'|e]; simpl; [apply IH | reflexivity].
Qed.

(** The variables of the loop in a state with [running] cleared. *)
Ltac stopped_fields :=
  cbn [stopped Game.board Game.turn Game.selected Game.legal_moves_cache Game.info
       Game.ai_pending Game.ai_timer_start Game.running].

Lemma select_white_stopped st r c otherwise :
  Game.select_white (stopped st) r c (stopped otherwise) =
  then_stopped (Game.select_white st r c otherwise).
Proof.
  unfold Game.select_white, then_stopped. stopped_fields.
  destruct (getp (Game.board st) r c) as [p|e]; [|reflexivity].
  rewrite !bind_Ok.
  destruct (Game.is_white p); [|reflexivity].
  by destruct (generate_legal_moves (Game.board st) White).
Qed.

Lemma handle_event_stopped_state st ev ticks :
  Game.handle_event (stopped st) ev ticks = then_stopped (Game.handle_event st ev ticks).
Proof.
  destruct ev as [|button pos|]; simpl; [reflexivity| |reflexivity].
  case_bool_decide; [|reflexivity].
  unfold Game.mouse_down. stopped_fields.
  destruct (bool_decide (Game.turn st = White) && negb (Game.ai_pending st)); [|reflexivity].
  destruct (pos_from_mouse pos) as [[r c]|]; [|reflexivity].
  destruct (Game.selected st) as [sel|].
  - case_bool_decide.
    + unfold then_stopped. by destruct (make_move (Game.board st) (sel, (r, c))).
    + apply select_white_stopped.
  - apply (select_white_stopped st r c (Game.set_selection st None [])).
Qed.

Lemma events_stopped_state events st :
  for_each events (fun '(ev, ticks) st => Game.handle_event st ev ticks) (stopped st) =
  then_stopped (for_each events (fun '(ev, ticks) st => Game.handle_event st ev ticks) st).
Proof.
  revert st. induction events as [|[ev ticks] events IH]; intros st; simpl; [reflexivity|].
  rewrite handle_event_stopped_state. unfold then_stopped at 1.
  destruct (Game.handle_event st ev ticks) as [st1|e]; simpl; [apply IH | reflexivity].
Qed.

Lemma ai_move_stopped randbelow st now :
  Game.ai_move randbelow (stopped st) now = then_stopped (Game.ai_move randbelow st now).
Proof.
  unfold Game.ai_move. stopped_fields.
  destruct (bool_decide (Game.turn st = Black) && Game.ai_pending st); [|reflexivity].
  case_bool_decide; [|reflexivity].
  unfold then_stopped.
  destruct (ai_choose_move randbelow (Game.board st)) as [[m|]|e];
    [|reflexivity|reflexivity].
  rewrite !bind_Ok.
  destruct (make_move (Game.board st) m) as [nb|e]; [|reflexivity].
  rewrite !bind_Ok.
  by destruct (is_in_check nb White).
Qed.

Lemma status_stopped st :
  Game.status (stopped st) = then_stopped (Game.status st).
Proof.
  unfold Game.status. stopped_fields.
  destruct (bool_decide (Game.turn st = White) && negb (Game.ai_pending st)); [|reflexivity].
  unfold then_stopped. destruct (is_in_check (Game.board st) White) as [[|]|e]; reflexivity.
Qed.

(** X20: a request to quit clears [running] and nothing else, and cuts
    nothing short: the events after it in the same turn of the loop, the
    AI step and the status step run as they do without it, errors
    included. *)
Theorem quit_only_clears_running randbelow before after ticks now st :
  Game.frame randbelow (before ++ (Game.QUIT, ticks) :: after) now st =
  then_stopped (Game.frame randbelow (before ++ after) now st).
Proof.
  unfold Game.frame. rewrite !for_each_app.
  destruct (for_each before _ st) as [st1|e]; [|reflexivity].
  rewrite !bind_Ok. cbn [for_each].
  change (Game.handle_event st1 Game.QUIT ticks) with (Ok (stopped st1)).
  rewrite bind_Ok, events_stopped_state. unfold then_stopped.
  destruct (for_each after _ st1) as [st2|e]; [|reflexivity].
  rewrite !bind_Ok, ai_move_stopped. unfold then_stopped.
  destruct (Game.ai_move randbelow st2 now) as [st3|e]; [|reflexivity].
  rewrite !bind_Ok. apply status_stopped.
Qed.

(** ** The copy in the store *)

(** X21: run on a store in which [bv] stands for a board of 8 by 8
    squares, [deep_copy_board] changes no object of that store and returns
    a value that stands for the same board, the one the value model
    returns, and that is made of new objects only: no row and no piece of
    the copy is a row or a piece of the input. *)
Theorem deep_copy_board_shares_nothing h0 bv board :
  wf_board board -> Store.repr_board h0 bv board ->
  exists nv h',
    Store.deep_copy_board bv h0 = Ok (nv, h') /\
    deep_copy_board board = Ok board /\
    Store.repr_board h' nv board /\
    h0 ⊆ h' /\
    Store.repr_board h' bv board /\
    (forall l, Store.reachable h' nv l -> l ∉ dom h0) /\
    (forall l, Store.reachable h' nv l -> ~ Store.reachable h' bv l).
Proof.
  intros Hwf Hrepr.
  pose proof (StoreFacts.deep_copy_board_fresh h0 bv board Hwf Hrepr) as Hrun.
  apply StoreFacts.runs_Ok in Hrun. destruct Hrun as (nv & h' & Hrun & nl & rls & -> & Hnb).
  exists (Store.VRef nl), h'.
  split; [exact Hrun|]. split; [by apply deep_copy_board_id|].
  split; [by eapply StoreFacts.fresh_board_repr|].
  pose proof (proj1 Hnb) as Hsub.
  split; [exact Hsub|]. split; [by eapply StoreFacts.repr_board_mono|].
  assert (forall l, Store.reachable h' (Store.VRef nl) l -> l ∉ dom h0) as Hnew
    by (intros l; by eapply StoreFacts.fresh_board_reachable).
  split; [exact Hnew|].
  intros l Hl Hold. apply (Hnew l Hl).
  by eapply StoreFacts.repr_board_reachable.
Qed.

(** The copy of the board of [rook_store]. *)
Lemma deep_copy_board_shares_nothing_witness :
  wf_board corner_rook /\ Store.repr_board rook_store (Store.VRef 1) corner_rook /\
  exists nv h',
    Store.deep_copy_board (Store.VRef 1) rook_store = Ok (nv, h') /\
    Store.repr_board h' nv corner_rook /\
    (forall l, Store.reachable h' nv l -> ~ Store.reachable h' (Store.VRef 1) l).
Proof.
  assert (wf_board corner_rook) as Hwf by (apply wf_board_of; by repeat constructor).
  split; [exact Hwf|]. split; [exact rook_store_repr|].
  destruct (deep_copy_board_shares_nothing rook_store (Store.VRef 1) corner_rook
              Hwf rook_store_repr) as (nv & h' & Hrun & _ & Hnv & _ & _ & _ & Hnew).
  exists nv, h'. split; [exact Hrun|]. split; [exact Hnv | exact Hnew].
Defined.

(** ** What is drawn *)

Lemma draw_board_calls call :
  call ∈ draw_board <->
  exists s, in_bounds s.1 s.2 = true /\ call = draw_rect (shade s) (square_rect s) 0.
Proof.
  unfold draw_board. rewrite list_elem_of_bind. split.
  - intros (r & Hcall & Hr). apply list_elem_of_bind in Hcall.
    destruct Hcall as (c & Hcall & Hc). apply list_elem_of_singleton in Hcall.
    apply elem_of_range in Hr, Hc. exists (r, c).
    split; [apply in_bounds_iff; simpl; lia | exact Hcall].
  - intros ([r c] & Hb & ->). apply in_bounds_iff in Hb. simpl in Hb.
    exists r. split; [|apply elem_of_range; lia].
    apply list_elem_of_bind. exists c. split; [|apply elem_of_range; lia].
    by apply list_elem_of_singleton.
Qed.

Lemma square_rect_pixels x y s :
  in_bounds s.1 s.2 = true ->
  pixel_in_rect x y (square_rect s) <-> pos_from_mouse (x, y) = Some s.
Proof.
  intros Hb. rewrite pos_from_mouse_Some.
  unfold pixel_in_rect, square_rect, pixel_in_square, sq_in_bounds. rewrite SQUARE_eq.
  split; [intros Hpix; split; [exact Hb | lia] | intros [_ Hpix]; lia].
Qed.

(** X22: [draw_board] paints the window square by square: it draws
    exactly the 64 filled rectangles of the squares of the board, light
    when row plus column is even and dark otherwise, so that neighbours
    differ; a rectangle it draws covers a pixel exactly when
    [pos_from_mouse] maps the pixel to the square of the rectangle. *)
Theorem draw_board_paints_squares :
  (forall call, call ∈ draw_board <->
     exists s, in_bounds s.1 s.2 = true /\
               call = draw_rect (shade s) (square_rect s) 0) /\
  (forall s x y, in_bounds s.1 s.2 = true ->
     (pixel_in_rect x y (square_rect s) <-> pos_from_mouse (x, y) = Some s)) /\
  (forall s, shade s <> shade (s.1, s.2 + 1) /\ shade s <> shade (s.1 + 1, s.2)).
Proof.
  split; [exact draw_board_calls|]. split; [intros s x y; apply square_rect_pixels|].
  intros [r c]. unfold shade. simpl.
  replace (r + (c + 1)) with (r + c + 1) by lia.
  replace (r + 1 + c) with (r + c + 1) by lia.
  pose proof (Z.mod_pos_bound (r + c) 2 ltac:(lia)) as Hm.
  assert ((r + c + 1) `mod` 2 = (r + c) `mod` 2 + 1 \/
          (r + c + 1) `mod` 2 = (r + c) `mod` 2 - 1) as Hnext.
  { pose proof (Z.div_mod (r + c) 2 ltac:(lia)).
    pose proof (Z.div_mod (r + c + 1) 2 ltac:(lia)).
    pose proof (Z.mod_pos_bound (r + c + 1) 2 ltac:(lia)). lia. }
  pose proof (Z.mod_pos_bound (r + c + 1) 2 ltac:(lia)) as Hm'.
  unfold LIGHT, DARK. split; repeat case_bool_decide; try discriminate; exfalso; lia.
Qed.

(** X23: [draw_status_bar] fills a bar over the lowest 28 lines of pixels
    of the window, and writes the message in it; the bar is drawn over
    the board, not below it: every pixel of it is one that
    [pos_from_mouse] maps to a square of the last row. *)
Theorem status_bar_over_last_row info :
  exists rect color dest,
    draw_status_bar info = [draw_rect BG rect 0; blit_topleft info color dest] /\
    (forall x y, pixel_in_rect x y rect <-> 0 <= x < WIDTH /\ HEIGHT - 28 <= y < HEIGHT) /\
    (forall x y, pixel_in_rect x y rect ->
                 exists c, pos_from_mouse (x, y) = Some (7, c)) /\
    pixel_in_rect dest.1 dest.2 rect.
Proof.
  do 3 eexists. split; [reflexivity|].
  unfold pixel_in_rect, WIDTH, HEIGHT. simpl. split; [intros x y; lia|].
  split; [|lia]. intros x y Hpix. exists (x `div` 80). apply pos_from_mouse_Some.
  unfold sq_in_bounds, pixel_in_square. rewrite SQUARE_eq. simpl.
  pose proof (Z.div_mod x 80 ltac:(lia)). pose proof (Z.mod_pos_bound x 80 ltac:(lia)).
  split; [apply in_bounds_iff; lia | lia].
Qed.

Lemma glyph_total t color :
  exists g, dict_get UNICODE_PIECES (t, color) = Some g /\ g <> ""%string.
Proof. destruct t, color; eexists; (split; [reflexivity | discriminate]). Qed.

Lemma glyph_inj p q g :
  dict_get UNICODE_PIECES (ptype p, pcolor p) = Some g ->
  dict_get UNICODE_PIECES (ptype q, pcolor q) = Some g -> p = q.
Proof.
  destruct p as [[] []], q as [[] []]; simpl; intros Hp Hq;
    first [reflexivity | vm_compute in Hp, Hq; congruence].
Qed.

Lemma square_center_inj s t : square_center s = square_center t -> s = t.
Proof.
  destruct s as [r c], t as [r' c']. unfold square_center. rewrite SQUARE_eq. simpl.
  intros [= Hc Hr]. f_equal; lia.
Qed.

Lemma draw_pieces_calls board :
  wf_board board ->
  returns (draw_pieces board) (fun calls =>
    forall call, call ∈ calls <->
      exists s p g, in_bounds s.1 s.2 = true /\ cell board s.1 s.2 = Some p /\
        dict_get UNICODE_PIECES (ptype p, pcolor p) = Some g /\
        call = blit_center g TEXT_COLOR (square_center s)).
Proof.
  intros Hwf. unfold draw_pieces.
  set (shown := fun (r c : Z) (call : draw_call) =>
    exists p g, cell board r c = Some p /\
      dict_get UNICODE_PIECES (ptype p, pcolor p) = Some g /\
      call = blit_center g TEXT_COLOR (square_center (r, c))).
  eapply returns_mono.
  - apply (for_each_collect (fun (call : draw_call) (calls : list draw_call) => call ∈ calls)
             (fun r call => exists c, c ∈ range 8 /\ shown r c call)).
    intros r calls Hr. apply elem_of_range in Hr.
    apply (for_each_collect (fun (call : draw_call) (calls : list draw_call) => call ∈ calls)
             (shown r)).
    intros c calls' Hc. apply elem_of_range in Hc.
    assert (in_bounds r c = true) as Hb by (apply in_bounds_iff; lia).
    rewrite (getp_cell _ _ _ Hwf Hb), bind_Ok. unfold shown.
    destruct (cell board r c) as [p|] eqn:Hp.
    2: { intros call. split; [by left|]. intros [Hcall|(p & g & [=] & _)]. exact Hcall. }
    destruct (glyph_total (ptype p) (pcolor p)) as (g & Hg & Hne).
    rewrite Hg. rewrite bool_decide_eq_true_2 by exact Hne.
    intros call. simpl. rewrite elem_of_app, list_elem_of_singleton.
    apply or_iff_compat_l. split.
    + intros ->. by exists p, g.
    + intros (p' & g' & [= <-] & Hg' & ->).
      by pose proof (eq_trans (eq_sym Hg') Hg) as [= ->].
  - intros calls Hcalls call. rewrite (Hcalls call). split.
    + intros [Hnil|(r & Hr & c & Hc & p & g & Hp & Hg & ->)]; [by apply elem_of_nil in Hnil|].
      apply elem_of_range in Hr, Hc. exists (r, c), p, g.
      split; [apply in_bounds_iff; simpl; lia | by repeat split].
    + intros ([r c] & p & g & Hb & Hp & Hg & ->). apply in_bounds_iff in Hb. simpl in *.
      right. exists r. split; [apply elem_of_range; lia|].
      exists c. split; [apply elem_of_range; lia|]. by exists p, g.
Qed.

Lemma draw_pieces_inj board board' calls :
  wf_board board -> wf_board board' ->
  draw_pieces board = Ok calls -> draw_pieces board' = Ok calls -> board' = board.
Proof.
  intros Hwf Hwf' Hrun Hrun'.
  pose proof (draw_pieces_calls board Hwf) as Hcalls.
  pose proof (draw_pieces_calls board' Hwf') as Hcalls'.
  rewrite Hrun in Hcalls. rewrite Hrun' in Hcalls'. simpl in Hcalls, Hcalls'.
  assert (forall b1 b2 : Board,
            (forall call, call ∈ calls <->
               exists s p g, in_bounds s.1 s.2 = true /\ cell b1 s.1 s.2 = Some p /\
                 dict_get UNICODE_PIECES (ptype p, pcolor p) = Some g /\
                 call = blit_center g TEXT_COLOR (square_center s)) ->
            (forall call, call ∈ calls <->
               exists s p g, in_bounds s.1 s.2 = true /\ cell b2 s.1 s.2 = Some p /\
                 dict_get UNICODE_PIECES (ptype p, pcolor p) = Some g /\
                 call = blit_center g TEXT_COLOR (square_center s)) ->
            forall r c p, in_bounds r c = true -> cell b1 r c = Some p ->
                          cell b2 r c = Some p) as Hsame.
  { intros b1 b2 H1 H2 r c p Hb Hp.
    destruct (glyph_total (ptype p) (pcolor p)) as (g & Hg & _).
    assert (blit_center g TEXT_COLOR (square_center (r, c)) ∈ calls) as Hin
      by (apply H1; by exists (r, c), p, g).
    apply H2 in Hin. destruct Hin as (s & q & g' & _ & Hq & Hg' & Hcall).
    assert (g' = g /\ square_center s = square_center (r, c)) as [-> Hs]
      by (split; congruence).
    apply square_center_inj in Hs. subst s. simpl in Hq.
    rewrite Hq. f_equal. by apply (glyph_inj q p g). }
  apply board_ext; [exact Hwf' | exact Hwf|]. intros r c Hb.
  destruct (cell board r c) as [p|] eqn:Hp.
  - by apply (Hsame board board').
  - destruct (cell board' r c) as [q|] eqn:Hq; [|reflexivity].
    rewrite (Hsame board' board Hcalls' Hcalls r c q Hb Hq) in Hp. discriminate.
Qed.

(** X24: on a board of 8 by 8 squares [draw_pieces] never raises and never
    falls back to the plain disc: it draws, for each occupied square and
    for no other, the glyph of the piece centered on the square; and the
    drawing tells the board: two boards with the same calls are the same
    board. *)
Theorem draw_pieces_shows_board board :
  wf_board board ->
  exists calls,
    draw_pieces board = Ok calls /\
    (forall call, call ∈ calls <->
       exists s p g, in_bounds s.1 s.2 = true /\ cell board s.1 s.2 = Some p /\
         dict_get UNICODE_PIECES (ptype p, pcolor p) = Some g /\
         call = blit_center g TEXT_COLOR (square_center s)) /\
    (forall board', wf_board board' -> draw_pieces board' = Ok calls -> board' = board).
Proof.
  intros Hwf. pose proof (draw_pieces_calls board Hwf) as Hcalls.
  apply returns_Ok in Hcalls. destruct Hcalls as (calls & Hrun & Hcalls).
  exists calls. split; [exact Hrun|]. split; [exact Hcalls|].
  intros board' Hwf' Hrun'. by apply (draw_pieces_inj board board' calls).
Qed.

(** The lone rook, drawn. *)
Lemma draw_pieces_shows_board_witness :
  wf_board lone_rook /\
  exists calls,
    draw_pieces lone_rook = Ok calls /\
    blit_center "♖" TEXT_COLOR (square_center (4, 4)) ∈ calls.
Proof.
  assert (wf_board lone_rook) as Hwf by (apply wf_board_of; by repeat constructor).
  split; [exact Hwf|].
  destruct (draw_pieces_shows_board lone_rook Hwf) as (calls & Hrun & Hcalls & _).
  exists calls. split; [exact Hrun|]. apply Hcalls.
  exists (4, 4), (mkPiece Rook White), "♖"%string. by repeat split.
Defined.

(** X25: what a turn of the loop of [main] draws never raises, and the
    marks on the screen follow the game: a selection outline is drawn
    exactly around the selected square, and the discs drawn are exactly
    the dots of the legal moves of White from the selected square, each
    centered on the destination of its move. *)
Theorem screen_marks_legal_moves st :
  game_reachable st ->
  exists calls,
    Game.render st = Ok calls /\
    (forall rect width,
       draw_rect SELECT_OUTLINE rect width ∈ calls <->
       exists sel, Game.selected st = Some sel /\ rect = square_rect sel /\ width = 4) /\
    (forall color center radius,
       draw_circle color center radius ∈ calls <->
       exists sel dest legal,
         Game.selected st = Some sel /\
         generate_legal_moves (Game.board st) White = Ok legal /\
         (sel, dest) ∈ legal /\
         color = MOVE_DOT /\ center = square_center dest /\ radius = 8).
Proof.
  intros Hst. destruct (game_reachable_inv st Hst) as [(Hwf & _ & _ & _ & Hsel) _].
  unfold Game.render.
  pose proof (draw_pieces_calls (Game.board st) Hwf) as Hpieces.
  apply returns_Ok in Hpieces. destruct Hpieces as (pieces & -> & Hpieces).
  rewrite bind_Ok. eexists. split; [reflexivity|].
  assert (forall call, call ∈ draw_status_bar (Game.info st) ->
            call = draw_rect BG (0, HEIGHT - 28, WIDTH, 28) 0 \/
            exists text color dest, call = blit_topleft text color dest) as Hbar.
  { intros call Hcall. unfold draw_status_bar in Hcall.
    apply elem_of_cons in Hcall. destruct Hcall as [->|Hcall]; [by left|].
    apply list_elem_of_singleton in Hcall. right. by do 3 eexists. }
  split.
  - intros rect width. rewrite !elem_of_app, list_elem_of_singleton. split.
    + intros [Hc|[Hc|[Hc|[Hc|[Hc|Hc]]]]].
      * discriminate Hc.
      * apply draw_board_calls in Hc. destruct Hc as (s & _ & [= Hcol _ _]).
        unfold shade in Hcol. case_bool_decide; discriminate Hcol.
      * destruct (Game.selected st) as [[r c]|]; [|by apply elem_of_nil in Hc].
        apply list_elem_of_singleton in Hc. injection Hc as -> ->. by exists (r, c).
      * destruct (Game.selected st) as [sel|]; [|by apply elem_of_nil in Hc].
        apply draw_moves_calls in Hc. destruct Hc as (dest & _ & [=]).
      * apply Hpieces in Hc. destruct Hc as (s & p & g & _ & _ & _ & [=]).
      * apply Hbar in Hc. destruct Hc as [[=]|(text & color & dest & [=])].
    + intros ([r c] & Hselected & -> & ->). right. right. left.
      rewrite Hselected. by apply list_elem_of_singleton.
  - intros color center radius. rewrite !elem_of_app, list_elem_of_singleton. split.
    + intros [Hc|[Hc|[Hc|[Hc|[Hc|Hc]]]]].
      * discriminate Hc.
      * apply draw_board_calls in Hc. destruct Hc as (s & _ & [=]).
      * destruct (Game.selected st) as [[r c]|]; [|by apply elem_of_nil in Hc].
        apply list_elem_of_singleton in Hc. discriminate Hc.
      * destruct (Game.selected st) as [sel|] eqn:Hselected; [|by apply elem_of_nil in Hc].
        apply draw_moves_calls in Hc. destruct Hc as (dest & Hin & [= -> -> ->]).
        destruct Hsel as (_ & _ & _ & _ & Hcache).
        exists sel, dest, (Game.legal_moves_cache st).
        split; [reflexivity|]. split; [exact Hcache|]. split; [exact Hin|].
        by repeat split.
      * apply Hpieces in Hc. destruct Hc as (s & p & g & _ & _ & _ & [=]).
      * apply Hbar in Hc. destruct Hc as [[=]|(text & col & dest & [=])].
    + intros (sel & dest & legal & Hselected & Hlegal & Hin & -> & -> & ->).
      right. right. right. left. rewrite Hselected in Hsel |- *.
      destruct Hsel as (_ & _ & _ & _ & Hcache).
      apply draw_moves_calls. exists dest. split; [congruence | reflexivity].
Qed.

(** The screen after the click on the pawn of the king: a dot on the
    square two ranks ahead of it. *)
Lemma screen_marks_legal_moves_witness :
  exists st st' calls,
    Game.start = Ok st /\
    Game.frame first_item kings_pawn_click 150 st = Ok st' /\
    Game.render st' = Ok calls /\
    draw_circle MOVE_DOT (square_center (4, 4)) 8 ∈ calls.
Proof.
  do 2 eexists.
  match goal with |- exists calls, ?start /\ ?frame /\ _ =>
    assert start as Hstart by (vm_compute; reflexivity);
    assert frame as Hframe by (vm_compute; reflexivity) end.
  match type of Hframe with _ = Ok ?s =>
    destruct (screen_marks_legal_moves s) as (calls & Hrun & _ & Hdots) end.
  { eapply (reachable_frame first_item kings_pawn_click 150);
      [apply reachable_start; exact Hstart | reflexivity
      | exact in_range_first_item | exact Hframe]. }
  exists calls. split; [exact Hstart|]. split; [exact Hframe|]. split; [exact Hrun|].
  apply Hdots. exists (6, 4), (4, 4). eexists.
  split; [reflexivity|]. split; [vm_compute; reflexivity|].
  split; [|by repeat split]. apply (bool_decide_unpack _). by vm_compute.
Defined.
